(** * ragoo2_agp2fasta: building FASTA sequences from an AGP v2.1 file

    A shallow embedding of [ragoo2_agp2fasta.py] and the properties of its
    line validator, its object state machine and its coverage check.

    Conventions of the embedding.
    - A Python [str] is a [string]; a character of the string stands for the
      code point of the same number (code points below 256).
    - A Python [int] is a [Z]; the line counter, which only counts up from
      zero, is a [nat].
    - The AGP file is the list of the lines that iterating over it yields,
      each with its line end.
    - The body of [main] runs in a state-and-exception monad [M]: the state
      holds the local variables of [main] and the standard output, and a
      raised exception leaves the state as it was at the [raise].
    - The two collaborators that are not part of the script, [fai.fetch]
      (pysam) and [reverse_complement] (ragoo2_utilities), are parameters. *)

From Stdlib Require Import ZArith Lia Ascii.
From stdpp Require Import base decidable option list sorting strings pretty gmap.

Local Open Scope Z_scope.

(** ** Python primitives on strings *)

Definition tab : ascii := "009"%char.
Definition nl : string := String "010"%char EmptyString.

(** [c.isspace()] for a code point below 256: the characters that
    [str.rstrip()] removes. *)
Definition isspace (c : ascii) : bool :=
  match c with
  | "009" | "010" | "011" | "012" | "013" | "028" | "029" | "030" | "031"
  | " " | "133" | "160" => true
  | _ => false
  end%char.

(** The white space that [int()] skips around a literal. *)
Definition int_isspace (c : ascii) : bool :=
  match c with
  | "009" | "010" | "011" | "012" | "013" | " " | "133" | "160" => true
  | _ => false
  end%char.

Definition is_empty (s : string) : bool :=
  match s with EmptyString => true | String _ _ => false end.

(** [s.startswith(p)] *)
Fixpoint startswith (p s : string) : bool :=
  match p, s with
  | EmptyString, _ => true
  | String a p', String b s' => bool_decide (a = b) && startswith p' s'
  | String _ _, EmptyString => false
  end.

(** [s.rstrip()] *)
Fixpoint rstrip (s : string) : string :=
  match s with
  | EmptyString => EmptyString
  | String c r =>
      let r' := rstrip r in
      if is_empty r' && isspace c then EmptyString else String c r'
  end.

(** [s.split(sep)] for a separator of one character. *)
Fixpoint split (sep : ascii) (s : string) : list string :=
  match s with
  | EmptyString => [EmptyString]
  | String c r =>
      if bool_decide (c = sep) then EmptyString :: split sep r
      else match split sep r with
           | h :: t => String c h :: t
           | [] => [String c EmptyString]
           end
  end.

(** ["N" * n] and friends. *)
Definition string_repeat (c : ascii) (n : Z) : string :=
  Nat.iter (Z.to_nat n) (String c) EmptyString.

(** [int(s)] in base 10: optional white space, an optional sign, then
    decimal digits in which single underscores may separate digits.
    [None] stands for the [ValueError] Python raises. The limit that recent
    interpreters put on the number of digits of a literal is not modelled. *)
Fixpoint drop_int_space (s : string) : string :=
  match s with
  | String c r => if int_isspace c then drop_int_space r else s
  | EmptyString => EmptyString
  end.

Fixpoint rstrip_int_space (s : string) : string :=
  match s with
  | EmptyString => EmptyString
  | String c r =>
      let r' := rstrip_int_space r in
      if is_empty r' && int_isspace c then EmptyString else String c r'
  end.

Fixpoint int_digits (acc : Z) (after_digit : bool) (s : string) : option Z :=
  match s with
  | EmptyString => if after_digit then Some acc else None
  | String c r =>
      match Ascii.is_nat c with
      | Some d => int_digits (10 * acc + Z.of_nat d) true r
      | None =>
          if bool_decide (c = "_"%char) && after_digit
          then int_digits acc false r
          else None
      end
  end.

Definition int (s : string) : option Z :=
  match rstrip_int_space (drop_int_space s) with
  | String "+" r => int_digits 0 false r
  | String "-" r => Z.opp <$> int_digits 0 false r
  | t => int_digits 0 false t
  end.

(** [str(n)] for the line counter. *)
Definition str (n : nat) : string := pretty n.

(** ** The coverage check (lines 16-22) *)

(** Python compares tuples lexicographically; [sorted] is a stable merge
    sort. *)
Definition tuple_le (a b : Z * Z) : Prop :=
  a.1 < b.1 ∨ (a.1 = b.1 ∧ a.2 ≤ b.2).

Global Instance tuple_le_dec : RelDecision tuple_le.
Proof. intros a b. unfold tuple_le. apply _. Defined.

Definition sorted (s : list (Z * Z)) : list (Z * Z) := merge_sort tuple_le s.

(** The [for j in range(1, len(s))] loop, with its early [return False]. *)
Fixpoint is_covered_loop (s : list (Z * Z)) (js : list nat) : bool :=
  match js with
  | [] => true
  | j :: js' =>
      if bool_decide ((s !!! (j - 1)%nat).2 ≠ (s !!! j).1) then false
      else is_covered_loop s js'
  end.

Definition is_covered (s : list (Z * Z)) : bool :=
  let s := sorted s in
  is_covered_loop s (seq 1 (length s - 1)).

(** ** Exceptions, output and the state of [main] *)

Inductive exception :=
| RuntimeError (msg : string)     (* raised by [log_err] *)
| ValueError (literal : string)   (* raised by [int] *)
| KeyError (key : string).        (* raised by the sequence collaborator *)

Inductive outcome (A : Type) :=
| Ok (a : A)
| Raise (e : exception).
Arguments Ok {A} a.
Arguments Raise {A} e.

(** One call of [sys.stdout.write], tagged with the statement that makes
    it: the header of an object (line 122), the sequence of one record
    (lines 157, 159 and 186), the final newline (line 192). *)
Inductive write :=
| Header (obj : string) (text : string)
| Sequence (text : string)
| Final (text : string).

Definition written (w : write) : string :=
  match w with
  | Header _ text => text
  | Sequence text => text
  | Final text => text
  end.

Record state := State {
  line_number : nat;
  prev_pid : Z;
  curr_obj : option string;
  seen_objs : gset string;
  curr_obj_intervals : list (Z * Z);
  past_comments : bool;
  is_first : bool;
  stdout : list write
}.

(** What has reached the standard output, as one string. *)
Definition printed (st : state) : string :=
  foldr (λ w acc, written w +:+ acc) EmptyString (stdout st).

Definition initial_state : state :=
  {| line_number := 0; prev_pid := 0; curr_obj := None; seen_objs := ∅;
     curr_obj_intervals := []; past_comments := false; is_first := true;
     stdout := [] |}.

Definition next_line (st : state) : state :=
  {| line_number := S (line_number st); prev_pid := prev_pid st;
     curr_obj := curr_obj st; seen_objs := seen_objs st;
     curr_obj_intervals := curr_obj_intervals st;
     past_comments := past_comments st; is_first := is_first st;
     stdout := stdout st |}.

Definition set_past_comments (b : bool) (st : state) : state :=
  {| line_number := line_number st; prev_pid := prev_pid st;
     curr_obj := curr_obj st; seen_objs := seen_objs st;
     curr_obj_intervals := curr_obj_intervals st;
     past_comments := b; is_first := is_first st; stdout := stdout st |}.

(** Lines 125-129: the state of a new object. *)
Definition new_object (obj : string) (st : state) : state :=
  {| line_number := line_number st; prev_pid := 0;
     curr_obj := Some obj; seen_objs := {[obj]} ∪ seen_objs st;
     curr_obj_intervals := [];
     past_comments := past_comments st; is_first := false;
     stdout := stdout st |}.

(** Lines 134-135. *)
Definition record_part (pid : Z) (interval : Z * Z) (st : state) : state :=
  {| line_number := line_number st; prev_pid := pid;
     curr_obj := curr_obj st; seen_objs := seen_objs st;
     curr_obj_intervals := curr_obj_intervals st ++ [interval];
     past_comments := past_comments st; is_first := is_first st;
     stdout := stdout st |}.

Definition stdout_write (w : write) (st : state) : state :=
  {| line_number := line_number st; prev_pid := prev_pid st;
     curr_obj := curr_obj st; seen_objs := seen_objs st;
     curr_obj_intervals := curr_obj_intervals st;
     past_comments := past_comments st; is_first := is_first st;
     stdout := stdout st ++ [w] |}.

(** ** The monad of [main] *)

Definition M (A : Type) : Type := state → state * outcome A.

Global Instance M_ret : MRet M := λ A a st, (st, Ok a).
Global Instance M_bind : MBind M := λ A B f m st,
  match m st with
  | (st', Ok a) => f a st'
  | (st', Raise e) => (st', Raise e)
  end.

Definition raise {A} (e : exception) : M A := λ st, (st, Raise e).
Definition gets {A} (f : state → A) : M A := λ st, (st, Ok (f st)).
Definition modify (f : state → state) : M unit := λ st, (f st, Ok tt).
Definition when (b : bool) (m : M unit) : M unit := if b then m else mret tt.

Fixpoint for_each {A} (f : A → M unit) (l : list A) : M unit :=
  match l with
  | [] => mret tt
  | x :: l' => f x ;; for_each f l'
  end.

(** Lines 11-13. *)
Definition log_err {A} (n : nat) (s : string) : M A :=
  let s := "line " +:+ str n +:+ ": " +:+ s in
  raise (RuntimeError s).

(** [log_err(line_number, s)], as every call site writes it. *)
Definition err {A} (s : string) : M A :=
  n ← gets line_number; log_err n s.

(** [int(s)] as a statement: the [ValueError] escapes. *)
Definition to_int (s : string) : M Z :=
  match int s with
  | Some z => mret z
  | None => raise (ValueError s)
  end.

(** ** The rule tables (lines 42-67) *)

Definition allowed_comp_types : list string :=
  ["A"; "D"; "F"; "G"; "O"; "P"; "W"; "N"; "U"].

Definition allowed_linkage_types : list string := ["yes"; "no"].

Definition allowed_gap_types : list string :=
  ["scaffold"; "contig"; "centromere"; "short_arm"; "heterochromatin";
   "telomere"; "repeat"; "contamination"].

Definition allowed_evidence_types : list string :=
  ["na"; "paired-ends"; "align_genus"; "align_xgenus"; "align_trnscpt";
   "within_clone"; "clone_contig"; "map"; "pcr"; "proximity_ligation";
   "strobe"; "unspecified"].

(** The object part of a body line (lines 92-94). *)
Record object_part := ObjectPart {
  obj : string;
  obj_beg : Z;
  obj_end : Z;
  pid : Z
}.

Definition obj_len (o : object_part) : Z := obj_end o - (obj_beg o - 1).

(** ** The loop body of [main] *)

Section Main.

(** [fai.fetch(cid)]: the sequence stored under [cid], or [None] when the
    collaborator raises (pysam: no such reference). *)
Variable fetch : string → option string.

(** [reverse_complement(seq)] of ragoo2_utilities. *)
Variable reverse_complement : string → string.

Definition fai_fetch (cid : string) : M string :=
  match fetch cid with
  | Some s => mret s
  | None => raise (KeyError cid)
  end.

(** Lines 80-89: the fields of a body line. *)
Definition read_fields (line : string) : M (list string) :=
  modify (set_past_comments true) ;;
  let fields := split tab (rstrip line) in
  when (negb (bool_decide (length fields = 9%nat)))
    (err "lines should have 9 tab delimited fields") ;;
  when (negb (forallb (λ f, negb (is_empty f)) fields))
    (err "detected empty field") ;;
  mret fields.

(** Lines 92-100: the object coordinates and the part number. *)
Definition parse_object (fields : list string) : M object_part :=
  let obj := fields !!! 0%nat in
  obj_beg ← to_int (fields !!! 1%nat);
  obj_end ← to_int (fields !!! 2%nat);
  pid ← to_int (fields !!! 3%nat);
  when ((obj_beg <? 1) || (obj_end <? 1))
    (err "object coordinates should be 1-indexed and positive") ;;
  when (obj_beg >? obj_end)
    (err "beginning object coordinate should be <= the end coordinate") ;;
  mret (ObjectPart obj obj_beg obj_end pid).

(** Lines 103-129: the transition to a new object identifier. *)
Definition object_transition (o : object_part) : M unit :=
  cur ← gets curr_obj;
  when (bool_decide (Some (obj o) ≠ cur))
    (when (negb (obj_beg o =? 1))
       (err "all objects should start with '1'") ;;
     seen ← gets seen_objs;
     when (bool_decide (obj o ∈ seen))
       (err "object identifier out of order") ;;
     first ← gets is_first;
     when (negb first)
       (intervals ← gets curr_obj_intervals;
        when (negb (is_covered intervals))
          (err ("some positions in " +:+ default "None" cur +:+
                " are not accounted for or overlap"))) ;;
     let header := ">" +:+ obj o +:+ nl in
     let header := if negb first then nl +:+ header else header in
     modify (stdout_write (Header (obj o) header)) ;;
     modify (new_object (obj o))).

(** Lines 80-129: a body line up to and including the transition. *)
Definition enter_object (line : string) : M (list string * object_part) :=
  fields ← read_fields line;
  o ← parse_object fields;
  object_transition o ;;
  mret (fields, o).

(** Lines 131-135: part numbers, and the interval of the record. *)
Definition part_check (o : object_part) : M unit :=
  prev ← gets prev_pid;
  when (negb (pid o - prev =? 1)) (err "non-sequential part_numbers") ;;
  modify (record_part (pid o) (obj_beg o - 1, obj_end o)).

(** Lines 138-140. *)
Definition check_comp_type (fields : list string) : M string :=
  let comp_type := fields !!! 4%nat in
  when (negb (bool_decide (comp_type ∈ allowed_comp_types)))
    (err ("invalid component type: " +:+ comp_type)) ;;
  mret comp_type.

(** Lines 156-161: the sequence of a component, by orientation. *)
Definition write_component (cid orientation : string) : M unit :=
  if bool_decide (orientation ∈ ["+"; "?"; "0"; "na"]) then
    s ← fai_fetch cid; modify (stdout_write (Sequence s))
  else if bool_decide (orientation = "-") then
    s ← fai_fetch cid;
    modify (stdout_write (Sequence (reverse_complement s)))
  else err "invalid orientation".

(** Lines 144-161: a sequence component; returns [comp_len]. *)
Definition component (fields : list string) : M Z :=
  let cid := fields !!! 5%nat in
  comp_beg ← to_int (fields !!! 6%nat);
  comp_end ← to_int (fields !!! 7%nat);
  when ((comp_beg <? 1) || (comp_end <? 1))
    (err "component coordinates should be 1-indexed and positive") ;;
  when (comp_beg >? comp_end)
    (err "beginning component coordinate should be less than or equal to the end coordinate") ;;
  let comp_len := comp_end - (comp_beg - 1) in
  let orientation := fields !!! 8%nat in
  write_component cid orientation ;;
  mret comp_len.

(** Lines 164-186: a gap component; returns [comp_len]. *)
Definition gap (comp_type : string) (fields : list string) : M Z :=
  comp_len ← to_int (fields !!! 5%nat);
  let gap_type := fields !!! 6%nat in
  let linkage := fields !!! 7%nat in
  let evidence := fields !!! 8%nat in
  when (negb (bool_decide (gap_type ∈ allowed_gap_types)))
    (err "invalid gap type") ;;
  when (negb (bool_decide (linkage ∈ allowed_linkage_types)))
    (err "invalid linkage field") ;;
  when (comp_len <? 1) (err "gap length must be >0") ;;
  when (bool_decide (comp_type = "U") && negb (comp_len =? 100))
    (err "gaps of type 'U' must be 100 bp") ;;
  let all_evidence := split ";"%char evidence in
  for_each
    (λ e, when (negb (bool_decide (e ∈ allowed_evidence_types)))
            (err "invalid linkage evidence"))
    all_evidence ;;
  modify (stdout_write (Sequence (string_repeat "N"%char comp_len))) ;;
  mret comp_len.

(** Lines 189-190. *)
Definition length_check (comp_len : Z) (o : object_part) : M unit :=
  when (negb (comp_len =? obj_len o))
    (err "object and component coordinates have inconsistent lengths").

(** Lines 80-190: one body line. *)
Definition process_body (line : string) : M unit :=
  '(fields, o) ← enter_object line;
  part_check o ;;
  comp_type ← check_comp_type fields;
  comp_len ←
    (if negb (bool_decide (comp_type = "N")) &&
        negb (bool_decide (comp_type = "U"))
     then component fields
     else gap comp_type fields);
  length_check comp_len o.

(** Lines 72-190: one line of the AGP file. *)
Definition process_line (line : string) : M unit :=
  modify next_line ;;
  if startswith "#" line then
    past ← gets past_comments;
    when past (err "illegal comment in AGP body")
  else process_body line.

(** Lines 70-192: the lines of the file, then the final newline. *)
Definition main (lines : list string) : M unit :=
  for_each process_line lines ;;
  modify (stdout_write (Final nl)).

Definition run (lines : list string) : state * outcome unit :=
  main lines initial_state.

End Main.

(** ** Sample collaborators and inputs *)

(** A component file with three entries. *)
Definition sample_fetch (cid : string) : option string :=
  if bool_decide (cid = "ctg1") then Some "ACGTACGTAC"
  else if bool_decide (cid = "ctg2") then Some "AACCGGTTAA"
  else if bool_decide (cid = "ctg3") then Some "GGGGGCCCCC"
  else if bool_decide (cid = "ctg4") then Some "TTTTT"
  else None.

Definition complement (c : ascii) : ascii :=
  match c with
  | "A" => "T" | "T" => "A" | "C" => "G" | "G" => "C"
  | "a" => "t" | "t" => "a" | "c" => "g" | "g" => "c"
  | _ => c
  end%char.

(** Modelled from the spec: [reverse_complement] of ragoo2_utilities is not
    part of the script; it complements each base (A<->T, C<->G, keeping the
    case, other characters passed through) and reverses the order. *)
Fixpoint sample_reverse_complement (s : string) : string :=
  match s with
  | EmptyString => EmptyString
  | String c r => sample_reverse_complement r +:+ String (complement c) EmptyString
  end.

(** A body line from its nine fields. *)
Definition agp_line (fields : list string) : string :=
  match fields with
  | [] => nl
  | f :: fs => f +:+ foldr (λ x acc, String tab x +:+ acc) nl fs
  end.

Definition sample_run := run sample_fetch sample_reverse_complement.

(** The component line of the specification's first scenario. *)
Definition scaf1_part1 : string :=
  agp_line ["scaf1"; "1"; "10"; "1"; "W"; "ctg1"; "1"; "10"; "+"].

(** The U gap of the specification's second scenario: a gap of length 100
    on an object span of 50. *)
Definition scaf1_U_gap : string :=
  agp_line ["scaf1"; "1"; "50"; "1"; "U"; "100"; "scaffold"; "yes"; "na"].

(** An object whose records are not in coordinate order, then a second
    object. *)
Definition unordered_input : list string :=
  [agp_line ["A"; "1"; "10"; "1"; "W"; "ctg1"; "1"; "10"; "+"];
   agp_line ["A"; "21"; "30"; "2"; "W"; "ctg2"; "1"; "10"; "+"];
   agp_line ["A"; "11"; "20"; "3"; "W"; "ctg3"; "1"; "10"; "-"];
   agp_line ["B"; "1"; "5"; "1"; "W"; "ctg4"; "1"; "5"; "+"]].

(** Two objects with their records in coordinate order. *)
Definition ordered_input : list string :=
  [agp_line ["A"; "1"; "10"; "1"; "W"; "ctg1"; "1"; "10"; "+"];
   agp_line ["A"; "11"; "20"; "2"; "W"; "ctg2"; "1"; "10"; "-"];
   agp_line ["A"; "21"; "25"; "3"; "N"; "5"; "scaffold"; "yes"; "paired-ends"];
   agp_line ["B"; "1"; "5"; "1"; "W"; "ctg4"; "1"; "5"; "+"]].

(** One object that leaves positions 11 to 20 out. *)
Definition gapped_input : list string :=
  [agp_line ["A"; "1"; "10"; "1"; "W"; "ctg1"; "1"; "10"; "+"];
   agp_line ["A"; "21"; "30"; "2"; "W"; "ctg2"; "1"; "10"; "+"]].

(** Object order A, A, B, A, the second block of A continuing its
    coordinates. *)
Definition reappearing_input : list string :=
  [agp_line ["A"; "1"; "10"; "1"; "W"; "ctg1"; "1"; "10"; "+"];
   agp_line ["A"; "11"; "20"; "2"; "W"; "ctg2"; "1"; "10"; "+"];
   agp_line ["B"; "1"; "10"; "1"; "W"; "ctg3"; "1"; "10"; "+"];
   agp_line ["A"; "21"; "30"; "3"; "W"; "ctg1"; "1"; "10"; "+"]].

(** Object order A, A, B, A, the second block of A starting at 1 again. *)
Definition restarting_input : list string :=
  [agp_line ["A"; "1"; "10"; "1"; "W"; "ctg1"; "1"; "10"; "+"];
   agp_line ["A"; "11"; "20"; "2"; "W"; "ctg2"; "1"; "10"; "+"];
   agp_line ["B"; "1"; "10"; "1"; "W"; "ctg3"; "1"; "10"; "+"];
   agp_line ["A"; "1"; "10"; "1"; "W"; "ctg1"; "1"; "10"; "+"]].

(** A body line whose [object_beg] is not an integer. *)
Definition bad_integer_line : string :=
  agp_line ["scaf1"; "x"; "10"; "1"; "W"; "ctg1"; "1"; "10"; "+"].

(** A first record with part number 2. *)
Definition part2_line : string :=
  agp_line ["scaf1"; "1"; "10"; "2"; "W"; "ctg1"; "1"; "10"; "+"].

(** A component of length 10 on an object span of 5. *)
Definition short_span_line : string :=
  agp_line ["scaf1"; "1"; "5"; "1"; "W"; "ctg1"; "1"; "10"; "-"].

(** A U gap of length 50 with an unknown evidence on a span of 60. *)
Definition U_gap_50 : string :=
  agp_line ["scaf1"; "1"; "60"; "1"; "U"; "50"; "scaffold"; "yes"; "bogus"].

(** A component with an orientation that does not exist. *)
Definition bad_orientation_line : string :=
  agp_line ["scaf1"; "1"; "10"; "1"; "W"; "ctg1"; "1"; "10"; "x"].

(** ** Vocabulary of the properties: intervals *)

(** The interval that a record passing the coordinate checks of lines
    96-100 contributes: [(obj_beg - 1, obj_end)] with
    [1 <= obj_beg <= obj_end]. *)
Definition accumulated_interval (i : Z * Z) : Prop := 0 ≤ i.1 < i.2.

(** The end of each interval is the start of the next. *)
Definition contiguous (s : list (Z * Z)) : Prop :=
  ∀ (j : nat) a b, s !! j = Some a → s !! S j = Some b → a.2 = b.1.

(** The same, by recursion on the list. *)
Fixpoint chain (s : list (Z * Z)) : Prop :=
  match s with
  | a :: (b :: _) as r => a.2 = b.1 ∧ chain r
  | _ => True
  end.

(** Sorted by start coordinate, in the words of the specification. *)
Definition start_le (a b : Z * Z) : Prop := a.1 ≤ b.1.
Definition sorted_by_start (s : list (Z * Z)) : Prop := Sorted start_le s.

(** The intervals of [s] that contain position [p]. *)
Definition covering (p : Z) (s : list (Z * Z)) : list (Z * Z) :=
  filter (λ i, i.1 ≤ p < i.2) s.

(** [s] tiles [lo, hi): every position of the range lies in exactly one
    interval, and no interval contains a position outside it. *)
Definition tiles_from (lo hi : Z) (s : list (Z * Z)) : Prop :=
  ∀ p, length (covering p s) = if bool_decide (lo ≤ p < hi) then 1%nat else 0%nat.

Definition tiles (s : list (Z * Z)) (object_length : Z) : Prop :=
  tiles_from 0 object_length s.

(** The length of an object: its largest end coordinate. *)
Definition max_end (s : list (Z * Z)) : Z := foldr (λ i m, Z.max i.2 m) 0 s.

(** The lengths of the intervals of [s], added up. *)
Definition total_length (s : list (Z * Z)) : Z :=
  foldr (λ i acc, (i.2 - i.1) + acc) 0 s.

(** ** Vocabulary of the properties: outcomes of monadic code *)

(** [wp m Q E st]: running [m] from [st] either returns a value and a state
    that satisfy [Q], or raises an exception that, with the state at the
    raise, satisfies [E]. The code always does one of the two. *)
Definition wp {A} (m : M A) (Q : A → state → Prop)
    (E : exception → state → Prop) (st : state) : Prop :=
  match m st with
  | (st', Ok a) => Q a st'
  | (st', Raise e) => E e st'
  end.

(** The message of [log_err n reason]. *)
Definition message (n : nat) (reason : string) : string :=
  "line " +:+ str n +:+ ": " +:+ reason.

(** An exception that carries the line number [n] and a reason. *)
Definition line_tagged (n : nat) (e : exception) : Prop :=
  ∃ reason, e = RuntimeError (message n reason).

(** The fields of a body line, as line 81 computes them. *)
Definition line_fields (line : string) : list string :=
  split tab (rstrip line).

(** [st'] continues [st] on the same line: the output has only grown and
    no object identifier was forgotten. *)
Definition continues (st st' : state) : Prop :=
  line_number st' = line_number st ∧
  seen_objs st ⊆ seen_objs st' ∧
  stdout st `prefix_of` stdout st'.

(** The text of the header of object [obj] (lines 119-121). *)
Definition header_text (first : bool) (obj : string) : string :=
  if negb first then nl +:+ (">" +:+ obj +:+ nl) else ">" +:+ obj +:+ nl.

(** The state after the transition to a new object [obj] (lines 118-129). *)
Definition entered (obj : string) (st : state) : state :=
  new_object obj
    (stdout_write (Header obj (header_text (is_first st) obj)) st).

(** The exceptions that can end the run at line [n] with fields [fields]:
    a [RuntimeError] of [log_err] that carries the line number, the
    [ValueError] of [int] on one of the integer fields, or the exception of
    the sequence collaborator. *)
Definition reported (fetch : string → option string)
    (n : nat) (fields : list string) (e : exception) : Prop :=
  line_tagged n e ∨
  (∃ i : nat, i ∈ [1; 2; 3; 5; 6; 7]%nat ∧ int (fields !!! i) = None ∧
              e = ValueError (fields !!! i)) ∨
  (e = KeyError (fields !!! 5%nat) ∧ fetch (fields !!! 5%nat) = None).

(** The reason of the last check of a body line (line 190). *)
Definition inconsistent_lengths : string :=
  "object and component coordinates have inconsistent lengths".

(** ** Vocabulary of the properties: records and accepted lines *)

(** Gap records are those of component type N or U (line 142). *)
Definition is_gap (comp_type : string) : bool :=
  bool_decide (comp_type = "N") || bool_decide (comp_type = "U").

(** The object part of a body line, read from its fields as lines 92-94
    do; [None] for a comment line and for a line with a field that is not
    an integer. *)
Definition line_object (line : string) : option object_part :=
  if startswith "#" line then None
  else
    let fields := line_fields line in
    obj_beg ← int (fields !!! 1%nat);
    obj_end ← int (fields !!! 2%nat);
    pid ← int (fields !!! 3%nat);
    Some (ObjectPart (fields !!! 0%nat) obj_beg obj_end pid).

(** The component that a sequence record names and the length that its
    coordinates declare (lines 144 and 152). *)
Definition component_of (line : string) : option (string * Z) :=
  if startswith "#" line then None
  else
    let fields := line_fields line in
    if is_gap (fields !!! 4%nat) then None
    else
      comp_beg ← int (fields !!! 6%nat);
      comp_end ← int (fields !!! 7%nat);
      Some (fields !!! 5%nat, comp_end - (comp_beg - 1)).

(** The object parts of the body lines of an input, in order. *)
Definition records (lines : list string) : list object_part :=
  omap line_object lines.

(** The records of object [o]. *)
Definition records_of (o : string) (rs : list object_part) : list object_part :=
  filter (λ r, obj r = o) rs.

Definition interval (r : object_part) : Z * Z := (obj_beg r - 1, obj_end r).

Section StepVocabulary.

Context (fetch : string → option string) (reverse_complement : string → string).

(** [text] is what an accepted body line with object part [o] writes. *)
Definition record_text (line : string) (o : object_part) (text : string) : Prop :=
  let fields := line_fields line in
  if is_gap (fields !!! 4%nat) then
    int (fields !!! 5%nat) = Some (obj_len o) ∧
    text = string_repeat "N"%char (obj_len o)
  else
    ∃ s, component_of line = Some (fields !!! 5%nat, obj_len o) ∧
         fetch (fields !!! 5%nat) = Some s ∧
         ((fields !!! 8%nat ∈ ["+"; "?"; "0"; "na"] ∧ text = s) ∨
          (fields !!! 8%nat = "-" ∧ text = reverse_complement s)).

(** [st'] is the state in which an accepted line leaves [st]. *)
Definition accepted_step (line : string) (st st' : state) : Prop :=
  match line_object line with
  | None =>
      startswith "#" line = true ∧ past_comments st = false ∧ st' = next_line st
  | Some o =>
      let st0 := set_past_comments true (next_line st) in
      let st1 :=
        if decide (curr_obj st = Some (obj o)) then st0 else entered (obj o) st0 in
      startswith "#" line = false ∧
      1 ≤ obj_beg o ≤ obj_end o ∧
      (curr_obj st ≠ Some (obj o) →
         obj_beg o = 1 ∧ (obj o ∉ seen_objs st) ∧
         (is_first st = false → is_covered (curr_obj_intervals st) = true)) ∧
      pid o - prev_pid st1 = 1 ∧
      ∃ text, record_text line o text ∧
        st' = stdout_write (Sequence text) (record_part (pid o) (interval o) st1)
  end.

(** The collaborators return, for the component of a record, a sequence of
    the length that the record declares. *)
Definition collaborator_ok (lines : list string) : Prop :=
  ∀ line cid len s,
    line ∈ lines → component_of line = Some (cid, len) → fetch cid = Some s →
    Z.of_nat (String.length s) = len ∧
    String.length (reverse_complement s) = String.length s.

(** The lines [lines] are accepted and leave the loop in state [st]. *)
Definition accepts (lines : list string) (st : state) : Prop :=
  for_each (process_line fetch reverse_complement) lines initial_state
  = (st, Ok tt).

End StepVocabulary.

(** ** Vocabulary of the properties: whole runs *)

(** An identifier that was left behind does not come back. *)
Definition never_reappears (objs : list string) : Prop :=
  ∀ l1 o l2 o' l3, objs = l1 ++ o :: l2 ++ o' :: l3 → o' ≠ o → o ∉ l3.

(** The part numbers 1, 2, ..., n. *)
Definition part_numbers (n : nat) : list Z := Z.of_nat <$> seq 1 n.

(** The sum of the spans [obj_end - obj_beg + 1] of a list of records. *)
Definition span_sum (rs : list object_part) : Z :=
  foldr (λ r acc, obj_len r + acc) 0 rs.

(** The largest [object_end] among the records [rs] of an object, and the
    [object_end] of the last of them. *)
Definition largest_object_end (rs : list object_part) : Z :=
  max_end (interval <$> rs).

Definition final_object_end (rs : list object_part) : option Z :=
  obj_end <$> last rs.

(** The object whose header was written last. *)
Definition last_header_from (cur : option string) (ws : list write) : option string :=
  foldl (λ c w, match w with Header o _ => Some o | _ => c end) cur ws.

Definition last_header (ws : list write) : option string :=
  last_header_from None ws.

(** The sequence text written for object [o]: what the [Sequence] writes
    that follow a header of [o], up to the next header, add up to. *)
Fixpoint object_text_from (o : string) (cur : option string) (ws : list write) : string :=
  match ws with
  | [] => EmptyString
  | Header o' _ :: ws' => object_text_from o (Some o') ws'
  | Sequence text :: ws' =>
      (if decide (cur = Some o) then text else EmptyString)
      +:+ object_text_from o cur ws'
  | Final _ :: ws' => object_text_from o cur ws'
  end.

Definition object_text (o : string) (st : state) : string :=
  object_text_from o None (stdout st).

(** What relates the state of the loop to the records read so far. *)
Record run_invariant (rs : list object_part) (st : state) : Prop := {
  inv_seen : seen_objs st = list_to_set (obj <$> rs);
  inv_curr : curr_obj st = last (obj <$> rs);
  inv_first : is_first st = true ↔ rs = [];
  inv_intervals : ∀ o, curr_obj st = Some o →
    curr_obj_intervals st = interval <$> records_of o rs;
  inv_no_object : curr_obj st = None → curr_obj_intervals st = [];
  inv_prev_pid : ∀ o, curr_obj st = Some o →
    prev_pid st = Z.of_nat (length (records_of o rs));
  inv_coords : Forall (λ r, 1 ≤ obj_beg r ≤ obj_end r) rs;
  inv_start : ∀ o r rest, records_of o rs = r :: rest → obj_beg r = 1;
  inv_covered : ∀ o, curr_obj st ≠ Some o →
    is_covered (interval <$> records_of o rs) = true;
  inv_pids : ∀ o,
    pid <$> records_of o rs = part_numbers (length (records_of o rs));
  inv_blocks : never_reappears (obj <$> rs)
}.


(** ** Vocabulary of the properties: well-formed lines and the output *)

Section LineVocabulary.

Context (fetch : string → option string) (reverse_complement : string → string).

(** The rules that lines 84-100 and 138-190 check on one body line, with
    the object part [o] that the line declares and the [text] that it
    writes. *)
Definition valid_line (line : string) (o : object_part) (text : string) : Prop :=
  let fields := line_fields line in
  startswith "#" line = false ∧
  length fields = 9%nat ∧ Forall (λ f, f ≠ EmptyString) fields ∧
  line_object line = Some o ∧ 1 ≤ obj_beg o ≤ obj_end o ∧
  fields !!! 4%nat ∈ allowed_comp_types ∧
  if is_gap (fields !!! 4%nat) then
    int (fields !!! 5%nat) = Some (obj_len o) ∧
    fields !!! 6%nat ∈ allowed_gap_types ∧
    fields !!! 7%nat ∈ allowed_linkage_types ∧
    (fields !!! 4%nat = "U" → obj_len o = 100) ∧
    Forall (λ e, e ∈ allowed_evidence_types) (split ";"%char (fields !!! 8%nat)) ∧
    text = string_repeat "N"%char (obj_len o)
  else
    ∃ comp_beg comp_end s,
      int (fields !!! 6%nat) = Some comp_beg ∧
      int (fields !!! 7%nat) = Some comp_end ∧
      1 ≤ comp_beg ≤ comp_end ∧ comp_end - (comp_beg - 1) = obj_len o ∧
      fetch (fields !!! 5%nat) = Some s ∧
      ((fields !!! 8%nat ∈ ["+"; "?"; "0"; "na"] ∧ text = s) ∨
       (fields !!! 8%nat = "-" ∧ text = reverse_complement s)).

(** The state in which a valid line with object part [o] and text [text]
    leaves [st]. *)
Definition after_record (o : object_part) (text : string) (st : state) : state :=
  let st0 := set_past_comments true (next_line st) in
  stdout_write (Sequence text)
    (record_part (pid o) (interval o)
       (if decide (curr_obj st = Some (obj o)) then st0
        else entered (obj o) st0)).

(** What the state must allow for a record of object part [o]: either [o]
    continues the current object, or it starts, at position 1, an object
    that was not seen, the previous object (if any) being covered; and the
    part number follows. *)
Definition state_allows (st : state) (o : object_part) : Prop :=
  if decide (curr_obj st = Some (obj o)) then pid o - prev_pid st = 1
  else obj_beg o = 1 ∧ (obj o ∉ seen_objs st) ∧
       (is_first st = false → is_covered (curr_obj_intervals st) = true) ∧
       pid o = 1.

(** The inputs that the rules of the program describe: comment lines,
    then body lines that are valid one by one; the records of an object
    are next to each other; the first record of an object starts at
    position 1; the part numbers of an object count from 1; and the
    intervals of every object but the last one of the input pass
    [is_covered]. *)
Definition well_formed_input (lines : list string) : Prop :=
  (∃ comments body,
     lines = comments ++ body ∧
     Forall (λ line, startswith "#" line = true) comments ∧
     Forall (λ line, ∃ o text, valid_line line o text) body) ∧
  never_reappears (obj <$> records lines) ∧
  ∀ o,
    (∀ r rest, records_of o (records lines) = r :: rest → obj_beg r = 1) ∧
    pid <$> records_of o (records lines)
    = part_numbers (length (records_of o (records lines))) ∧
    (last (obj <$> records lines) ≠ Some o →
     is_covered (interval <$> records_of o (records lines)) = true).

(** The sequence that a body line stands for: a run of N for a gap, the
    sequence of the component, reverse-complemented for orientation -,
    otherwise. *)
Definition record_sequence (line : string) : string :=
  let fields := line_fields line in
  if is_gap (fields !!! 4%nat) then
    string_repeat "N"%char (default 0 (int (fields !!! 5%nat)))
  else
    let s := default EmptyString (fetch (fields !!! 5%nat)) in
    if decide (fields !!! 8%nat = "-") then reverse_complement s else s.

(** The sequences of the lines of object [o], one after the other. *)
Definition object_sequence (o : string) (lines : list string) : string :=
  foldr
    (λ line acc,
       match line_object line with
       | Some r => if decide (obj r = o) then record_sequence line +:+ acc
                   else acc
       | None => acc
       end)
    EmptyString lines.

End LineVocabulary.

(** The object identifiers of a list of records, in the order in which
    they first appear. *)
Definition object_ids (rs : list object_part) : list string :=
  foldl (λ ids r, if decide (obj r ∈ ids) then ids else ids ++ [obj r]) [] rs.

(** The FASTA text of the objects [ids]: for each a header line and the
    sequence text [text o]; the header of every object but the first
    begins with the line end of the sequence before it. *)
Fixpoint fasta_blocks (first : bool) (text : string → string)
    (ids : list string) : string :=
  match ids with
  | [] => EmptyString
  | o :: ids' =>
      header_text first o +:+ text o +:+ fasta_blocks false text ids'
  end.

(** The last character of a string, if any. *)
Fixpoint last_char (s : string) : option ascii :=
  match s with
  | EmptyString => None
  | String c EmptyString => Some c
  | String _ r => last_char r
  end.

(** The FASTA file that an AGP input describes: its objects in the order
    in which they first appear, each with its header line and then its
    sequence on one line. The line end of a sequence line is the one that
    starts the next header (lines 120-121) or the final one (line 192). *)
Definition fasta (fetch : string → option string)
    (reverse_complement : string → string) (lines : list string) : string :=
  fasta_blocks true (λ o, object_sequence fetch reverse_complement o lines)
    (object_ids (records lines))
  +:+ nl.

(** * Properties *)

(** ** The coverage check *)

Section Coverage.

Implicit Types (s t : list (Z * Z)) (a b : Z * Z).

Global Instance tuple_le_trans : Transitive tuple_le.
Proof. intros [] [] []; unfold tuple_le; simpl; lia. Qed.

Global Instance tuple_le_antisymm : AntiSymm (=) tuple_le.
Proof.
  intros [a1 a2] [b1 b2]; unfold tuple_le; simpl; intros ? ?.
  f_equal; lia.
Qed.

Global Instance tuple_le_total : Total tuple_le.
Proof. intros [] []; unfold tuple_le; simpl; lia. Qed.

Lemma sorted_Sorted s : Sorted tuple_le (sorted s).
Proof. apply Sorted_merge_sort, _. Qed.

Lemma sorted_Permutation s : sorted s ≡ₚ s.
Proof. apply merge_sort_Permutation. Qed.

Lemma sorted_unique s t : Sorted tuple_le t → t ≡ₚ s → sorted s = t.
Proof.
  intros Ht Hp. apply (Sorted_unique tuple_le); auto using sorted_Sorted.
  by rewrite sorted_Permutation.
Qed.

(** The loop of [is_covered] checks the adjacent pairs of its argument. *)
Lemma is_covered_loop_range s (lo n : nat) :
  is_covered_loop s (seq lo n) = true ↔
  ∀ j : nat, (lo ≤ j < lo + n)%nat → (s !!! (j - 1)%nat).2 = (s !!! j).1.
Proof.
  revert lo; induction n as [|n IH]; intros lo; simpl.
  - split; [intros _ j; lia | done].
  - case_bool_decide as Hj.
    + split; [done | intros H; destruct Hj; apply H; lia].
    + rewrite IH. split.
      * intros H j ?. destruct (decide (j = lo)) as [->|]; [done|].
        apply H; lia.
      * intros H j ?. apply H; lia.
Qed.

Lemma contiguous_chain s : contiguous s ↔ chain s.
Proof.
  induction s as [|a [|b r] IH]; simpl.
  - split; [done | intros _ j ? ? H; by rewrite lookup_nil in H].
  - split; [done | intros _ [|j] ? ? _ H; by rewrite ?lookup_nil in H].
  - rewrite <- IH. split.
    + intros H; split; [by apply (H 0%nat) |].
      intros j x y Hx Hy. by apply (H (S j)).
    + intros [Hab H] [|j] x y Hx Hy; simplify_eq/=; [done |].
      by apply (H j).
Qed.

Lemma is_covered_loop_contiguous s :
  is_covered_loop s (seq 1 (length s - 1)) = true ↔ contiguous s.
Proof.
  rewrite is_covered_loop_range. split.
  - intros H j a b Ha Hb.
    assert (S j < length s)%nat by (by eapply lookup_lt_Some).
    specialize (H (S j)). replace (S j - 1)%nat with j in H by lia.
    rewrite (list_lookup_total_correct _ _ _ Ha) in H.
    rewrite (list_lookup_total_correct _ _ _ Hb) in H.
    apply H; lia.
  - intros H [|j] ?; [lia |]. replace (S j - 1)%nat with j by lia.
    destruct (lookup_lt_is_Some_2 s j) as [a Ha]; [lia |].
    destruct (lookup_lt_is_Some_2 s (S j)) as [b Hb]; [lia |].
    rewrite (list_lookup_total_correct _ _ _ Ha).
    rewrite (list_lookup_total_correct _ _ _ Hb). eauto.
Qed.

Lemma is_covered_chain s : is_covered s = true ↔ chain (sorted s).
Proof.
  unfold is_covered; simpl.
  by rewrite is_covered_loop_contiguous, contiguous_chain.
Qed.

(** A chain of non-empty intervals has strictly increasing starts. *)
Lemma chain_Sorted_lt s :
  Forall accumulated_interval s → chain s →
  Sorted (λ a b, a.1 < b.1) s.
Proof.
  induction s as [|a [|b r] IH]; intros Hwf Hc.
  - constructor.
  - repeat constructor.
  - destruct Hc as [Hab Hc]. inversion Hwf as [|? ? Ha Hwf']; subst.
    constructor; [by apply IH |]. constructor.
    unfold accumulated_interval in Ha. lia.
Qed.

Lemma Sorted_lt_tuple_le s :
  Sorted (λ a b, a.1 < b.1) s → Sorted tuple_le s.
Proof.
  induction 1 as [|a s Hs IH Hhd]; constructor; [done |].
  destruct Hhd; constructor. unfold tuple_le. lia.
Qed.

Lemma Sorted_lt_start_le s :
  Sorted (λ a b, a.1 < b.1) s → StronglySorted start_le s.
Proof.
  intros H. apply Sorted_StronglySorted.
  { intros ? ? ?; unfold start_le; lia. }
  induction H as [|a s Hs IH Hhd]; constructor; [done |].
  destruct Hhd; constructor. unfold start_le. lia.
Qed.

(** With strictly increasing starts, the start identifies the interval. *)
Lemma Sorted_lt_start_inj s a b :
  Sorted (λ a b, a.1 < b.1) s → a ∈ s → b ∈ s → a.1 = b.1 → a = b.
Proof.
  intros H. apply Sorted_StronglySorted in H;
    [| intros ? ? ?; lia].
  induction H as [|c s Hs IH Hall]; intros Ha Hb Heq.
  - by apply elem_of_nil in Ha.
  - rewrite Forall_forall in Hall.
    apply elem_of_cons in Ha as [->|Ha]; apply elem_of_cons in Hb as [->|Hb];
      auto.
    + specialize (Hall _ Hb). lia.
    + specialize (Hall _ Ha). lia.
Qed.

Lemma chain_sorted_id s :
  Forall accumulated_interval s → chain s → sorted s = s.
Proof.
  intros Hwf Hc. apply sorted_unique; [| done].
  by apply Sorted_lt_tuple_le, chain_Sorted_lt.
Qed.

(** Sorting by start alone gives the list that [sorted] gives, once the
    check passes on either. *)
Lemma start_sorted_unique s t :
  Sorted (λ a b, a.1 < b.1) t → t ≡ₚ s → sorted_by_start s → s = t.
Proof.
  intros Ht Hp Hs.
  apply (StronglySorted_unique_strong start_le); [| | | done].
  - intros x1 x2 Hx1 Hx2 H12 H21. rewrite <- Hp in Hx1.
    apply (Sorted_lt_start_inj t); auto. unfold start_le in *. lia.
  - apply Sorted_StronglySorted; [| done].
    intros ? ? ?; unfold start_le; lia.
  - by apply Sorted_lt_start_le.
Qed.

Lemma is_covered_start_sorted s s' :
  Forall accumulated_interval s → s' ≡ₚ s → sorted_by_start s' →
  is_covered s = true ↔ contiguous s'.
Proof.
  intros Hwf Hp Hs'.
  assert (Forall accumulated_interval s') as Hwf' by (by rewrite Hp).
  rewrite contiguous_chain, is_covered_chain. split.
  - intros Hc.
    assert (Forall accumulated_interval (sorted s)) as Hwfs
      by (by rewrite sorted_Permutation).
    pose proof (chain_Sorted_lt _ Hwfs Hc) as Hlt.
    rewrite (start_sorted_unique s' (sorted s)); auto.
    by rewrite sorted_Permutation.
  - intros Hc.
    rewrite (sorted_unique s s'); auto.
    by apply Sorted_lt_tuple_le, chain_Sorted_lt.
Qed.

(** *** Tiling *)

Lemma covering_cons p a s :
  covering p (a :: s) =
  if decide (a.1 ≤ p < a.2) then a :: covering p s else covering p s.
Proof. unfold covering. by rewrite filter_cons. Qed.

Lemma covering_Permutation p s t :
  s ≡ₚ t → length (covering p s) = length (covering p t).
Proof. intros H. unfold covering. by rewrite H. Qed.

Lemma tiles_from_Permutation lo hi s t :
  s ≡ₚ t → tiles_from lo hi s ↔ tiles_from lo hi t.
Proof.
  intros H. unfold tiles_from.
  split; intros Ht p; specialize (Ht p);
    by rewrite (covering_Permutation p _ _ H) in *.
Qed.

Lemma max_end_Permutation s t : s ≡ₚ t → max_end s = max_end t.
Proof.
  induction 1; simpl; lia.
Qed.

(** A chain of non-empty intervals tiles the range from its first start to
    its largest end. *)
Lemma chain_tiles a s :
  Forall accumulated_interval (a :: s) → chain (a :: s) →
  tiles_from a.1 (max_end (a :: s)) (a :: s) ∧ a.2 ≤ max_end (a :: s).
Proof.
  revert a; induction s as [|b r IH]; intros a Hwf Hc.
  - inversion Hwf as [|? ? Ha _]; subst. unfold accumulated_interval in Ha.
    simpl. split; [| lia]. intros p. rewrite covering_cons.
    replace (Z.max a.2 0) with a.2 by lia.
    destruct (decide (a.1 ≤ p < a.2)); case_bool_decide;
      cbn [length covering filter]; try done; lia.
  - destruct Hc as [Hab Hc].
    inversion Hwf as [|? ? Ha Hwf']; subst.
    destruct (IH b Hwf' Hc) as [Ht Hb].
    inversion Hwf' as [|? ? Hb' _]; subst.
    unfold accumulated_interval in Ha, Hb'.
    change (max_end (a :: b :: r)) with (Z.max a.2 (max_end (b :: r))).
    replace (Z.max a.2 (max_end (b :: r))) with (max_end (b :: r)) by lia.
    split; [| lia]. intros p. rewrite covering_cons. specialize (Ht p).
    destruct (decide (a.1 ≤ p < a.2)); cbn [length]; rewrite Ht;
      repeat case_bool_decide; try done; lia.
Qed.

(** The first interval of a sorted list has the least start. *)
Lemma Sorted_head_start a s b :
  Sorted tuple_le (a :: s) → b ∈ a :: s → a.1 ≤ b.1.
Proof.
  intros H%(Sorted_StronglySorted _) Hb.
  apply elem_of_cons in Hb as [->|Hb]; [lia |].
  apply StronglySorted_inv in H as [_ H].
  rewrite Forall_forall in H. specialize (H _ Hb).
  unfold tuple_le in H. lia.
Qed.

(** A sorted list of non-empty intervals that tiles a range is a chain
    that starts where the range starts. *)
Lemma tiles_chain lo hi s :
  Sorted tuple_le s → Forall (λ i, i.1 < i.2) s → tiles_from lo hi s →
  chain s ∧ match s with a :: _ => a.1 = lo | [] => True end.
Proof.
  revert lo; induction s as [|a r IH]; intros lo Hs Hne Ht; [done |].
  inversion Hne as [|? ? Ha Hne']; subst; simpl in Ha.
  assert (lo ≤ a.1 < hi) as Hlo.
  { specialize (Ht a.1). rewrite covering_cons in Ht.
    rewrite decide_True in Ht by lia. cbn [length] in Ht.
    case_bool_decide; [done | lia]. }
  assert (a.1 = lo) as Hstart.
  { pose proof (Ht lo) as H. rewrite bool_decide_true in H by lia.
    destruct (covering lo (a :: r)) as [|c cs] eqn:Hcov; [done |].
    assert (c ∈ covering lo (a :: r)) as Hc by (rewrite Hcov; left).
    apply list_elem_of_filter in Hc as [Hc1 Hc2].
    pose proof (Sorted_head_start _ _ _ Hs Hc2). lia. }
  assert (a.2 ≤ hi) as Hhi.
  { specialize (Ht (a.2 - 1)). rewrite covering_cons in Ht.
    rewrite decide_True in Ht by lia. cbn [length] in Ht.
    case_bool_decide; [lia | done]. }
  assert (tiles_from a.2 hi r) as Hr.
  { intros p. specialize (Ht p). rewrite covering_cons in Ht.
    destruct (decide (a.1 ≤ p < a.2)); cbn [length] in Ht;
      repeat case_bool_decide; try lia. }
  apply Sorted_inv in Hs as [Hs _].
  destruct (IH a.2 Hs Hne' Hr) as [Hc Hhd].
  split; [| done]. destruct r; simpl; auto.
Qed.

Lemma accumulated_nonempty s :
  Forall accumulated_interval s → Forall (λ i, i.1 < i.2) s.
Proof.
  intros H. eapply Forall_impl; [exact H |].
  unfold accumulated_interval. intros; lia.
Qed.

(** The coverage check on intervals of which one starts at 0. *)
Lemma is_covered_tiles s e :
  Forall accumulated_interval s → (0, e) ∈ s →
  is_covered s = true ↔ tiles s (max_end s).
Proof.
  intros Hwf Hin. rewrite is_covered_chain.
  pose proof (sorted_Permutation s) as Hp.
  pose proof (sorted_Sorted s) as Hs.
  assert (Forall accumulated_interval (sorted s)) as Hwf' by (by rewrite Hp).
  unfold tiles. rewrite <- (tiles_from_Permutation _ _ _ _ Hp).
  rewrite <- (max_end_Permutation _ _ Hp).
  rewrite <- Hp in Hin. split.
  - intros Hc. destruct (sorted s) as [|a t] eqn:Ht.
    { by apply elem_of_nil in Hin. }
    assert (a.1 = 0) as <-.
    { pose proof (Sorted_head_start _ _ _ Hs Hin) as H. simpl in H.
      inversion Hwf' as [|? ? Ha _]. unfold accumulated_interval in Ha. lia. }
    by apply chain_tiles.
  - intros Ht. by eapply tiles_chain, Ht; [| apply accumulated_nonempty].
Qed.

(** *** Lengths *)

Lemma total_length_Permutation s t : s ≡ₚ t → total_length s = total_length t.
Proof. induction 1; simpl; lia. Qed.

Lemma chain_total_length a s :
  Forall accumulated_interval (a :: s) → chain (a :: s) →
  total_length (a :: s) = max_end (a :: s) - a.1 ∧ a.2 ≤ max_end (a :: s).
Proof.
  revert a; induction s as [|b r IH]; intros a Hwf Hc.
  - inversion Hwf as [|? ? Ha _]; subst. unfold accumulated_interval in Ha.
    simpl. lia.
  - destruct Hc as [Hab Hc].
    inversion Hwf as [|? ? Ha Hwf']; subst.
    destruct (IH b Hwf' Hc) as [Ht Hb].
    inversion Hwf' as [|? ? Hb' _]; subst.
    unfold accumulated_interval in Ha, Hb'.
    change (max_end (a :: b :: r)) with (Z.max a.2 (max_end (b :: r))).
    change (total_length (a :: b :: r))
      with (a.2 - a.1 + total_length (b :: r)).
    rewrite Ht. lia.
Qed.

Lemma chain_last_end s b :
  Forall accumulated_interval s → chain s → last s = Some b →
  max_end s = b.2.
Proof.
  induction s as [|a [|c r] IH]; intros Hwf Hc Hlast; [done | |].
  - simpl in *. simplify_eq. inversion Hwf as [|? ? Ha _]; subst.
    unfold accumulated_interval in Ha. lia.
  - destruct Hc as [Hac Hc]. inversion Hwf as [|? ? Ha Hwf']; subst.
    rewrite last_cons_cons in Hlast. specialize (IH Hwf' Hc Hlast).
    change (max_end (a :: c :: r)) with (Z.max a.2 (max_end (c :: r))).
    destruct (chain_total_length c r Hwf' Hc) as [_ Hle].
    inversion Hwf' as [|? ? Hc' _]; subst.
    unfold accumulated_interval in Hc'. lia.
Qed.

(** When the check passes on intervals of which one starts at 0, their
    lengths add up to the largest end. *)
Lemma is_covered_total_length s e :
  Forall accumulated_interval s → (0, e) ∈ s → is_covered s = true →
  total_length s = max_end s.
Proof.
  intros Hwf Hin Hc%is_covered_chain.
  pose proof (sorted_Permutation s) as Hp.
  pose proof (sorted_Sorted s) as Hs.
  rewrite <- (total_length_Permutation _ _ Hp), <- (max_end_Permutation _ _ Hp).
  rewrite <- Hp in Hwf, Hin.
  destruct (sorted s) as [|a t]; [by apply elem_of_nil in Hin |].
  destruct (chain_total_length a t Hwf Hc) as [-> _].
  pose proof (Sorted_head_start _ _ _ Hs Hin) as H. simpl in H.
  inversion Hwf as [|? ? Ha _]. unfold accumulated_interval in Ha. lia.
Qed.

End Coverage.

(** ** Rules for [wp] *)

Section WpRules.

Context {A B : Type}.
Implicit Types (Q : A → state → Prop) (E : exception → state → Prop).

Lemma wp_Ok (m : M A) Q E st st' a :
  wp m Q E st → m st = (st', Ok a) → Q a st'.
Proof. unfold wp. intros H Heq. by rewrite Heq in H. Qed.

Lemma wp_Raise (m : M A) Q E st st' e :
  wp m Q E st → m st = (st', Raise e) → E e st'.
Proof. unfold wp. intros H Heq. by rewrite Heq in H. Qed.

Lemma wp_mono (m : M A) Q Q' E E' st :
  wp m Q E st →
  (∀ a st', Q a st' → Q' a st') → (∀ e st', E e st' → E' e st') →
  wp m Q' E' st.
Proof. unfold wp. destruct (m st) as [st' [a|e]]; eauto. Qed.

Lemma wp_conj (m : M A) Q Q' E E' st :
  wp m Q E st → wp m Q' E' st →
  wp m (λ a st', Q a st' ∧ Q' a st') (λ e st', E e st' ∧ E' e st') st.
Proof. unfold wp. destruct (m st) as [st' [a|e]]; eauto. Qed.

Lemma wp_eq (m : M A) st :
  wp m (λ a st', m st = (st', Ok a)) (λ e st', m st = (st', Raise e)) st.
Proof. unfold wp. by destruct (m st) as [st' [a|e]]. Qed.

Lemma wp_ret (a : A) Q E st : Q a st → wp (mret a) Q E st.
Proof. done. Qed.

Lemma wp_bind (m : M A) (f : A → M B) (Q : B → state → Prop) E st :
  wp m (λ a st', wp (f a) Q E st') E st → wp (m ≫= f) Q E st.
Proof.
  unfold wp, mbind, M_bind. by destruct (m st) as [st' [a|e]].
Qed.

Lemma wp_gets (f : state → A) Q E st : Q (f st) st → wp (gets f) Q E st.
Proof. done. Qed.

Lemma wp_raise (e : exception) Q E st : E e st → wp (raise e) Q E st.
Proof. done. Qed.

Lemma wp_err (s : string) Q E st :
  E (RuntimeError (message (line_number st) s)) st → wp (err s) Q E st.
Proof. done. Qed.

End WpRules.

Lemma wp_modify (f : state → state) Q E st :
  Q tt (f st) → wp (modify f) Q E st.
Proof. done. Qed.

Lemma wp_when (b : bool) (m : M unit) Q E st :
  (if b then wp m Q E st else Q tt st) → wp (when b m) Q E st.
Proof. by destruct b. Qed.

Lemma wp_to_int (s : string) Q E st :
  match int s with
  | Some z => Q z st
  | None => E (ValueError s) st
  end → wp (to_int s) Q E st.
Proof. unfold wp, to_int. by destruct (int s). Qed.

(** The loop rule: an invariant of the state that every iteration keeps. *)
Lemma wp_for_each {A} (f : A → M unit) (l : list A)
    (I : state → Prop) (E : exception → state → Prop) st :
  I st →
  (∀ x st, x ∈ l → I st → wp (f x) (λ _ st', I st') E st) →
  wp (for_each f l) (λ _ st', I st') E st.
Proof.
  revert st; induction l as [|x l IH]; intros st HI Hf; simpl.
  - by apply wp_ret.
  - apply wp_bind. eapply wp_mono; [apply Hf; [left | done] | | done].
    intros [] st' HI'. apply IH; [done |].
    intros y st'' Hy. apply Hf. by right.
Qed.

Ltac wp_step :=
  lazymatch goal with
  | |- wp (_ ≫= _) _ _ _ => apply wp_bind
  | |- wp (mret _) _ _ _ => apply wp_ret
  | |- wp (gets _) _ _ _ => apply wp_gets
  | |- wp (modify _) _ _ _ => apply wp_modify
  | |- wp (when _ _) _ _ _ => apply wp_when
  | |- wp (err _) _ _ _ => apply wp_err
  | |- wp (raise _) _ _ _ => apply wp_raise
  | |- wp (to_int _) _ _ _ => apply wp_to_int
  | |- wp (if ?b then _ else _) _ _ _ => destruct b eqn:?
  end.

Ltac wp_run := repeat wp_step.

(** ** The stages of the loop body *)

Ltac wp_case :=
  lazymatch goal with
  | |- if ?b then _ else _ => destruct b eqn:?
  | |- match ?x with Some _ => _ | None => _ end => destruct x eqn:?
  end.

Ltac wp_go := repeat first [wp_step | wp_case].

Ltac bools :=
  repeat match goal with
  | H : negb _ = true |- _ => apply negb_true_iff in H
  | H : negb _ = false |- _ => apply negb_false_iff in H
  | H : _ || _ = true |- _ => apply orb_true_iff in H
  | H : _ || _ = false |- _ => apply orb_false_iff in H as [? ?]
  | H : _ && _ = true |- _ => apply andb_true_iff in H as [? ?]
  | H : _ && _ = false |- _ => apply andb_false_iff in H
  | H : (_ =? _) = true |- _ => apply Z.eqb_eq in H
  | H : (_ =? _) = false |- _ => apply Z.eqb_neq in H
  | H : (_ <? _) = true |- _ => apply Z.ltb_lt in H
  | H : (_ <? _) = false |- _ => apply Z.ltb_ge in H
  | H : (_ >? _) = true |- _ => rewrite Z.gtb_ltb in H
  | H : (_ >? _) = false |- _ => rewrite Z.gtb_ltb in H
  | H : bool_decide _ = true |- _ => apply bool_decide_eq_true in H
  | H : bool_decide _ = false |- _ => apply bool_decide_eq_false in H
  end.

Lemma line_tagged_message n reason :
  line_tagged n (RuntimeError (message n reason)).
Proof. by exists reason. Qed.

Lemma forallb_nonempty (fields : list string) :
  forallb (λ f, negb (is_empty f)) fields = true ↔
  Forall (λ f, f ≠ EmptyString) fields.
Proof.
  rewrite forallb_forall, Forall_forall. unfold is_empty.
  split; intros H f Hf.
  - apply list_elem_of_In, H in Hf. by destruct f.
  - apply list_elem_of_In, H in Hf. by destruct f.
Qed.

Section Stages.

Context (fetch : string → option string) (reverse_complement : string → string).

Lemma read_fields_spec line st :
  wp (read_fields line)
    (λ fields st', st' = set_past_comments true st ∧
                   fields = line_fields line ∧ length fields = 9%nat ∧
                   Forall (λ f, f ≠ EmptyString) fields)
    (λ e st', st' = set_past_comments true st ∧
              line_tagged (line_number st) e)
    st.
Proof.
  unfold read_fields. wp_go; bools;
    auto using line_tagged_message.
  repeat split; auto. by apply forallb_nonempty.
Qed.

Lemma parse_object_spec fields st :
  wp (parse_object fields)
    (λ o st', st' = st ∧ obj o = fields !!! 0%nat ∧
              int (fields !!! 1%nat) = Some (obj_beg o) ∧
              int (fields !!! 2%nat) = Some (obj_end o) ∧
              int (fields !!! 3%nat) = Some (pid o) ∧
              1 ≤ obj_beg o ≤ obj_end o)
    (λ e st', st' = st ∧ reported fetch (line_number st) fields e)
    st.
Proof.
  unfold parse_object, reported. wp_go; bools;
    try (split; [done |]); auto using line_tagged_message.
  - simpl. repeat split; auto; lia.
  - right; left. exists 3%nat. split; [repeat constructor | done].
  - right; left. exists 2%nat. split; [repeat constructor | done].
  - right; left. exists 1%nat. split; [repeat constructor | done].
Qed.

Lemma object_transition_spec o st :
  wp (object_transition o)
    (λ _ st',
       if decide (curr_obj st = Some (obj o)) then st' = st
       else obj_beg o = 1 ∧ (obj o ∉ seen_objs st) ∧
            (is_first st = false → is_covered (curr_obj_intervals st) = true) ∧
            st' = entered (obj o) st)
    (λ e st', st' = st ∧ curr_obj st ≠ Some (obj o) ∧
              line_tagged (line_number st) e)
    st.
Proof.
  unfold object_transition. do 3 wp_step.
  destruct (decide (curr_obj st = Some (obj o))) as [Heq|Hne].
  { rewrite bool_decide_false by (intros H; by apply H). done. }
  rewrite bool_decide_true by congruence.
  wp_go; bools; auto using line_tagged_message.
  all: repeat split; auto; try congruence.
  all: unfold entered, header_text.
  all: by match goal with H : is_first _ = _ |- _ => rewrite H end.
Qed.

Lemma part_check_spec o st :
  wp (part_check o)
    (λ _ st', pid o - prev_pid st = 1 ∧
              st' = record_part (pid o) (obj_beg o - 1, obj_end o) st)
    (λ e st', st' = st ∧ pid o - prev_pid st ≠ 1 ∧
              e = RuntimeError
                    (message (line_number st) "non-sequential part_numbers"))
    st.
Proof. unfold part_check. wp_go; bools; auto. Qed.

Lemma check_comp_type_spec fields st :
  wp (check_comp_type fields)
    (λ comp_type st', st' = st ∧ comp_type = fields !!! 4%nat ∧
                      comp_type ∈ allowed_comp_types)
    (λ e st', st' = st ∧ line_tagged (line_number st) e)
    st.
Proof.
  unfold check_comp_type. wp_go; bools; auto using line_tagged_message.
Qed.

Lemma fai_fetch_spec cid Q E st :
  match fetch cid with
  | Some s => Q s st
  | None => E (KeyError cid) st
  end → wp (fai_fetch fetch cid) Q E st.
Proof. unfold wp, fai_fetch. by destruct (fetch cid). Qed.

(** The text that a component record writes: the whole sequence stored
    under [cid], or its reverse complement. *)
Lemma write_component_spec cid orientation st :
  wp (write_component fetch reverse_complement cid orientation)
    (λ _ st', ∃ s, fetch cid = Some s ∧
       ((orientation ∈ ["+"; "?"; "0"; "na"] ∧
         st' = stdout_write (Sequence s) st) ∨
        (orientation = "-" ∧
         st' = stdout_write (Sequence (reverse_complement s)) st)))
    (λ e st', st' = st ∧
       ((e = KeyError cid ∧ fetch cid = None) ∨
        ((orientation ∉ ["+"; "?"; "0"; "na"; "-"]) ∧
         e = RuntimeError (message (line_number st) "invalid orientation"))))
    st.
Proof.
  unfold write_component.
  repeat first [wp_step | wp_case | apply fai_fetch_spec]; bools; eauto 6.
  split; [done |]. right. split; [| done].
  change (orientation ∉ ["+"; "?"; "0"; "na"] ++ ["-"]).
  rewrite elem_of_app, list_elem_of_singleton. tauto.
Qed.

Lemma component_spec fields st :
  wp (component fetch reverse_complement fields)
    (λ comp_len st', ∃ comp_beg comp_end s,
       int (fields !!! 6%nat) = Some comp_beg ∧
       int (fields !!! 7%nat) = Some comp_end ∧
       1 ≤ comp_beg ≤ comp_end ∧ comp_len = comp_end - (comp_beg - 1) ∧
       fetch (fields !!! 5%nat) = Some s ∧
       ((fields !!! 8%nat ∈ ["+"; "?"; "0"; "na"] ∧
         st' = stdout_write (Sequence s) st) ∨
        (fields !!! 8%nat = "-" ∧
         st' = stdout_write (Sequence (reverse_complement s)) st)))
    (λ e st', st' = st ∧ reported fetch (line_number st) fields e)
    st.
Proof.
  unfold component, reported. wp_go; bools;
    try (split; [done |]); auto using line_tagged_message.
  - eapply wp_mono; [apply write_component_spec | |].
    + intros [] st' (s & Hs & Hw). wp_go.
      eexists _, _, s. repeat split; eauto; lia.
    + intros e st' (-> & [[-> ?]|[? ->]]); split; auto.
      left. apply line_tagged_message.
  - right; left. exists 7%nat. split; [repeat constructor | done].
  - right; left. exists 6%nat. split; [repeat constructor | done].
Qed.

Lemma gap_spec comp_type fields st :
  wp (gap comp_type fields)
    (λ comp_len st',
       int (fields !!! 5%nat) = Some comp_len ∧ 1 ≤ comp_len ∧
       (comp_type = "U" → comp_len = 100) ∧
       st' = stdout_write (Sequence (string_repeat "N"%char comp_len)) st)
    (λ e st', st' = st ∧ reported fetch (line_number st) fields e)
    st.
Proof.
  unfold gap, reported. wp_go; bools;
    try (split; [done |]); auto using line_tagged_message.
  - eapply wp_mono;
      [apply (wp_for_each _ _ (λ st', st' = st)
                (λ e st', st' = st ∧ line_tagged (line_number st) e));
       [done |] | |].
    + intros e ? _ ->. wp_go; auto using line_tagged_message.
    + intros [] ? ->. wp_go. repeat split; auto.
      intros ->. match goal with H : _ ∨ _ |- _ => destruct H end;
        [by bools | bools; lia].
    + intros e st' [-> ?]. auto.
  - right; left. exists 5%nat. split; [repeat constructor | done].
Qed.

Lemma length_check_spec comp_len o st :
  wp (length_check comp_len o)
    (λ _ st', st' = st ∧ comp_len = obj_len o)
    (λ e st', st' = st ∧ comp_len ≠ obj_len o ∧
       e = RuntimeError
             (message (line_number st)
                "object and component coordinates have inconsistent lengths"))
    st.
Proof. unfold length_check. wp_go; bools; auto. Qed.

(** *** One line *)

Lemma continues_refl st : continues st st.
Proof. done. Qed.

Lemma continues_trans st1 st2 st3 :
  continues st1 st2 → continues st2 st3 → continues st1 st3.
Proof.
  intros (? & ? & ?) (? & ? & ?). repeat split; [congruence | set_solver |].
  by etrans.
Qed.

Ltac continues :=
  unfold continues, entered; simpl;
  split; [done | split; [first [done | apply union_subseteq_r] |]];
  rewrite <- ?(assoc_L (++)); first [done | apply prefix_app_r; done].

Lemma bind_eq_Ok {A B} (m : M A) (f : A → M B) st st1 a :
  m st = (st1, Ok a) → (m ≫= f) st = f a st1.
Proof. unfold mbind, M_bind. by intros ->. Qed.

Lemma bind_eq_Raise {A B} (m : M A) (f : A → M B) st st1 e :
  m st = (st1, Raise e) → (m ≫= f) st = (st1, Raise e).
Proof. unfold mbind, M_bind. by intros ->. Qed.

Lemma reported_tagged n fields reason :
  reported fetch n fields (RuntimeError (message n reason)).
Proof. left. apply line_tagged_message. Qed.

Lemma enter_object_spec line st :
  startswith "#" line = false →
  wp (enter_object line)
    (λ '(fields, o) st',
       let st0 := set_past_comments true st in
       fields = line_fields line ∧ length fields = 9%nat ∧
       line_object line = Some o ∧
       1 ≤ obj_beg o ≤ obj_end o ∧
       (curr_obj st ≠ Some (obj o) →
          obj_beg o = 1 ∧ (obj o ∉ seen_objs st) ∧
          (is_first st = false → is_covered (curr_obj_intervals st) = true)) ∧
       st' = if decide (curr_obj st = Some (obj o)) then st0
             else entered (obj o) st0)
    (λ e st', st' = set_past_comments true st ∧
              reported fetch (line_number st) (line_fields line) e)
    st.
Proof.
  intros Hc. unfold enter_object.
  wp_step. eapply wp_mono; [apply read_fields_spec | |]; simpl.
  2: { intros e st' [-> He]. split; [done | by left]. }
  intros fields ? (-> & -> & Hlen & _).
  wp_step. eapply wp_mono; [apply parse_object_spec | |]; simpl.
  2: { by intros e st' [-> He]. }
  intros o ? (-> & Hobj & Hb & He & Hp & Hcoord).
  wp_step. eapply wp_mono; [apply object_transition_spec | |]; simpl.
  2: { intros e st' (-> & _ & He'). split; [done | by left]. }
  intros [] st' Ht. wp_step. simpl.
  assert (line_object line = Some o) as Hlo.
  { unfold line_object. rewrite Hc; simpl. rewrite Hb, He, Hp; simpl.
    destruct o; simpl in *; by subst. }
  destruct (decide (curr_obj st = Some (obj o))) as [Heq|Hne].
  - subst st'. split_and!; auto; try lia; by intros [].
  - destruct Ht as (? & ? & ? & ->). split_and!; auto; lia.
Qed.

Lemma string_repeat_length c n :
  String.length (string_repeat c n) = Z.to_nat n.
Proof.
  unfold string_repeat. induction (Z.to_nat n) as [|k IH]; simpl; congruence.
Qed.

Lemma is_gap_false comp_type :
  negb (bool_decide (comp_type = "N")) && negb (bool_decide (comp_type = "U"))
  = negb (is_gap comp_type).
Proof. unfold is_gap. by rewrite negb_orb. Qed.

Lemma process_body_spec line st :
  startswith "#" line = false →
  wp (process_body fetch reverse_complement line)
    (λ _ st', ∃ o text,
       let st0 := set_past_comments true st in
       let st1 := if decide (curr_obj st = Some (obj o)) then st0
                  else entered (obj o) st0 in
       line_object line = Some o ∧
       1 ≤ obj_beg o ≤ obj_end o ∧
       (curr_obj st ≠ Some (obj o) →
          obj_beg o = 1 ∧ (obj o ∉ seen_objs st) ∧
          (is_first st = false → is_covered (curr_obj_intervals st) = true)) ∧
       pid o - prev_pid st1 = 1 ∧
       record_text fetch reverse_complement line o text ∧
       st' = stdout_write (Sequence text)
               (record_part (pid o) (interval o) st1))
    (λ e st', continues st st' ∧
              reported fetch (line_number st) (line_fields line) e ∧
              ∀ st1 fo, enter_object line st = (st1, Ok fo) → continues st1 st')
    st.
Proof.
  intros Hc. unfold process_body.
  wp_step.
  eapply wp_mono;
    [apply wp_conj; [apply (enter_object_spec line st Hc) | apply wp_eq] | |];
    simpl.
  2: { intros e st' [[-> He] Heq]. split_and!; [continues | done |].
       intros ? ?. by rewrite Heq. }
  intros [fields o] st1 [(-> & Hlen & Hlo & Hcoord & Htrans & Hst1) Heq].
  assert (continues st st1 ∧ line_number st1 = line_number st) as [Hst Hln].
  { subst st1. destruct (decide _); split; try done; continues. }
  assert (∀ e st', continues st1 st' →
            reported fetch (line_number st) (line_fields line) e →
            continues st st' ∧
            reported fetch (line_number st) (line_fields line) e ∧
            ∀ st2 fo, enter_object line st = (st2, Ok fo) → continues st2 st')
    as Herr.
  { intros e st' Hst' He. split_and!; [by eapply continues_trans | done |].
    intros ? ?. rewrite Heq. by intros [= <- _]. }
  wp_step. eapply wp_mono; [apply part_check_spec | |]; simpl.
  2: { intros e st' (-> & _ & ->). apply Herr; [done |].
       rewrite Hln. apply reported_tagged. }
  intros [] ? [Hpid ->].
  wp_step. eapply wp_mono; [apply check_comp_type_spec | |]; simpl.
  2: { intros e st' (-> & He). apply Herr; [continues | by left; rewrite <- Hln]. }
  intros comp_type ? (-> & -> & Hct).
  rewrite is_gap_false.
  set (st2 := record_part _ _ st1).
  assert (line_number st2 = line_number st) as Hln2 by done.
  wp_step. destruct (is_gap (line_fields line !!! 4%nat)) eqn:Hgap; simpl.
  - eapply wp_mono; [apply gap_spec | |]; simpl.
    2: { intros e st' [-> He]. apply Herr; [continues | by rewrite <- Hln2]. }
    intros comp_len ? (Hint & Hpos & _ & ->).
    eapply wp_mono; [apply length_check_spec | |]; simpl.
    2: { intros e st' (-> & _ & ->). apply Herr; [continues |].
         simpl. rewrite Hln. apply reported_tagged. }
    intros [] ? [-> ->]. exists o, (string_repeat "N"%char (obj_len o)).
    split_and!; auto; try lia; [by subst st1 | | by subst st2 st1].
    unfold record_text. by rewrite Hgap.
  - eapply wp_mono; [apply component_spec | |]; simpl.
    2: { intros e st' [-> He]. apply Herr; [continues | by rewrite <- Hln2]. }
    intros comp_len st3 (cb & ce & s & Hcb & Hce & Hcc & -> & Hs & Hw).
    assert (continues st1 st3) as Hst3 by (destruct Hw as [[_ ->]|[_ ->]]; continues).
    assert (line_number st3 = line_number st) as Hln3
      by (by destruct Hw as [[_ ->]|[_ ->]]).
    eapply wp_mono; [apply length_check_spec | |]; simpl.
    2: { intros e st' (-> & _ & ->). apply Herr; [done |].
         rewrite Hln3. apply reported_tagged. }
    intros [] ? [-> Hlen'].
    assert (component_of line = Some (line_fields line !!! 5%nat, obj_len o))
      as Hcomp.
    { unfold component_of. rewrite Hc, Hgap; simpl. rewrite Hcb, Hce; simpl.
      by rewrite Hlen'. }
    destruct Hw as [[Ho ->]|[Ho ->]].
    + exists o, s.
      split_and!; auto; try lia; [by subst st1 | | by subst st2 st1].
      unfold record_text. rewrite Hgap. exists s. auto.
    + exists o, (reverse_complement s).
      split_and!; auto; try lia; [by subst st1 | | by subst st2 st1].
      unfold record_text. rewrite Hgap. exists s. auto.
Qed.

(** *** Running a stage forward *)

Lemma wp_elim {A} (m : M A) Q E st :
  wp m Q E st →
  (∃ st' a, m st = (st', Ok a) ∧ Q a st') ∨
  (∃ st' e, m st = (st', Raise e) ∧ E e st').
Proof. unfold wp. destruct (m st) as [st' [a|e]]; eauto. Qed.

Lemma read_fields_Ok line st :
  length (line_fields line) = 9%nat →
  Forall (λ f, f ≠ EmptyString) (line_fields line) →
  read_fields line st = (set_past_comments true st, Ok (line_fields line)).
Proof.
  intros Hlen Hne. apply forallb_nonempty in Hne.
  unfold read_fields, line_fields in *.
  unfold mbind, M_bind, modify, when; simpl.
  by rewrite bool_decide_true, Hne by done.
Qed.

Lemma parse_object_Ok fields st b e p :
  int (fields !!! 1%nat) = Some b → int (fields !!! 2%nat) = Some e →
  int (fields !!! 3%nat) = Some p → 1 ≤ b ≤ e →
  parse_object fields st = (st, Ok (ObjectPart (fields !!! 0%nat) b e p)).
Proof.
  intros Hb He Hp Hbe. unfold parse_object, to_int.
  rewrite Hb, He, Hp. unfold mbind, M_bind, mret, M_ret, when; simpl.
  rewrite (proj2 (Z.ltb_ge b 1)), (proj2 (Z.ltb_ge e 1)) by lia. simpl.
  rewrite Z.gtb_ltb, (proj2 (Z.ltb_ge e b)) by lia. done.
Qed.

Lemma part_check_Raise o st :
  pid o - prev_pid st ≠ 1 →
  part_check o st
  = (st, Raise (RuntimeError
                  (message (line_number st) "non-sequential part_numbers"))).
Proof.
  intros Hne.
  destruct (wp_elim _ _ _ _ (part_check_spec o st))
    as [(st' & [] & _ & Hpid & _)|(st' & e & Heq & -> & _ & ->)]; done.
Qed.

Lemma part_check_Ok o st :
  pid o - prev_pid st = 1 →
  part_check o st
  = (record_part (pid o) (obj_beg o - 1, obj_end o) st, Ok tt).
Proof.
  intros Hpid.
  destruct (wp_elim _ _ _ _ (part_check_spec o st))
    as [(st' & [] & Heq & _ & ->)|(st' & e & _ & _ & Hne & _)]; done.
Qed.

Lemma check_comp_type_Ok fields st :
  fields !!! 4%nat ∈ allowed_comp_types →
  check_comp_type fields st = (st, Ok (fields !!! 4%nat)).
Proof.
  intros Hin. unfold check_comp_type, mbind, M_bind, when; simpl.
  by rewrite bool_decide_true.
Qed.

Lemma component_eval fields st cb ce :
  int (fields !!! 6%nat) = Some cb → int (fields !!! 7%nat) = Some ce →
  1 ≤ cb ≤ ce →
  component fetch reverse_complement fields st
  = (write_component fetch reverse_complement
       (fields !!! 5%nat) (fields !!! 8%nat) ;;
     mret (ce - (cb - 1))) st.
Proof.
  intros Hb He Hbe. unfold component, to_int. rewrite Hb, He.
  unfold mbind at 1 2 3 4, M_bind, mret at 1 2, M_ret, when; simpl.
  rewrite (proj2 (Z.ltb_ge cb 1)), (proj2 (Z.ltb_ge ce 1)) by lia. simpl.
  rewrite Z.gtb_ltb, (proj2 (Z.ltb_ge ce cb)) by lia. done.
Qed.

(** The U check comes before the checks of the evidence and of the span. *)
Lemma gap_U_Raise fields st n :
  int (fields !!! 5%nat) = Some n →
  fields !!! 6%nat ∈ allowed_gap_types →
  fields !!! 7%nat ∈ allowed_linkage_types →
  1 ≤ n → n ≠ 100 →
  gap "U" fields st
  = (st, Raise (RuntimeError
                  (message (line_number st) "gaps of type 'U' must be 100 bp"))).
Proof.
  intros Hn Hgt Hlk Hpos Hne. unfold gap, to_int. rewrite Hn.
  unfold mbind, M_bind, mret, M_ret, when; simpl.
  rewrite !bool_decide_true by done. simpl.
  rewrite (proj2 (Z.ltb_ge n 1)), (proj2 (Z.eqb_neq n 100)) by lia. done.
Qed.

Lemma write_component_forward cid s st :
  fetch cid = Some s →
  write_component fetch reverse_complement cid "-" st
  = (stdout_write (Sequence (reverse_complement s)) st, Ok tt) ∧
  ∀ orientation, orientation ∈ ["+"; "?"; "0"; "na"] →
    write_component fetch reverse_complement cid orientation st
    = (stdout_write (Sequence s) st, Ok tt).
Proof.
  intros Hs. unfold write_component, fai_fetch. rewrite Hs. split.
  - reflexivity.
  - intros orientation Ho. by rewrite bool_decide_true.
Qed.

Lemma write_component_invalid cid orientation st :
  orientation ∉ ["+"; "?"; "0"; "na"; "-"] →
  write_component fetch reverse_complement cid orientation st
  = (st, Raise (RuntimeError (message (line_number st) "invalid orientation"))).
Proof.
  intros Ho. unfold write_component.
  rewrite !bool_decide_false; [done | |].
  - intros ->. apply Ho. by repeat constructor.
  - intros Hin. apply Ho.
    change (orientation ∈ ["+"; "?"; "0"; "na"] ++ ["-"]).
    apply elem_of_app. by left.
Qed.

Lemma object_transition_same o st :
  curr_obj st = Some (obj o) → object_transition o st = (st, Ok tt).
Proof.
  intros Hcur. unfold object_transition, mbind, M_bind, gets, when.
  by rewrite bool_decide_false by (intros H; by apply H).
Qed.

Lemma object_transition_start o st :
  curr_obj st ≠ Some (obj o) → obj_beg o ≠ 1 →
  object_transition o st
  = (st, Raise (RuntimeError
                  (message (line_number st) "all objects should start with '1'"))).
Proof.
  intros Hcur Hbeg. unfold object_transition, mbind, M_bind, gets, when.
  rewrite bool_decide_true by congruence.
  by rewrite (proj2 (Z.eqb_neq _ _) Hbeg).
Qed.

Lemma object_transition_seen o st :
  curr_obj st ≠ Some (obj o) → obj_beg o = 1 → obj o ∈ seen_objs st →
  object_transition o st
  = (st, Raise (RuntimeError
                  (message (line_number st) "object identifier out of order"))).
Proof.
  intros Hcur Hbeg Hseen. unfold object_transition, mbind, M_bind, gets, when.
  rewrite bool_decide_true by congruence.
  rewrite (proj2 (Z.eqb_eq _ _) Hbeg). simpl.
  by rewrite bool_decide_true.
Qed.

Lemma line_object_obj line r :
  line_object line = Some r → obj r = line_fields line !!! 0%nat.
Proof.
  unfold line_object. destruct (startswith _ _); [done |]. simpl.
  by intros (b & _ & (e & _ & (p & _ & [= <-])%bind_Some)%bind_Some)%bind_Some.
Qed.

(** *** The last check is the only one with its message *)

Lemma message_inj n r1 r2 : message n r1 = message n r2 → r1 = r2.
Proof.
  unfold message. intros H.
  by do 3 apply (inj (String.app _)) in H.
Qed.

Lemma runtime_error_reason_inj n r1 r2 :
  RuntimeError (message n r1) = RuntimeError (message n r2) → r1 = r2.
Proof.
  intros H. apply (message_inj n).
  exact (f_equal (λ e, match e with RuntimeError m => m | _ => r1 end) H).
Qed.

Ltac other_reason :=
  let H := fresh in
  intros H;
  first [ discriminate H
        | apply runtime_error_reason_inj in H; cbv in H; discriminate H ].

Lemma enter_object_other_reason line st :
  wp (enter_object line) (λ _ _, True)
    (λ e st', e ≠ RuntimeError (message (line_number st) inconsistent_lengths))
    st.
Proof.
  unfold enter_object, read_fields, parse_object, object_transition.
  wp_go; simpl; try done; other_reason.
Qed.

Lemma part_check_other_reason o st :
  wp (part_check o) (λ _ _, True)
    (λ e st', e ≠ RuntimeError (message (line_number st) inconsistent_lengths))
    st.
Proof. unfold part_check. wp_go; simpl; try done; other_reason. Qed.

Lemma check_comp_type_other_reason fields st :
  wp (check_comp_type fields) (λ _ _, True)
    (λ e st', e ≠ RuntimeError (message (line_number st) inconsistent_lengths))
    st.
Proof. unfold check_comp_type. wp_go; simpl; try done; other_reason. Qed.

Lemma component_other_reason fields st :
  wp (component fetch reverse_complement fields) (λ _ _, True)
    (λ e st', e ≠ RuntimeError (message (line_number st) inconsistent_lengths))
    st.
Proof.
  unfold component, write_component.
  repeat first [wp_step | wp_case | apply fai_fetch_spec];
    simpl; try done; other_reason.
Qed.

Lemma gap_other_reason comp_type fields st :
  wp (gap comp_type fields) (λ _ _, True)
    (λ e st', e ≠ RuntimeError (message (line_number st) inconsistent_lengths))
    st.
Proof.
  unfold gap. wp_go; simpl; try done; try other_reason.
  eapply wp_mono;
    [apply (wp_for_each _ _ (λ st', st' = st)
              (λ e st', e ≠ RuntimeError
                              (message (line_number st) inconsistent_lengths)));
     [done |] | |].
  - intros e ? _ ->. wp_go; simpl; try done; other_reason.
  - intros [] ? ->. by wp_go.
  - done.
Qed.

Lemma process_line_spec line st :
  wp (process_line fetch reverse_complement line)
    (λ _ st', accepted_step fetch reverse_complement line st st')
    (λ e st', continues (next_line st) st' ∧
              reported fetch (S (line_number st)) (line_fields line) e ∧
              ∀ st1 fo, startswith "#" line = false →
                enter_object line (next_line st) = (st1, Ok fo) →
                continues st1 st')
    st.
Proof.
  unfold process_line. wp_step. wp_step.
  destruct (startswith "#" line) eqn:Hc.
  - wp_go; simpl.
    + split_and!; [done | apply reported_tagged | done].
    + unfold accepted_step, line_object. by rewrite Hc.
  - eapply wp_mono; [by apply process_body_spec | |]; simpl.
    + intros [] st' (o & text & Hlo & Hcoord & Htrans & Hpid & Htext & ->).
      unfold accepted_step. rewrite Hlo. split_and!; auto; try lia; eauto.
    + intros e st' (? & ? & ?). split_and!; eauto.
Qed.

(** When the last check of a line fails, the text of the record is the
    last thing that was written. *)
Lemma process_line_length_error_wp line st :
  wp (process_line fetch reverse_complement line) (λ _ _, True)
    (λ e st',
       e = RuntimeError (message (S (line_number st)) inconsistent_lengths) →
       ∃ st2 text,
         st' = stdout_write (Sequence text) st2 ∧
         continues (next_line st) st2 ∧
         if is_gap (line_fields line !!! 4%nat) then
           ∃ n, int (line_fields line !!! 5%nat) = Some n ∧
                text = string_repeat "N"%char n
         else
           ∃ s, fetch (line_fields line !!! 5%nat) = Some s ∧
                ((line_fields line !!! 8%nat ∈ ["+"; "?"; "0"; "na"] ∧
                  text = s) ∨
                 (line_fields line !!! 8%nat = "-" ∧
                  text = reverse_complement s)))
    st.
Proof.
  unfold process_line. wp_step. wp_step.
  change (S (line_number st)) with (line_number (next_line st)).
  generalize (next_line st). clear st. intros st.
  destruct (startswith "#" line) eqn:Hc.
  { wp_go; simpl; try done. intros H. exfalso. revert H. other_reason. }
  unfold process_body. wp_step.
  eapply wp_mono;
    [apply wp_conj;
       [apply (enter_object_spec line st Hc) | apply enter_object_other_reason]
    | |]; simpl.
  2: { by intros e st' [_ He] ->. }
  intros [fields o] st1 [(-> & Hlen & Hlo & Hcoord & Htrans & Hst1) _].
  assert (continues st st1 ∧ line_number st1 = line_number st) as [Hst Hln].
  { subst st1. destruct (decide _); split; try done; continues. }
  rewrite <- Hln.
  wp_step.
  eapply wp_mono;
    [apply wp_conj; [apply part_check_spec | apply part_check_other_reason]
    | |]; simpl.
  2: { by intros e st' [_ He] ->. }
  intros [] ? [[Hpid ->] _].
  wp_step.
  eapply wp_mono;
    [apply wp_conj;
       [apply check_comp_type_spec | apply check_comp_type_other_reason]
    | |]; simpl.
  2: { by intros e st' [_ He] ->. }
  intros comp_type ? [(-> & -> & Hct) _].
  rewrite is_gap_false.
  set (st2 := record_part _ _ st1).
  assert (continues st st2) as Hst2
    by (eapply continues_trans; [done |]; subst st2; continues).
  wp_step. destruct (is_gap (line_fields line !!! 4%nat)) eqn:Hgap; simpl.
  - eapply wp_mono;
      [apply wp_conj; [apply gap_spec | apply gap_other_reason] | |]; simpl.
    2: { by intros e st' [_ He] ->. }
    intros comp_len ? [(Hint & Hpos & _ & ->) _].
    eapply wp_mono; [apply length_check_spec | done |]; simpl.
    intros e st' (-> & _ & ->) _. eauto 8.
  - eapply wp_mono;
      [apply wp_conj; [apply component_spec | apply component_other_reason]
      | |]; simpl.
    2: { by intros e st' [_ He] ->. }
    intros comp_len st3 [(cb & ce & s & Hcb & Hce & Hcc & -> & Hs & Hw) _].
    eapply wp_mono; [apply length_check_spec | done |]; simpl.
    intros e st' (-> & _ & ->) _.
    destruct Hw as [[Ho ->]|[Ho ->]]; eauto 10.
Qed.

Lemma process_line_length_error line st st' :
  process_line fetch reverse_complement line st
  = (st', Raise (RuntimeError
                   (message (S (line_number st)) inconsistent_lengths))) →
  ∃ st2 text,
    st' = stdout_write (Sequence text) st2 ∧ continues (next_line st) st2 ∧
    if is_gap (line_fields line !!! 4%nat) then
      ∃ n, int (line_fields line !!! 5%nat) = Some n ∧
           text = string_repeat "N"%char n
    else
      ∃ s, fetch (line_fields line !!! 5%nat) = Some s ∧
           ((line_fields line !!! 8%nat ∈ ["+"; "?"; "0"; "na"] ∧ text = s) ∨
            (line_fields line !!! 8%nat = "-" ∧ text = reverse_complement s)).
Proof.
  intros Hrun.
  exact (wp_Raise _ _ _ _ _ _ (process_line_length_error_wp line st) Hrun eq_refl).
Qed.

(** A body line, once its object is entered. *)
Lemma process_line_body line st st1 fields o :
  startswith "#" line = false →
  enter_object line (next_line st) = (st1, Ok (fields, o)) →
  process_line fetch reverse_complement line st
  = (part_check o ;;
     comp_type ← check_comp_type fields;
     comp_len ←
       (if negb (bool_decide (comp_type = "N")) &&
           negb (bool_decide (comp_type = "U"))
        then component fetch reverse_complement fields
        else gap comp_type fields);
     length_check comp_len o) st1.
Proof.
  intros Hc Henter. unfold process_line.
  unfold mbind at 1, M_bind at 1, modify. rewrite Hc.
  unfold process_body. by rewrite (bind_eq_Ok _ _ _ _ _ Henter).
Qed.

Lemma enter_object_state line st st1 fields o :
  startswith "#" line = false →
  enter_object line st = (st1, Ok (fields, o)) →
  fields = line_fields line ∧ line_object line = Some o ∧
  st1 = if decide (curr_obj st = Some (obj o)) then set_past_comments true st
        else entered (obj o) (set_past_comments true st).
Proof.
  intros Hc Henter.
  pose proof (wp_Ok _ _ _ _ _ _ (enter_object_spec line st Hc) Henter) as H.
  simpl in H. destruct H as (? & _ & ? & _ & _ & ?). auto.
Qed.

Lemma line_object_Some line r :
  line_object line = Some r ↔
  startswith "#" line = false ∧
  r = ObjectPart (line_fields line !!! 0%nat) (obj_beg r) (obj_end r) (pid r) ∧
  int (line_fields line !!! 1%nat) = Some (obj_beg r) ∧
  int (line_fields line !!! 2%nat) = Some (obj_end r) ∧
  int (line_fields line !!! 3%nat) = Some (pid r).
Proof.
  unfold line_object. destruct (startswith _ _).
  { split; [done | by intros [? _]]. }
  simpl. split.
  - intros (b & Hb & (e & He & (p & Hp & [= <-])%bind_Some)%bind_Some)%bind_Some.
    done.
  - intros (_ & -> & -> & -> & ->). done.
Qed.

(** A body line that is well formed up to the object coordinates reaches
    the transition. *)
Lemma enter_object_forward line st r :
  length (line_fields line) = 9%nat →
  Forall (λ f, f ≠ EmptyString) (line_fields line) →
  line_object line = Some r → 1 ≤ obj_beg r ≤ obj_end r →
  enter_object line st
  = (object_transition r ;; mret (line_fields line, r))
      (set_past_comments true st).
Proof.
  intros Hlen Hne (_ & Hr & Hb & He & Hp)%line_object_Some Hbe.
  unfold enter_object.
  rewrite (bind_eq_Ok _ _ _ _ _ (read_fields_Ok line st Hlen Hne)).
  rewrite (bind_eq_Ok _ _ _ _ _
             (parse_object_Ok _ _ _ _ _ Hb He Hp Hbe)).
  by rewrite <- Hr.
Qed.

(** *** The loop over the lines *)

Lemma for_each_app {A} (f : A → M unit) (l1 l2 : list A) st :
  for_each f (l1 ++ l2) st = (for_each f l1 ;; for_each f l2) st.
Proof.
  revert st; induction l1 as [|x l1 IH]; intros st; simpl; [done |].
  unfold mbind, M_bind in *. destruct (f x st) as [st1 [[]|e]]; [| done].
  apply IH.
Qed.

Lemma for_each_snoc_Ok {A} (f : A → M unit) (l : list A) x st st' :
  for_each f (l ++ [x]) st = (st', Ok tt) ↔
  ∃ st1, for_each f l st = (st1, Ok tt) ∧ f x st1 = (st', Ok tt).
Proof.
  rewrite for_each_app. simpl. unfold mbind, M_bind, mret, M_ret.
  destruct (for_each f l st) as [st1 [[]|e]].
  - split.
    + intros Hx. exists st1. split; [done |].
      by destruct (f x st1) as [st2 [[]|e]]; simplify_eq.
    + intros (? & [= <-] & ->). done.
  - split; [done | by intros (? & ? & _)].
Qed.

(** A loop that raises does so at one element, after accepting its
    predecessors. *)
Lemma for_each_Raise {A} (f : A → M unit) (l : list A) st st' e :
  for_each f l st = (st', Raise e) →
  ∃ pre x post st1,
    l = pre ++ x :: post ∧ for_each f pre st = (st1, Ok tt) ∧
    f x st1 = (st', Raise e).
Proof.
  revert st; induction l as [|x l IH]; intros st; simpl; [done |].
  unfold mbind, M_bind. destruct (f x st) as [st1 [[]|e1]] eqn:Hx.
  - intros (pre & y & post & st2 & -> & Hpre & Hy)%IH.
    exists (x :: pre), y, post, st2. split_and!; auto.
    simpl. unfold mbind, M_bind. by rewrite Hx.
  - intros [= <- <-]. by exists [], x, l, st.
Qed.

Lemma accepts_nil st : accepts fetch reverse_complement [] st ↔ st = initial_state.
Proof.
  unfold accepts; simpl. unfold mret, M_ret. split; [by intros [= <-] | by intros ->].
Qed.

Lemma accepts_snoc lines line st' :
  accepts fetch reverse_complement (lines ++ [line]) st' →
  ∃ st, accepts fetch reverse_complement lines st ∧
        accepted_step fetch reverse_complement line st st'.
Proof.
  unfold accepts. rewrite for_each_snoc_Ok.
  intros (st & Hst & Hstep). exists st. split; [done |].
  exact (wp_Ok _ _ _ _ _ _ (process_line_spec line st) Hstep).
Qed.

End Stages.

(** ** Whole runs *)

Lemma records_snoc lines line :
  records (lines ++ [line]) =
  records lines ++ match line_object line with Some r => [r] | None => [] end.
Proof.
  unfold records. rewrite omap_app. simpl. by destruct (line_object line).
Qed.

Lemma records_of_snoc o rs r :
  records_of o (rs ++ [r]) =
  records_of o rs ++ if decide (obj r = o) then [r] else [].
Proof.
  unfold records_of. by rewrite filter_app.
Qed.

Lemma records_of_elem o rs r : r ∈ records_of o rs ↔ obj r = o ∧ r ∈ rs.
Proof. unfold records_of. by rewrite list_elem_of_filter. Qed.

Lemma records_of_Forall (P : object_part → Prop) o rs :
  Forall P rs → Forall P (records_of o rs).
Proof.
  rewrite !Forall_forall. intros H r [_ Hr]%records_of_elem. auto.
Qed.

Lemma records_of_unseen o rs :
  o ∉ (list_to_set (obj <$> rs) : gset string) → records_of o rs = [].
Proof.
  intros Hno. destruct (records_of o rs) as [|r rest] eqn:Hrs; [done |].
  assert (r ∈ records_of o rs) as [Ho Hr]%records_of_elem
    by (rewrite Hrs; left).
  destruct Hno. apply elem_of_list_to_set, list_elem_of_fmap. eauto.
Qed.

Lemma last_elem_of {A} (l : list A) x : last l = Some x → x ∈ l.
Proof.
  intros H. destruct l as [|y l _] using rev_ind; [done |].
  rewrite last_snoc in H. simplify_eq. apply elem_of_app. right. left.
Qed.

Lemma records_of_current o rs :
  last (obj <$> rs) = Some o → records_of o rs ≠ [].
Proof.
  intros (r & -> & Hr)%last_elem_of%list_elem_of_fmap Hnil.
  assert (r ∈ records_of (obj r) rs) as Hin by (by apply records_of_elem).
  rewrite Hnil in Hin. by apply elem_of_nil in Hin.
Qed.

Lemma never_reappears_snoc objs x :
  never_reappears objs → last objs = Some x ∨ x ∉ objs →
  never_reappears (objs ++ [x]).
Proof.
  intros Hnr Hx l1 o l2 o' l3 Heq Hne.
  destruct l3 as [|y l3 _] using rev_ind; [apply not_elem_of_nil |].
  replace (l1 ++ o :: l2 ++ o' :: l3 ++ [y])
    with ((l1 ++ o :: l2 ++ o' :: l3) ++ [y]) in Heq
    by (by repeat (rewrite <- (assoc_L (++)); simpl)).
  apply app_inj_tail in Heq as [-> <-].
  specialize (Hnr _ _ _ _ _ eq_refl Hne).
  rewrite elem_of_app, list_elem_of_singleton. intros [Ho| ->]; [done |].
  destruct Hx as [Hlast|Hnew].
  - rewrite !last_app in Hlast. simpl in Hlast.
    rewrite last_cons in Hlast. rewrite last_app in Hlast. simpl in Hlast.
    rewrite last_cons in Hlast.
    destruct (last l3) as [z|] eqn:Hl3; simplify_eq.
    by apply last_elem_of in Hl3.
  - destruct Hnew. rewrite elem_of_app. right. left.
Qed.

Lemma part_numbers_snoc n : part_numbers (S n) = part_numbers n ++ [Z.of_nat n + 1].
Proof.
  unfold part_numbers. rewrite seq_S, fmap_app. simpl. f_equal. f_equal. lia.
Qed.

Section Runs.

Context (fetch : string → option string) (reverse_complement : string → string).

Lemma run_invariant_initial : run_invariant [] initial_state.
Proof.
  constructor; simpl; try done.
  intros l1 o l2 o' l3 Heq. by destruct l1.
Qed.

Lemma run_invariant_comment rs st :
  run_invariant rs st → run_invariant rs (next_line st).
Proof. intros []. by constructor. Qed.

(** A record of the current object. *)
Lemma run_invariant_continue rs st r text :
  run_invariant rs st →
  curr_obj st = Some (obj r) → 1 ≤ obj_beg r ≤ obj_end r →
  pid r - prev_pid st = 1 →
  run_invariant (rs ++ [r])
    (stdout_write (Sequence text)
       (record_part (pid r) (interval r) (set_past_comments true (next_line st)))).
Proof.
  intros [Hseen Hcurr Hfirst Hivs _ Hprev Hcoords Hstart Hcov Hpids Hblocks]
    Hcur Hr Hpid.
  assert (last (obj <$> rs) = Some (obj r)) as Hlast by (by rewrite <- Hcurr).
  pose proof (records_of_current _ _ Hlast) as Hne.
  constructor; simpl.
  - rewrite Hseen, fmap_app, list_to_set_app_L. simpl.
    apply last_elem_of, (elem_of_list_to_set (C := gset string)) in Hlast.
    rewrite (right_id_L ∅ (∪)). apply (anti_symm (⊆)).
    + apply union_subseteq_l.
    + apply union_least; [done | by apply singleton_subseteq_l].
  - rewrite fmap_app. simpl. by rewrite last_snoc.
  - split; [| by destruct rs].
    intros Hf. apply Hfirst in Hf. by subst rs.
  - intros o Ho. rewrite Hcur in Ho. simplify_eq.
    rewrite records_of_snoc, decide_True, fmap_app by done.
    by rewrite (Hivs _ Hcur).
  - by rewrite Hcur.
  - intros o Ho. rewrite Hcur in Ho. simplify_eq.
    rewrite records_of_snoc, decide_True, length_app by done.
    rewrite (Hprev _ Hcur) in Hpid. simpl. lia.
  - apply Forall_app. split; [done | by constructor].
  - intros o r0 rest. rewrite records_of_snoc.
    destruct (decide (obj r = o)) as [<-|]; [| rewrite app_nil_r; eauto].
    destruct (records_of (obj r) rs) as [|r1 rest1] eqn:Hrs; [done |].
    intros [= <- _]. eauto.
  - intros o Ho. rewrite Hcur in Ho. rewrite records_of_snoc.
    rewrite decide_False, app_nil_r by congruence.
    apply Hcov. congruence.
  - intros o. rewrite records_of_snoc.
    destruct (decide (obj r = o)) as [<-|]; [| rewrite app_nil_r; eauto].
    rewrite fmap_app, length_app, Hpids. simpl.
    rewrite Nat.add_1_r, part_numbers_snoc. do 2 f_equal.
    rewrite (Hprev _ Hcur) in Hpid. lia.
  - rewrite fmap_app. apply never_reappears_snoc; auto.
Qed.

(** The first record of a new object. *)
Lemma run_invariant_enter rs st r text :
  run_invariant rs st →
  curr_obj st ≠ Some (obj r) → 1 ≤ obj_beg r ≤ obj_end r →
  obj_beg r = 1 → obj r ∉ seen_objs st →
  (is_first st = false → is_covered (curr_obj_intervals st) = true) →
  pid r - 0 = 1 →
  run_invariant (rs ++ [r])
    (stdout_write (Sequence text)
       (record_part (pid r) (interval r)
          (entered (obj r) (set_past_comments true (next_line st))))).
Proof.
  intros [Hseen Hcurr Hfirst Hivs _ Hprev Hcoords Hstart Hcov Hpids Hblocks]
    Hcur Hr Hbeg Hnew Hcovered Hpid.
  assert (records_of (obj r) rs = []) as Hnone
    by (apply records_of_unseen; by rewrite <- Hseen).
  constructor; simpl.
  - rewrite Hseen, fmap_app, list_to_set_app_L. simpl.
    by rewrite (right_id_L ∅ (∪)), (comm_L (∪)).
  - rewrite fmap_app. simpl. by rewrite last_snoc.
  - split; [done | by destruct rs].
  - intros o [= <-]. by rewrite records_of_snoc, decide_True, Hnone.
  - done.
  - intros o [= <-]. rewrite records_of_snoc, decide_True, Hnone by done.
    simpl. lia.
  - apply Forall_app. split; [done | by constructor].
  - intros o r0 rest. rewrite records_of_snoc.
    destruct (decide (obj r = o)) as [<-|]; [| rewrite app_nil_r; eauto].
    rewrite Hnone. by intros [= <- _].
  - intros o Ho. rewrite records_of_snoc.
    rewrite decide_False, app_nil_r by congruence.
    destruct (decide (curr_obj st = Some o)) as [Hc|Hc]; [| by apply Hcov].
    rewrite <- (Hivs _ Hc). apply Hcovered.
    destruct (is_first st) eqn:Hf; [| done].
    destruct Hfirst as [Hnil _]. rewrite Hnil in Hcurr by done.
    by rewrite Hcurr in Hc.
  - intros o. rewrite records_of_snoc.
    destruct (decide (obj r = o)) as [<-|]; [| rewrite app_nil_r; eauto].
    rewrite Hnone. unfold part_numbers. simpl. f_equal. lia.
  - rewrite fmap_app. apply never_reappears_snoc; auto.
    right. rewrite Hseen in Hnew. set_solver.
Qed.

(** The state of the loop after the accepted lines [lines]. *)
Lemma accepts_invariant lines st :
  accepts fetch reverse_complement lines st →
  run_invariant (records lines) st ∧ line_number st = length lines.
Proof.
  revert st. induction lines as [|line lines IH] using rev_ind; intros st'.
  { intros ->%accepts_nil. split; [apply run_invariant_initial | done]. }
  intros (st & [Hinv Hln]%IH & Hstep)%accepts_snoc.
  rewrite records_snoc, length_app. unfold accepted_step in Hstep.
  destruct (line_object line) as [r|].
  - destruct Hstep as (_ & Hr & Htrans & Hpid & text & _ & ->).
    split; [| simpl in *; destruct (decide _); simpl; lia].
    destruct (decide (curr_obj st = Some (obj r))) as [Hcur|Hcur].
    + by apply run_invariant_continue.
    + destruct (Htrans Hcur) as (? & ? & ?).
      by apply run_invariant_enter.
  - destruct Hstep as (_ & _ & ->). rewrite app_nil_r. split.
    + by apply run_invariant_comment.
    + simpl. lia.
Qed.

(** *** The text written for each object *)

Lemma string_app_cons c (s t : string) : String c s +:+ t = String c (s +:+ t).
Proof. done. Qed.

Lemma string_length_app (s t : string) :
  String.length (s +:+ t) = (String.length s + String.length t)%nat.
Proof.
  induction s as [|c s IH]; [done |]. rewrite string_app_cons. simpl. by rewrite IH.
Qed.

Lemma string_app_nil_r (s : string) : s +:+ EmptyString = s.
Proof.
  induction s as [|c s IH]; [done |]. by rewrite string_app_cons, IH.
Qed.

Lemma string_app_assoc (s t u : string) : (s +:+ t) +:+ u = s +:+ (t +:+ u).
Proof.
  induction s as [|c s IH]; [done |]. by rewrite !string_app_cons, IH.
Qed.

Lemma last_header_from_snoc cur ws w :
  last_header_from cur (ws ++ [w]) =
  match w with Header o _ => Some o | _ => last_header_from cur ws end.
Proof. unfold last_header_from. by rewrite foldl_app. Qed.

Lemma object_text_from_snoc o cur ws w :
  object_text_from o cur (ws ++ [w]) =
  object_text_from o cur ws +:+
  match w with
  | Sequence text =>
      if decide (last_header_from cur ws = Some o) then text else EmptyString
  | _ => EmptyString
  end.
Proof.
  revert cur; induction ws as [|w' ws IH]; intros cur; simpl.
  - destruct w; simpl; by rewrite ?string_app_nil_r.
  - destruct w'; simpl; rewrite IH; by rewrite ?string_app_assoc.
Qed.

Lemma span_sum_app rs1 rs2 :
  span_sum (rs1 ++ rs2) = span_sum rs1 + span_sum rs2.
Proof. induction rs1; simpl; lia. Qed.

Lemma record_text_length line r text :
  collaborator_ok fetch reverse_complement [line] →
  1 ≤ obj_beg r ≤ obj_end r →
  record_text fetch reverse_complement line r text →
  Z.of_nat (String.length text) = obj_len r.
Proof.
  intros Hok Hr. unfold record_text.
  destruct (is_gap _).
  - intros [_ ->]. rewrite string_repeat_length. unfold obj_len. lia.
  - intros (s & Hcomp & Hs & Htext).
    destruct (Hok line _ _ s (list_elem_of_here _ _) Hcomp Hs) as [Hlen Hrc].
    destruct Htext as [[_ ->]|[_ ->]]; congruence.
Qed.

Lemma collaborator_ok_app lines1 lines2 :
  collaborator_ok fetch reverse_complement (lines1 ++ lines2) ↔
  collaborator_ok fetch reverse_complement lines1 ∧
  collaborator_ok fetch reverse_complement lines2.
Proof.
  unfold collaborator_ok. split.
  - intros H. split; intros line ? ? ? Hin; apply H, elem_of_app; auto.
  - intros [H1 H2] line ? ? ? [Hin|Hin]%elem_of_app; eauto.
Qed.

(** After the accepted lines, every object has been written as many
    characters as the spans of its records add up to. *)
Lemma accepts_output lines st :
  accepts fetch reverse_complement lines st →
  collaborator_ok fetch reverse_complement lines →
  last_header (stdout st) = curr_obj st ∧
  ∀ o, Z.of_nat (String.length (object_text o st))
       = span_sum (records_of o (records lines)).
Proof.
  revert st. induction lines as [|line lines IH] using rev_ind; intros st'.
  { by intros ->%accepts_nil. }
  intros (st & Hacc & Hstep)%accepts_snoc [Hok Hok1]%collaborator_ok_app.
  destruct (IH _ Hacc Hok) as [Hhdr Htxt].
  rewrite records_snoc. unfold accepted_step in Hstep.
  destruct (line_object line) as [r|].
  2: { destruct Hstep as (_ & _ & ->). by rewrite app_nil_r. }
  destruct Hstep as (_ & Hr & _ & _ & text & Htext & ->).
  pose proof (record_text_length _ _ _ Hok1 Hr Htext) as Hlen.
  unfold object_text, last_header in *.
  assert (last_header_from None
            (stdout (if decide (curr_obj st = Some (obj r))
                     then set_past_comments true (next_line st)
                     else entered (obj r) (set_past_comments true (next_line st))))
          = Some (obj r) ∧
          ∀ o, object_text_from o None
            (stdout (if decide (curr_obj st = Some (obj r))
                     then set_past_comments true (next_line st)
                     else entered (obj r) (set_past_comments true (next_line st))))
          = object_text_from o None (stdout st)) as [Hhdr1 Htxt1].
  { destruct (decide _) as [Hcur|Hcur]; simpl.
    - split; [congruence | done].
    - rewrite last_header_from_snoc. split; [done |].
      intros o. by rewrite object_text_from_snoc, string_app_nil_r. }
  simpl. split.
  - rewrite last_header_from_snoc.
    by destruct (decide (curr_obj st = Some (obj r))).
  - intros o. rewrite object_text_from_snoc, Hhdr1, Htxt1.
    rewrite string_length_app, Nat2Z.inj_add, Htxt.
    rewrite records_of_snoc, span_sum_app. f_equal.
    destruct (decide (obj r = o)) as [<-|Hne].
    + rewrite decide_True by done. simpl. lia.
    + rewrite decide_False by congruence. done.
Qed.

Lemma span_sum_total_length rs :
  span_sum rs = total_length (interval <$> rs).
Proof.
  induction rs as [|r rs IH]; simpl; [done |]. rewrite IH.
  unfold obj_len. reflexivity.
Qed.

Lemma records_accumulated rs :
  Forall (λ r, 1 ≤ obj_beg r ≤ obj_end r) rs →
  Forall accumulated_interval (interval <$> rs).
Proof.
  intros H. apply Forall_fmap. eapply Forall_impl; [exact H |].
  intros r Hr. unfold accumulated_interval, interval, compose. simpl in *. lia.
Qed.

(** The intervals that the loop has accumulated are those of records that
    passed the coordinate checks. *)
Lemma accepts_accumulated lines st :
  accepts fetch reverse_complement lines st →
  Forall accumulated_interval (curr_obj_intervals st).
Proof.
  intros [Hinv _]%accepts_invariant.
  destruct (curr_obj st) as [o|] eqn:Hcur.
  - rewrite (inv_intervals _ _ Hinv o Hcur). apply records_accumulated.
    apply records_of_Forall, Hinv.
  - by rewrite (inv_no_object _ _ Hinv Hcur).
Qed.

(** *** The whole program *)

Lemma run_Ok lines st :
  run fetch reverse_complement lines = (st, Ok tt) ↔
  ∃ st0, accepts fetch reverse_complement lines st0 ∧
         st = stdout_write (Final nl) st0.
Proof.
  unfold run, main, accepts, mbind, M_bind, modify.
  destruct (for_each _ lines initial_state) as [st0 [[]|e]]; split.
  - intros [= <-]. eauto.
  - by intros (? & [= <-] & ->).
  - done.
  - by intros (? & ? & _).
Qed.

Lemma run_Raise lines st e :
  run fetch reverse_complement lines = (st, Raise e) ↔
  for_each (process_line fetch reverse_complement) lines initial_state
  = (st, Raise e).
Proof.
  unfold run, main, mbind, M_bind, modify.
  by destruct (for_each _ lines initial_state) as [st0 [[]|e0]].
Qed.

(** The program always ends, accepting the input or raising. *)
Lemma run_total lines :
  ∃ st r, run fetch reverse_complement lines = (st, r).
Proof. destruct (run _ _ lines) as [st r]. eauto. Qed.

Lemma comments_accepted lines st :
  Forall (λ line, startswith "#" line = true) lines →
  past_comments st = false →
  ∃ st', for_each (process_line fetch reverse_complement) lines st
         = (st', Ok tt) ∧
         stdout st' = stdout st.
Proof.
  intros Hall. revert st. induction Hall as [|line lines Hc _ IH]; intros st Hp.
  - by exists st.
  - destruct (IH (next_line st) Hp) as (st' & Hrun & Hout).
    exists st'. split; [| done]. simpl.
    unfold process_line, mbind at 1, M_bind at 1.
    unfold mbind at 1, M_bind at 1, modify. rewrite Hc.
    unfold mbind at 1, M_bind at 1, gets. simpl. rewrite Hp. simpl. done.
Qed.

End Runs.

(** ** Failures that carry no line number *)

Section Failures.

Context (fetch : string → option string) (reverse_complement : string → string).

(** A line that fails after accepted lines ends the run. *)
Lemma run_fails_at pre line post st st' e :
  accepts fetch reverse_complement pre st →
  process_line fetch reverse_complement line st = (st', Raise e) →
  run fetch reverse_complement (pre ++ line :: post) = (st', Raise e).
Proof.
  intros Hacc Hline. apply run_Raise. rewrite for_each_app.
  unfold accepts in Hacc. rewrite (bind_eq_Ok _ _ _ _ _ Hacc). simpl.
  by apply bind_eq_Raise.
Qed.

(** Lines 92 and 94: the first of the three integer fields that does not
    parse raises. *)
Lemma parse_object_ValueError fields st :
  (int (fields !!! 1%nat) = None →
   parse_object fields st = (st, Raise (ValueError (fields !!! 1%nat)))) ∧
  (is_Some (int (fields !!! 1%nat)) → int (fields !!! 2%nat) = None →
   parse_object fields st = (st, Raise (ValueError (fields !!! 2%nat)))) ∧
  (is_Some (int (fields !!! 1%nat)) → is_Some (int (fields !!! 2%nat)) →
   int (fields !!! 3%nat) = None →
   parse_object fields st = (st, Raise (ValueError (fields !!! 3%nat)))).
Proof.
  unfold parse_object, to_int. split_and!.
  - by intros ->.
  - by intros [b ->] ->.
  - by intros [b ->] [e ->] ->.
Qed.

(** A body line with nine non-empty fields fails as its object part does. *)
Lemma process_line_parse_Raise line st e :
  startswith "#" line = false →
  length (line_fields line) = 9%nat →
  Forall (λ f, f ≠ EmptyString) (line_fields line) →
  parse_object (line_fields line) (set_past_comments true (next_line st))
  = (set_past_comments true (next_line st), Raise e) →
  process_line fetch reverse_complement line st
  = (set_past_comments true (next_line st), Raise e).
Proof.
  intros Hc Hlen Hne Hparse. unfold process_line.
  unfold mbind at 1, M_bind at 1, modify. rewrite Hc.
  unfold process_body. apply bind_eq_Raise.
  unfold enter_object.
  rewrite (bind_eq_Ok _ _ _ _ _ (read_fields_Ok line _ Hlen Hne)).
  by apply bind_eq_Raise.
Qed.

(** Line 144. *)
Lemma component_ValueError fields st :
  (int (fields !!! 6%nat) = None →
   component fetch reverse_complement fields st
   = (st, Raise (ValueError (fields !!! 6%nat)))) ∧
  (is_Some (int (fields !!! 6%nat)) → int (fields !!! 7%nat) = None →
   component fetch reverse_complement fields st
   = (st, Raise (ValueError (fields !!! 7%nat)))).
Proof.
  unfold component, to_int. split.
  - by intros ->.
  - by intros [b ->] ->.
Qed.

(** Line 164. *)
Lemma gap_ValueError comp_type fields st :
  int (fields !!! 5%nat) = None →
  gap comp_type fields st = (st, Raise (ValueError (fields !!! 5%nat))).
Proof. unfold gap, to_int. by intros ->. Qed.

(** Lines 157 and 159: the exception of the collaborator. *)
Lemma component_KeyError fields st cb ce :
  int (fields !!! 6%nat) = Some cb → int (fields !!! 7%nat) = Some ce →
  1 ≤ cb ≤ ce →
  fields !!! 8%nat ∈ ["+"; "?"; "0"; "na"; "-"] →
  fetch (fields !!! 5%nat) = None →
  component fetch reverse_complement fields st
  = (st, Raise (KeyError (fields !!! 5%nat))).
Proof.
  intros Hb He Hbe Ho Hs. rewrite (component_eval _ _ _ _ _ _ Hb He Hbe).
  apply bind_eq_Raise. unfold write_component, fai_fetch. rewrite Hs.
  destruct (bool_decide (fields !!! 8%nat ∈ ["+"; "?"; "0"; "na"])) eqn:Hplus;
    [done |].
  rewrite bool_decide_true; [done |].
  apply bool_decide_eq_false in Hplus.
  change (fields !!! 8%nat ∈ ["+"; "?"; "0"; "na"] ++ ["-"]) in Ho.
  apply elem_of_app in Ho as [Ho|Ho]; [done |].
  by apply list_elem_of_singleton in Ho.
Qed.

(** A record that has passed the transition, the part check and the check
    of the component type fails as its component or gap does. *)
Lemma process_line_record_Raise line st st1 o e :
  let fields := line_fields line in
  let st2 := record_part (pid o) (interval o) st1 in
  startswith "#" line = false →
  enter_object line (next_line st) = (st1, Ok (fields, o)) →
  pid o - prev_pid st1 = 1 →
  fields !!! 4%nat ∈ allowed_comp_types →
  (if is_gap (fields !!! 4%nat) then gap (fields !!! 4%nat) fields st2
   else component fetch reverse_complement fields st2)
  = (st2, Raise e) →
  process_line fetch reverse_complement line st = (st2, Raise e).
Proof.
  intros fields st2 Hc Henter Hpid Hct Hbranch.
  rewrite (process_line_body _ _ _ _ _ _ _ Hc Henter).
  rewrite (bind_eq_Ok _ _ _ _ _ (part_check_Ok o st1 Hpid)).
  rewrite (bind_eq_Ok _ _ _ _ _ (check_comp_type_Ok _ _ Hct)).
  apply bind_eq_Raise. rewrite is_gap_false.
  fold fields. change (record_part (pid o) (obj_beg o - 1, obj_end o) st1)
    with st2.
  by destruct (is_gap (fields !!! 4%nat)).
Qed.

Lemma untagged_exceptions n s :
  ¬ line_tagged n (ValueError s) ∧ ¬ line_tagged n (KeyError s).
Proof. split; by intros [reason ?]. Qed.

End Failures.

(** * The main properties *)

(** C3. For the intervals accumulated for one object (each of them
    [(obj_beg - 1, obj_end)] with [1 <= obj_beg <= obj_end]), [is_covered]
    succeeds exactly when, in the list sorted by start coordinate, the end of
    each interval is the start of the next; and when the first record of the
    object starts at position 1 (its interval starts at 0), success is
    equivalent to the intervals tiling [0, object_length) with no gap and no
    overlap, the object length being the largest end coordinate. *)
Theorem C3_is_covered_sorted_adjacent_and_tiling (s : list (Z * Z)) :
  Forall accumulated_interval s →
  (∀ s', s' ≡ₚ s → sorted_by_start s' →
     (is_covered s = true ↔ contiguous s')) ∧
  (∀ e r, s = (0, e) :: r →
     (is_covered s = true ↔ tiles s (max_end s))).
Proof.
  intros Hwf. split.
  - intros s' Hp Hs'. by apply is_covered_start_sorted.
  - intros e r ->. apply (is_covered_tiles _ e); [done | left].
Qed.

Section Claims.

Context (fetch : string → option string) (reverse_complement : string → string).

(** C9. An input without body lines (no line at all, or only lines that
    start with '#') is accepted, and the whole output is one newline: no
    header is written and no exception is raised. *)
Theorem C9_no_body_lines_print_one_newline (lines : list string) :
  Forall (λ line, startswith "#" line = true) lines →
  ∃ st, run fetch reverse_complement lines = (st, Ok tt) ∧
        stdout st = [Final nl] ∧ printed st = nl.
Proof.
  intros Hall.
  destruct (comments_accepted fetch reverse_complement lines initial_state Hall
              eq_refl) as (st & Hrun & Hout).
  exists (stdout_write (Final nl) st). split_and!.
  - apply run_Ok. by exists st.
  - simpl. by rewrite Hout.
  - unfold printed. simpl. by rewrite Hout.
Qed.

(** C7, in the form that holds of the code. A run that fails does so at
    one line, after accepting the lines before it, and raises a single
    exception: the [RuntimeError] of [log_err], which carries the 1-based
    number of that line and a reason, or the [ValueError] of [int] on the
    object begin, object end, part number, component begin, component end
    or gap length field of that line, or the exception of the sequence
    collaborator for the component of that line; and a line that fails
    after accepted lines ends the run with its exception. The integer
    fields are not guarded. A body line with nine non-empty fields whose
    object begin, object end or part number does not parse as an integer
    raises the [ValueError] of the first of these fields that does not
    parse. A record that has passed the transition, the part check and the
    check of the component type raises the [ValueError] of its gap length
    when it is a gap, and of the first of its component begin and end that
    does not parse when it is a sequence component; a sequence component
    with valid coordinates and a known orientation whose identifier the
    collaborator does not know raises the exception of the collaborator.
    A [ValueError] and the exception of the collaborator carry no line
    number. *)
Theorem C7_failures_and_their_line_number :
  (∀ lines st e,
     run fetch reverse_complement lines = (st, Raise e) →
     ∃ pre line post,
       lines = pre ++ line :: post ∧
       (∃ st0, accepts fetch reverse_complement pre st0) ∧
       line_number st = S (length pre) ∧
       reported fetch (S (length pre)) (line_fields line) e) ∧
  (∀ pre line post st st' e,
     accepts fetch reverse_complement pre st →
     process_line fetch reverse_complement line st = (st', Raise e) →
     run fetch reverse_complement (pre ++ line :: post) = (st', Raise e)) ∧
  (∀ line st,
     let fields := line_fields line in
     let failure (i : nat) :=
       (set_past_comments true (next_line st),
        Raise (A := unit) (ValueError (fields !!! i))) in
     startswith "#" line = false →
     length fields = 9%nat → Forall (λ f, f ≠ EmptyString) fields →
     (int (fields !!! 1%nat) = None →
      process_line fetch reverse_complement line st = failure 1%nat) ∧
     (is_Some (int (fields !!! 1%nat)) → int (fields !!! 2%nat) = None →
      process_line fetch reverse_complement line st = failure 2%nat) ∧
     (is_Some (int (fields !!! 1%nat)) → is_Some (int (fields !!! 2%nat)) →
      int (fields !!! 3%nat) = None →
      process_line fetch reverse_complement line st = failure 3%nat)) ∧
  (∀ line st st1 o,
     let fields := line_fields line in
     let st2 := record_part (pid o) (interval o) st1 in
     startswith "#" line = false →
     enter_object line (next_line st) = (st1, Ok (fields, o)) →
     pid o - prev_pid st1 = 1 →
     fields !!! 4%nat ∈ allowed_comp_types →
     (is_gap (fields !!! 4%nat) = true → int (fields !!! 5%nat) = None →
      process_line fetch reverse_complement line st
      = (st2, Raise (ValueError (fields !!! 5%nat)))) ∧
     (is_gap (fields !!! 4%nat) = false → int (fields !!! 6%nat) = None →
      process_line fetch reverse_complement line st
      = (st2, Raise (ValueError (fields !!! 6%nat)))) ∧
     (is_gap (fields !!! 4%nat) = false →
      is_Some (int (fields !!! 6%nat)) → int (fields !!! 7%nat) = None →
      process_line fetch reverse_complement line st
      = (st2, Raise (ValueError (fields !!! 7%nat)))) ∧
     (is_gap (fields !!! 4%nat) = false →
      ∀ comp_beg comp_end,
        int (fields !!! 6%nat) = Some comp_beg →
        int (fields !!! 7%nat) = Some comp_end →
        1 ≤ comp_beg ≤ comp_end →
        fields !!! 8%nat ∈ ["+"; "?"; "0"; "na"; "-"] →
        fetch (fields !!! 5%nat) = None →
        process_line fetch reverse_complement line st
        = (st2, Raise (KeyError (fields !!! 5%nat))))) ∧
  (∀ n s, ¬ line_tagged n (ValueError s) ∧ ¬ line_tagged n (KeyError s)).
Proof.
  split_and!.
  - intros lines st e
      (pre & line & post & st1 & -> & Hpre & Hline)%run_Raise%for_each_Raise.
    destruct (accepts_invariant _ _ _ _ Hpre) as [_ Hln].
    destruct (wp_Raise _ _ _ _ _ _
                (process_line_spec fetch reverse_complement line st1) Hline)
      as ((Hln' & _ & _) & Hrep & _).
    exists pre, line, post. split_and!; eauto.
    + rewrite Hln'. simpl. by rewrite Hln.
    + by rewrite <- Hln.
  - intros pre line post st st' e. apply run_fails_at.
  - intros line st fields failure Hc Hlen Hne.
    destruct (parse_object_ValueError fields
                (set_past_comments true (next_line st)))
      as (H1 & H2 & H3).
    split_and!.
    + intros Hb. apply process_line_parse_Raise; auto.
    + intros Hb He. apply process_line_parse_Raise; auto.
    + intros Hb He Hp. apply process_line_parse_Raise; auto.
  - intros line st st1 o fields st2 Hc Henter Hpid Hct.
    destruct (component_ValueError fetch reverse_complement fields st2)
      as [H6 H7].
    split_and!.
    + intros Hgap Hn.
      apply (process_line_record_Raise _ _ _ _ _ _ _ Hc Henter Hpid Hct).
      fold fields. rewrite Hgap. by apply gap_ValueError.
    + intros Hgap Hb.
      apply (process_line_record_Raise _ _ _ _ _ _ _ Hc Henter Hpid Hct).
      fold fields. rewrite Hgap. auto.
    + intros Hgap Hb He.
      apply (process_line_record_Raise _ _ _ _ _ _ _ Hc Henter Hpid Hct).
      fold fields. rewrite Hgap. auto.
    + intros Hgap cb ce Hb He Hbe Ho Hs.
      apply (process_line_record_Raise _ _ _ _ _ _ _ Hc Henter Hpid Hct).
      fold fields. rewrite Hgap. by eapply component_KeyError.
  - apply untagged_exceptions.
Qed.

(** C4. When an object begins the previous part number is 0, and it is
    unchanged on a further record of the current object; a record whose
    part number is not the previous one plus 1 ends the run with
    "non-sequential part_numbers"; so in every accepted input the part
    numbers of each object are 1, 2, 3, ... in the order of its records, the
    first record of every object carrying part number 1. *)
Theorem C4_part_numbers_count_from_one :
  (∀ line st st1 fields o,
     startswith "#" line = false →
     enter_object line st = (st1, Ok (fields, o)) →
     prev_pid st1 = if decide (curr_obj st = Some (obj o)) then prev_pid st
                    else 0) ∧
  (∀ line st st1 fields o,
     startswith "#" line = false →
     enter_object line (next_line st) = (st1, Ok (fields, o)) →
     pid o - prev_pid st1 ≠ 1 →
     process_line fetch reverse_complement line st
     = (st1, Raise (RuntimeError
                      (message (S (line_number st))
                         "non-sequential part_numbers")))) ∧
  (∀ lines st,
     run fetch reverse_complement lines = (st, Ok tt) →
     ∀ o,
       pid <$> records_of o (records lines)
       = part_numbers (length (records_of o (records lines))) ∧
       ∀ r rest, records_of o (records lines) = r :: rest → pid r = 1).
Proof.
  split_and!.
  - intros line st st1 fields o Hc Henter.
    destruct (enter_object_state fetch _ _ _ _ _ Hc Henter) as (_ & _ & ->).
    by destruct (decide _).
  - intros line st st1 fields o Hc Henter Hpid.
    rewrite (process_line_body _ _ _ _ _ _ _ Hc Henter).
    rewrite (bind_eq_Raise _ _ _ _ _ (part_check_Raise o st1 Hpid)).
    destruct (enter_object_state fetch _ _ _ _ _ Hc Henter) as (_ & _ & ->).
    by destruct (decide _).
  - intros lines st (st0 & Hacc & _)%run_Ok o.
    destruct (accepts_invariant _ _ _ _ Hacc) as [Hinv _].
    pose proof (inv_pids _ _ Hinv o) as Hpids.
    split; [done |]. intros r rest Hrs. rewrite Hrs in Hpids.
    by injection Hpids.
Qed.

(** C8. A component (non-gap) record that reaches the orientation test
    writes exactly the sequence that the collaborator returns for its
    component_id when the orientation is +, ?, 0 or na, and exactly the
    reverse complement of that sequence when the orientation is -; with any
    other orientation the run ends with "invalid orientation" and nothing
    is written for the record. *)
Theorem C8_component_text_by_orientation line st st1 fields o comp_beg comp_end :
  startswith "#" line = false →
  enter_object line (next_line st) = (st1, Ok (fields, o)) →
  pid o - prev_pid st1 = 1 →
  fields !!! 4%nat ∈ allowed_comp_types → is_gap (fields !!! 4%nat) = false →
  int (fields !!! 6%nat) = Some comp_beg →
  int (fields !!! 7%nat) = Some comp_end →
  1 ≤ comp_beg ≤ comp_end →
  let st2 := record_part (pid o) (interval o) st1 in
  let cid := fields !!! 5%nat in
  let orientation := fields !!! 8%nat in
  let result := process_line fetch reverse_complement line st in
  (∀ s, fetch cid = Some s → orientation ∈ ["+"; "?"; "0"; "na"] →
        stdout result.1 = stdout st2 ++ [Sequence s]) ∧
  (∀ s, fetch cid = Some s → orientation = "-" →
        stdout result.1 = stdout st2 ++ [Sequence (reverse_complement s)]) ∧
  (orientation ∉ ["+"; "?"; "0"; "na"; "-"] →
     result = (st2, Raise (RuntimeError
                             (message (S (line_number st))
                                "invalid orientation")))).
Proof.
  intros Hc Henter Hpid Hct Hgap Hcb Hce Hcoord st2 cid orientation result.
  assert (result
          = (write_component fetch reverse_complement cid orientation ;;
             length_check (comp_end - (comp_beg - 1)) o) st2) as Hresult.
  { unfold result.
    rewrite (process_line_body _ _ _ _ _ _ _ Hc Henter).
    rewrite (bind_eq_Ok _ _ _ _ _ (part_check_Ok o st1 Hpid)).
    rewrite (bind_eq_Ok _ _ _ _ _ (check_comp_type_Ok fields _ Hct)).
    rewrite is_gap_false, Hgap. simpl.
    unfold mbind at 1, M_bind at 1.
    rewrite (component_eval _ _ _ _ _ _ Hcb Hce Hcoord).
    unfold mbind, M_bind, mret, M_ret.
    by destruct (write_component _ _ _ _ _) as [? [[]|?]]. }
  assert (line_number st2 = S (line_number st)) as Hln.
  { destruct (enter_object_state fetch _ _ _ _ _ Hc Henter) as (_ & _ & Hst1).
    unfold st2. simpl. rewrite Hst1. by destruct (decide _). }
  split_and!.
  - intros s Hs Ho. rewrite Hresult.
    destruct (write_component_forward fetch reverse_complement cid s st2 Hs)
      as [_ Hw].
    rewrite (bind_eq_Ok _ _ _ _ _ (Hw _ Ho)).
    unfold length_check, when, err, log_err, raise, mbind, M_bind, gets.
    by destruct (negb _).
  - intros s Hs Ho. rewrite Hresult.
    destruct (write_component_forward fetch reverse_complement cid s st2 Hs)
      as [Hw _].
    fold orientation in Ho. rewrite Ho.
    rewrite (bind_eq_Ok _ _ _ _ _ Hw).
    unfold length_check, when, err, log_err, raise, mbind, M_bind, gets.
    by destruct (negb _).
  - intros Ho. rewrite Hresult.
    rewrite (bind_eq_Raise _ _ _ _ _
               (write_component_invalid fetch reverse_complement cid _ st2 Ho)).
    by rewrite Hln.
Qed.

(** C10. Nothing is rolled back when a line fails. If the line starts a new
    object and passes the transition, but a later check of the same line
    raises, then the header of the new object has been written and its
    identifier is in the seen set at the raise. And if a component record
    fails with the span-length error, its sequence (the whole sequence of
    the component, reverse-complemented for orientation -) has been
    written last. *)
Theorem C10_no_rollback_on_error :
  (∀ line st st1 fields o st' e,
     startswith "#" line = false →
     enter_object line (next_line st) = (st1, Ok (fields, o)) →
     curr_obj st ≠ Some (obj o) →
     process_line fetch reverse_complement line st = (st', Raise e) →
     (∃ later,
        stdout st'
        = stdout st ++ Header (obj o) (header_text (is_first st) (obj o)) :: later) ∧
     obj o ∈ seen_objs st') ∧
  (∀ line st st',
     is_gap (line_fields line !!! 4%nat) = false →
     process_line fetch reverse_complement line st
     = (st', Raise (RuntimeError
                      (message (S (line_number st)) inconsistent_lengths))) →
     ∃ s before,
       fetch (line_fields line !!! 5%nat) = Some s ∧
       stdout st `prefix_of` before ∧
       stdout st'
       = before ++ [Sequence (if decide (line_fields line !!! 8%nat = "-")
                              then reverse_complement s else s)]).
Proof.
  split.
  - intros line st st1 fields o st' e Hc Henter Hcur Hrun.
    destruct (wp_Raise _ _ _ _ _ _
                (process_line_spec fetch reverse_complement line st) Hrun)
      as (_ & _ & Hcont).
    destruct (Hcont _ _ Hc Henter) as (_ & Hseen & [later Hout]).
    destruct (enter_object_state fetch _ _ _ _ _ Hc Henter) as (_ & _ & Hst1).
    simpl in Hst1. rewrite decide_False in Hst1 by done. subst st1.
    simpl in *. split.
    + exists later. by rewrite Hout, <- (assoc_L (++)).
    + set_solver.
  - intros line st st' Hgap Hrun.
    destruct (process_line_length_error _ _ _ _ _ Hrun)
      as (st2 & text & -> & (_ & _ & Hpre) & Htext).
    rewrite Hgap in Htext. destruct Htext as (s & Hs & Horient).
    exists s, (stdout st2). split_and!; [done | done |]. simpl.
    destruct Horient as [[Ho ->]|[Ho ->]].
    + rewrite decide_False; [done |]. intros Heq. rewrite Heq in Ho.
      repeat (apply elem_of_cons in Ho as [Ho|Ho]; [discriminate Ho |]).
      by apply elem_of_nil in Ho.
    + by rewrite decide_True.
Qed.

(** C1, in the form that holds of the code. For every accepted input, when the collaborators
    return for each component a sequence of the length that its record
    declares, the sequence text written for each object is as long as the
    spans [object_end - object_beg + 1] of its records add up to; for every
    object that is followed by another object this is the largest
    [object_end] among its records, which is the [object_end] of its last
    record when its records come in coordinate order. *)
Theorem C1_emitted_length_per_object (lines : list string) st :
  run fetch reverse_complement lines = (st, Ok tt) →
  collaborator_ok fetch reverse_complement lines →
  ∀ o, let rs := records_of o (records lines) in
    Z.of_nat (String.length (object_text o st)) = span_sum rs ∧
    (rs ≠ [] → last (obj <$> records lines) ≠ Some o →
       Z.of_nat (String.length (object_text o st)) = largest_object_end rs ∧
       (sorted_by_start (interval <$> rs) →
          final_object_end rs = Some (largest_object_end rs))).
Proof.
  intros (st0 & Hacc & ->)%run_Ok Hok o rs.
  destruct (accepts_output _ _ _ _ Hacc Hok) as [_ Htext].
  destruct (accepts_invariant _ _ _ _ Hacc) as [Hinv _].
  assert (object_text o (stdout_write (Final nl) st0) = object_text o st0)
    as ->.
  { unfold object_text. simpl.
    by rewrite object_text_from_snoc, string_app_nil_r. }
  split; [apply Htext |]. intros Hne Hlast.
  assert (Forall accumulated_interval (interval <$> rs)) as Hwf
    by (apply records_accumulated, records_of_Forall, Hinv).
  assert (is_covered (interval <$> rs) = true) as Hcov.
  { apply Hinv. by rewrite (inv_curr _ _ Hinv). }
  destruct rs as [|r rest] eqn:Hrs; [done |].
  pose proof (inv_start _ _ Hinv o r rest Hrs) as Hbeg.
  assert ((0, obj_end r) ∈ interval <$> r :: rest) as Hin.
  { rewrite fmap_cons. unfold interval at 1. rewrite Hbeg. left. }
  split.
  - rewrite Htext. fold rs. rewrite Hrs, span_sum_total_length.
    by apply (is_covered_total_length _ (obj_end r)).
  - intros Hsorted. unfold final_object_end, largest_object_end.
    apply (is_covered_start_sorted _ _ Hwf (reflexivity _)) in Hcov;
      [| done].
    apply contiguous_chain in Hcov.
    destruct (last (r :: rest)) as [b|] eqn:Hb;
      [| by apply last_None in Hb].
    simpl. f_equal. symmetry.
    apply (chain_last_end _ (interval b) Hwf Hcov).
    by rewrite fmap_last, Hb.
Qed.

(** C5, in the form that holds of the code. In an accepted input no object identifier comes back
    after the records of another object, and the seen set holds the
    identifiers of all records; an identifier is added to the seen set when
    its block starts. A body line whose object identifier differs from the
    current object and is in the seen set always ends the run: with "object
    identifier out of order" when the line has nine non-empty fields,
    integer coordinates with [1 <= object_beg <= object_end] and
    [object_beg = 1], and with "all objects should start with '1'" when
    [object_beg] is not 1. So an input with object order A, A, B, A fails at
    the record that starts the second block of A. *)
Theorem C5_object_identifiers_do_not_come_back :
  (∀ lines st,
     run fetch reverse_complement lines = (st, Ok tt) →
     never_reappears (obj <$> records lines) ∧
     seen_objs st = list_to_set (obj <$> records lines)) ∧
  (∀ line st st1 fields o,
     startswith "#" line = false →
     enter_object line st = (st1, Ok (fields, o)) →
     curr_obj st ≠ Some (obj o) →
     seen_objs st1 = {[obj o]} ∪ seen_objs st ∧ curr_obj st1 = Some (obj o)) ∧
  (∀ line st,
     startswith "#" line = false →
     line_fields line !!! 0%nat ∈ seen_objs st →
     curr_obj st ≠ Some (line_fields line !!! 0%nat) →
     (∃ st' e, process_line fetch reverse_complement line st = (st', Raise e)) ∧
     (∀ r,
        length (line_fields line) = 9%nat →
        Forall (λ f, f ≠ EmptyString) (line_fields line) →
        line_object line = Some r → 1 ≤ obj_beg r ≤ obj_end r →
        process_line fetch reverse_complement line st
        = (set_past_comments true (next_line st),
           Raise (RuntimeError
                    (message (S (line_number st))
                       (if decide (obj_beg r = 1)
                        then "object identifier out of order"
                        else "all objects should start with '1'")))))) ∧
  (∀ pre line post st0,
     accepts fetch reverse_complement pre st0 →
     startswith "#" line = false →
     line_fields line !!! 0%nat ∈ obj <$> records pre →
     last (obj <$> records pre) ≠ Some (line_fields line !!! 0%nat) →
     ∃ st e, run fetch reverse_complement (pre ++ line :: post) = (st, Raise e) ∧
             line_number st = S (length pre)).
Proof.
  assert (∀ line st,
     startswith "#" line = false →
     line_fields line !!! 0%nat ∈ seen_objs st →
     curr_obj st ≠ Some (line_fields line !!! 0%nat) →
     ∃ st' e, process_line fetch reverse_complement line st = (st', Raise e) ∧
              line_number st' = S (line_number st)) as Hfatal.
  { intros line st Hc Hseen Hcur.
    destruct (wp_elim _ _ _ _
                (process_line_spec fetch reverse_complement line st))
      as [(st' & [] & _ & Hstep)|(st' & e & Hrun & (Hln & _) & _)];
      [| eauto].
    unfold accepted_step in Hstep.
    destruct (line_object line) as [r|] eqn:Hr.
    - destruct Hstep as (_ & _ & Htrans & _).
      rewrite <- (line_object_obj _ _ Hr) in Hseen, Hcur.
      by destruct (Htrans Hcur) as (_ & ? & _).
    - destruct Hstep as (Hc' & _). congruence. }
  split_and!.
  - intros lines st (st0 & Hacc & ->)%run_Ok.
    destruct (accepts_invariant _ _ _ _ Hacc) as [Hinv _].
    split; [apply Hinv | apply (inv_seen _ _ Hinv)].
  - intros line st st1 fields o Hc Henter Hcur.
    destruct (enter_object_state fetch _ _ _ _ _ Hc Henter)
      as (_ & _ & ->).
    by rewrite decide_False by done.
  - intros line st Hc Hseen Hcur. split.
    { destruct (Hfatal line st Hc Hseen Hcur) as (st' & e & ? & _). eauto. }
    intros r Hlen Hne Hr Hcoord.
    rewrite <- (line_object_obj _ _ Hr) in Hseen, Hcur.
    unfold process_line. unfold mbind at 1, M_bind at 1, modify. rewrite Hc.
    unfold process_body.
    rewrite (bind_eq_Raise _ _ (next_line st)
               (set_past_comments true (next_line st))
               (RuntimeError
                  (message (S (line_number st))
                     (if decide (obj_beg r = 1)
                      then "object identifier out of order"
                      else "all objects should start with '1'")))); [done |].
    rewrite (enter_object_forward _ _ _ Hlen Hne Hr Hcoord).
    apply bind_eq_Raise.
    destruct (decide (obj_beg r = 1)) as [Hbeg|Hbeg].
    + by apply object_transition_seen.
    + by apply object_transition_start.
  - intros pre line post st0 Hacc Hc Hseen Hcur.
    destruct (accepts_invariant _ _ _ _ Hacc) as [Hinv Hln].
    destruct (Hfatal line st0 Hc) as (st & e & Hrun & Hln').
    + rewrite (inv_seen _ _ Hinv). by apply elem_of_list_to_set.
    + by rewrite (inv_curr _ _ Hinv).
    + exists st, e. split; [| by rewrite Hln', Hln].
      apply run_Raise. rewrite for_each_app.
      rewrite (bind_eq_Ok _ _ _ _ _ Hacc). simpl.
      by rewrite (bind_eq_Raise _ _ _ _ _ Hrun).
Qed.

(** C6, in the form that holds of the code. A gap record of type U that reaches the gap checks with
    a valid gap type, a valid linkage and a positive gap length other than
    100 ends the run with "gaps of type 'U' must be 100 bp", whatever its
    linkage evidence and its object span: the U check comes before the
    checks of the evidence and of the span. The example line
    [scaf1 1 50 1 U 100 scaffold yes na] has a gap length of exactly 100: it
    passes the U check, its 100 N are written after the header, and the run
    ends with the span-length error. *)
Theorem C6_U_gap_check_comes_before_the_span_check :
  (∀ line st st1 fields o n,
     startswith "#" line = false →
     enter_object line (next_line st) = (st1, Ok (fields, o)) →
     pid o - prev_pid st1 = 1 → fields !!! 4%nat = "U" →
     int (fields !!! 5%nat) = Some n →
     fields !!! 6%nat ∈ allowed_gap_types →
     fields !!! 7%nat ∈ allowed_linkage_types →
     1 ≤ n → n ≠ 100 →
     process_line fetch reverse_complement line st
     = (record_part (pid o) (interval o) st1,
        Raise (RuntimeError
                 (message (S (line_number st))
                    "gaps of type 'U' must be 100 bp")))) ∧
  (let result := run fetch reverse_complement [scaf1_U_gap] in
   result.2 = Raise (RuntimeError (message 1 inconsistent_lengths)) ∧
   printed result.1 = ">scaf1" +:+ nl +:+ string_repeat "N"%char 100).
Proof.
  split.
  - intros line st st1 fields o n Hc Henter Hpid HU Hn Hgt Hlk Hpos Hne.
    rewrite (process_line_body _ _ _ _ _ _ _ Hc Henter).
    rewrite (bind_eq_Ok _ _ _ _ _ (part_check_Ok o st1 Hpid)).
    assert (fields !!! 4%nat ∈ allowed_comp_types) as Hct
      by (rewrite HU; by repeat constructor).
    rewrite (bind_eq_Ok _ _ _ _ _ (check_comp_type_Ok fields _ Hct)).
    rewrite HU. simpl.
    rewrite (bind_eq_Raise _ _ _ _ _ (gap_U_Raise _ _ _ Hn Hgt Hlk Hpos Hne)).
    simpl. do 4 f_equal.
    destruct (enter_object_state fetch _ _ _ _ _ Hc Henter)
      as (_ & _ & ->).
    by destruct (decide _).
  - split; vm_compute; reflexivity.
Qed.

End Claims.

(** C2: the final object is not checked. On [gapped_input], one object whose
    two records leave positions 11 to 20 out, the run is accepted and the
    two sequences are printed, although the intervals left in the state do
    not pass [is_covered]: after the last line, line 192 writes the newline
    and nothing calls the check that lines 114-116 make at a transition. *)
Theorem C2_final_object_is_not_checked :
  let result := sample_run gapped_input in
  result.2 = Ok tt ∧
  curr_obj_intervals result.1 = [(0, 10); (20, 30)] ∧
  is_covered (curr_obj_intervals result.1) = false ∧
  printed result.1 = ">A" +:+ nl +:+ "ACGTACGTACAACCGGTTAA" +:+ nl.
Proof. repeat split; vm_compute; reflexivity. Qed.


(** * Further properties of the program *)

(** X1. The coverage check does not depend on the order in which the
    intervals were accumulated: it gives the same answer on any
    rearrangement of the list. *)
Theorem X1_is_covered_any_order (s t : list (Z * Z)) :
  s ≡ₚ t → is_covered s = is_covered t.
Proof.
  intros Hp. unfold is_covered. simpl.
  assert (sorted s = sorted t) as ->; [| done].
  apply sorted_unique; [apply sorted_Sorted |].
  by rewrite sorted_Permutation.
Qed.

Section MoreProperties.

Context (fetch : string → option string) (reverse_complement : string → string).

Lemma accepts_comments_first lines st :
  accepts fetch reverse_complement lines st →
  ∃ comments body,
    lines = comments ++ body ∧
    Forall (λ line, startswith "#" line = true) comments ∧
    Forall (λ line, startswith "#" line = false) body ∧
    past_comments st = bool_decide (body ≠ []).
Proof.
  revert st. induction lines as [|line lines IH] using rev_ind; intros st'.
  { intros ->%accepts_nil. by exists [], []. }
  intros (st & (comments & body & -> & Hcs & Hbs & Hpast)%IH & Hstep)%accepts_snoc.
  unfold accepted_step in Hstep.
  destruct (line_object line) as [r|].
  - destruct Hstep as (Hc & _ & _ & _ & text & _ & ->).
    exists comments, (body ++ [line]). split_and!.
    + by rewrite (assoc_L (++)).
    + done.
    + apply Forall_app. split; [done | by constructor].
    + rewrite bool_decide_true by (by destruct body).
      by destruct (decide _).
  - destruct Hstep as (Hc & Hp & ->). rewrite Hp in Hpast.
    symmetry in Hpast. apply bool_decide_eq_false in Hpast.
    destruct body; [| by destruct Hpast].
    exists (comments ++ [line]), []. split_and!.
    + by rewrite !app_nil_r.
    + apply Forall_app. split; [done | by constructor].
    + done.
    + done.
Qed.

(** X2. Comment lines are accepted only before the first body line: a line
    that starts with '#' changes nothing but the line counter as long as no
    body line was read, and ends the run with "illegal comment in AGP body"
    afterwards; so every accepted input is a run of comment lines followed
    by a run of body lines. *)
Theorem X2_comments_come_first :
  (∀ line st,
     startswith "#" line = true →
     process_line fetch reverse_complement line st
     = (next_line st,
        if past_comments st
        then Raise (RuntimeError
                      (message (S (line_number st))
                         "illegal comment in AGP body"))
        else Ok tt)) ∧
  (∀ lines st,
     run fetch reverse_complement lines = (st, Ok tt) →
     ∃ comments body,
       lines = comments ++ body ∧
       Forall (λ line, startswith "#" line = true) comments ∧
       Forall (λ line, startswith "#" line = false) body).
Proof.
  split.
  - intros line st Hc. unfold process_line.
    unfold mbind, M_bind, modify, gets, when. rewrite Hc. simpl.
    by destruct (past_comments st).
  - intros lines st (st0 & Hacc & _)%run_Ok.
    destruct (accepts_comments_first _ _ Hacc)
      as (comments & body & ? & ? & ? & _).
    by exists comments, body.
Qed.

(** *** The fields of a line *)

Lemma last_char_cons c s :
  last_char (String c s) = if is_empty s then Some c else last_char s.
Proof. by destruct s. Qed.

Lemma rstrip_last_char s c :
  last_char (rstrip s) = Some c → isspace c = false.
Proof.
  induction s as [|d r IH]; simpl; [done |].
  destruct (rstrip r) as [|e r'] eqn:Hr; simpl.
  - destruct (isspace d) eqn:Hd; simpl; [done |]. by intros [= <-].
  - intros H. apply IH. exact H.
Qed.

Lemma split_nonempty sep s : split sep s ≠ [].
Proof.
  destruct s as [|c r]; simpl; [done |].
  case_bool_decide; [done |]. by destruct (split sep r).
Qed.

Lemma split_singleton sep s h : split sep s = [h] → s = h.
Proof.
  revert h; induction s as [|c r IH]; intros h; simpl.
  - by intros [= <-].
  - case_bool_decide.
    + intros [= _ Hr]. by destruct (split_nonempty sep r).
    + destruct (split sep r) as [|h' t] eqn:Hr;
        [by destruct (split_nonempty sep r) |].
      intros [= <- ->]. by rewrite (IH h').
Qed.

Lemma split_last sep s :
  ∃ f, last (split sep s) = Some f ∧
       (f = EmptyString → s = EmptyString ∨ last_char s = Some sep) ∧
       (f ≠ EmptyString → last_char f = last_char s).
Proof.
  induction s as [|c r (f & Hlast & Hempty & Hchar)].
  { exists EmptyString. by split_and!; [| left |]. }
  cbn [split]. case_bool_decide as Hc.
  - subst c. exists f. split_and!.
    + pose proof (split_nonempty sep r).
      destruct (split sep r); [done | by rewrite last_cons, Hlast].
    + intros Hf. right. rewrite last_char_cons.
      destruct (Hempty Hf) as [->|Hr]; [done |].
      by destruct r.
    + intros Hf. rewrite last_char_cons, (Hchar Hf).
      destruct r; [| done].
      simpl in Hlast. by injection Hlast as <-.
  - destruct (split sep r) as [|h t] eqn:Hr;
      [by destruct (split_nonempty sep r) |].
    destruct t as [|h' t].
    + apply split_singleton in Hr as <-. simpl in Hlast.
      injection Hlast as <-. exists (String c r). by split_and!.
    + exists f. split_and!.
      * by rewrite last_cons_cons in Hlast |- *.
      * intros Hf. right. rewrite last_char_cons.
        destruct (Hempty Hf) as [->|Hs]; [done |]. by destruct r.
      * intros Hf. rewrite last_char_cons, (Hchar Hf).
        by destruct r.
Qed.

(** X3. White space at the end of a line, tabs included, is removed before
    the line is split: the last field never ends in white space, and it is
    empty only when the whole line is blank. So a line has nine fields
    only with a ninth field that is not empty, and a line that ends in
    empty fields is short of fields. *)
Theorem X3_last_field_has_no_trailing_space (line f : string) :
  last (line_fields line) = Some f →
  (∀ c, last_char f = Some c → isspace c = false) ∧
  (f = EmptyString → line_fields line = [EmptyString]) ∧
  (length (line_fields line) = 9%nat → line_fields line !!! 8%nat ≠ EmptyString).
Proof.
  unfold line_fields. intros Hlast.
  destruct (split_last tab (rstrip line)) as (f' & Hlast' & Hempty & Hchar).
  rewrite Hlast in Hlast'. injection Hlast' as <-.
  assert (f = EmptyString → rstrip line = EmptyString) as Hblank.
  { intros Hf. destruct (Hempty Hf) as [|Htab]; [done |].
    by apply rstrip_last_char in Htab. }
  split_and!.
  - intros c Hc. apply (rstrip_last_char line).
    rewrite <- Hchar; [done |]. by intros ->.
  - intros Hf. by rewrite (Hblank Hf).
  - intros Hlen Hnine.
    assert (f = EmptyString) as Hf.
    { rewrite last_lookup, Hlen in Hlast. simpl in Hlast.
      apply list_lookup_total_correct in Hlast. congruence. }
    rewrite (Hblank Hf) in Hlen. done.
Qed.

(** *** The checks of one line *)

Lemma wp_for_each_Forall {A} (f : A → M unit) (l : list A) (P : A → Prop) st :
  (∀ x, wp (f x) (λ _ st', st' = st ∧ P x) (λ _ _, True) st) →
  wp (for_each f l) (λ _ st', st' = st ∧ Forall P l) (λ _ _, True) st.
Proof.
  intros Hf. induction l as [|x l IH]; simpl.
  - by apply wp_ret.
  - apply wp_bind. eapply wp_mono; [apply Hf | | done].
    intros [] ? [-> Hx]. eapply wp_mono; [apply IH | | done].
    intros [] ? [-> Hl]. by split; [| constructor].
Qed.

Lemma evidence_loop_Ok (l : list string) st :
  Forall (λ e, e ∈ allowed_evidence_types) l →
  for_each
    (λ e, when (negb (bool_decide (e ∈ allowed_evidence_types)))
            (err "invalid linkage evidence")) l st
  = (st, Ok tt).
Proof.
  induction 1 as [|e l He _ IH]; simpl; [done |].
  unfold mbind, M_bind, when. by rewrite bool_decide_true.
Qed.

Lemma gap_checks comp_type fields st :
  wp (gap comp_type fields)
    (λ _ _,
       fields !!! 6%nat ∈ allowed_gap_types ∧
       fields !!! 7%nat ∈ allowed_linkage_types ∧
       Forall (λ e, e ∈ allowed_evidence_types)
         (split ";"%char (fields !!! 8%nat)))
    (λ _ _, True) st.
Proof.
  unfold gap. wp_go; bools; try done.
  eapply wp_mono;
    [apply (wp_for_each_Forall _ _ (λ e, e ∈ allowed_evidence_types)) | |
     done].
  - intros e. wp_go; bools; auto.
  - intros [] ? [-> Hall]. by wp_go.
Qed.

Lemma gap_Ok comp_type fields st n :
  int (fields !!! 5%nat) = Some n → 1 ≤ n →
  fields !!! 6%nat ∈ allowed_gap_types →
  fields !!! 7%nat ∈ allowed_linkage_types →
  (comp_type = "U" → n = 100) →
  Forall (λ e, e ∈ allowed_evidence_types) (split ";"%char (fields !!! 8%nat)) →
  gap comp_type fields st
  = (stdout_write (Sequence (string_repeat "N"%char n)) st, Ok n).
Proof.
  intros Hn Hpos Hgt Hlk HU Hev. unfold gap, to_int. rewrite Hn.
  assert (bool_decide (comp_type = "U") && negb (n =? 100) = false) as HU'.
  { case_bool_decide; [| done]. rewrite HU by done. done. }
  unfold mbind, M_bind, mret, M_ret, modify. unfold when at 1 2 3 4.
  rewrite !bool_decide_true by done.
  rewrite (proj2 (Z.ltb_ge n 1)), HU' by lia. simpl.
  by rewrite (evidence_loop_Ok _ _ Hev).
Qed.

Lemma length_check_Ok o st :
  length_check (obj_len o) o st = (st, Ok tt).
Proof. unfold length_check, when. by rewrite Z.eqb_refl. Qed.

Lemma object_transition_enter o st :
  curr_obj st ≠ Some (obj o) → obj_beg o = 1 → obj o ∉ seen_objs st →
  (is_first st = false → is_covered (curr_obj_intervals st) = true) →
  object_transition o st = (entered (obj o) st, Ok tt).
Proof.
  intros Hcur Hbeg Hnew Hcov.
  unfold object_transition, mbind, M_bind, gets, when, mret, M_ret, modify.
  rewrite bool_decide_true by congruence.
  rewrite (proj2 (Z.eqb_eq _ _) Hbeg). simpl.
  rewrite bool_decide_false by done.
  unfold entered, header_text.
  destruct (is_first st) eqn:Hf; simpl; [done |].
  by rewrite Hcov.
Qed.

Lemma process_body_checks line st :
  wp (process_body fetch reverse_complement line)
    (λ _ _,
       let fields := line_fields line in
       length fields = 9%nat ∧ Forall (λ f, f ≠ EmptyString) fields ∧
       fields !!! 4%nat ∈ allowed_comp_types ∧
       (is_gap (fields !!! 4%nat) = true →
          fields !!! 6%nat ∈ allowed_gap_types ∧
          fields !!! 7%nat ∈ allowed_linkage_types ∧
          (fields !!! 4%nat = "U" → int (fields !!! 5%nat) = Some 100) ∧
          Forall (λ e, e ∈ allowed_evidence_types)
            (split ";"%char (fields !!! 8%nat))) ∧
       (is_gap (fields !!! 4%nat) = false →
          ∃ comp_beg comp_end,
            int (fields !!! 6%nat) = Some comp_beg ∧
            int (fields !!! 7%nat) = Some comp_end ∧
            1 ≤ comp_beg ≤ comp_end))
    (λ _ _, True) st.
Proof.
  unfold process_body, enter_object.
  wp_step. wp_step.
  eapply wp_mono; [apply read_fields_spec | | done]; simpl.
  intros fields ? (-> & -> & Hlen & Hne).
  wp_step. eapply wp_mono; [apply (parse_object_spec fetch) | | done]; simpl.
  intros o ? (-> & _).
  wp_step. eapply wp_mono; [apply object_transition_spec | | done]; simpl.
  intros [] st1 _. wp_step. simpl.
  wp_step. eapply wp_mono; [apply part_check_spec | | done]; simpl.
  intros [] st2 _.
  wp_step. eapply wp_mono; [apply check_comp_type_spec | | done]; simpl.
  intros comp_type ? (-> & -> & Hct).
  rewrite is_gap_false. wp_step.
  destruct (is_gap (line_fields line !!! 4%nat)) eqn:Hgap; simpl.
  - eapply wp_mono;
      [apply wp_conj; [apply (gap_spec fetch) | apply gap_checks] | | done];
      simpl.
    intros n st3 [(Hn & _ & HU & _) (Hgt & Hlk & Hev)].
    eapply wp_mono; [apply length_check_spec | | done]; simpl.
    intros [] ? _. split_and!; auto; [| done].
    intros _. split_and!; auto. intros HU'. by rewrite Hn, (HU HU').
  - eapply wp_mono;
      [apply (component_spec fetch reverse_complement) | | done]; simpl.
    intros n st3 (cb & ce & s & Hcb & Hce & Hcoord & _).
    eapply wp_mono; [apply length_check_spec | | done]; simpl.
    intros [] ? _. split_and!; auto; [done |]. eauto.
Qed.

Lemma process_line_Ok_cases (line : string) st st' :
  process_line fetch reverse_complement line st = (st', Ok tt) →
  (startswith "#" line = true ∧ past_comments st = false ∧
   st' = next_line st) ∨
  (∃ o text,
     valid_line fetch reverse_complement line o text ∧
     state_allows st o ∧ st' = after_record o text st).
Proof.
  intros Hrun.
  pose proof (wp_Ok _ _ _ _ _ _
                (process_line_spec fetch reverse_complement line st) Hrun)
    as Hstep.
  unfold accepted_step in Hstep.
  destruct (line_object line) as [o|] eqn:Hlo; [| by left].
  right. destruct Hstep as (Hc & Hcoord & Htrans & Hpid & text & Htext & ->).
  assert (process_body fetch reverse_complement line (next_line st)
          = (after_record o text st, Ok tt)) as Hbody.
  { revert Hrun. unfold process_line.
    unfold mbind at 1, M_bind at 1, modify. by rewrite Hc. }
  pose proof (wp_Ok _ _ _ _ _ _ (process_body_checks line _) Hbody)
    as (Hlen & Hne & Hct & Hgap & Hcomp).
  exists o, text. split_and!; [| | done].
  + unfold valid_line.
    refine (conj Hc (conj Hlen (conj Hne (conj Hlo (conj Hcoord (conj Hct _)))))).
    unfold record_text in Htext.
    destruct (is_gap (line_fields line !!! 4%nat)) eqn:Hg.
    * destruct Htext as [Hn ->].
      destruct (Hgap eq_refl) as (Hgt & Hlk & HU & Hev).
      refine (conj Hn (conj Hgt (conj Hlk (conj _ (conj Hev eq_refl))))).
      intros HU'. specialize (HU HU'). rewrite HU in Hn. by injection Hn.
    * destruct Htext as (s & Hcomp' & Hs & Ho).
      destruct (Hcomp eq_refl) as (cb & ce & Hcb & Hce & Hcc).
      exists cb, ce, s.
      refine (conj Hcb (conj Hce (conj Hcc (conj _ (conj Hs Ho))))).
      unfold component_of in Hcomp'. rewrite Hc, Hg, Hcb, Hce in Hcomp'.
      simpl in Hcomp'. by injection Hcomp'.
  + unfold state_allows. destruct (decide (curr_obj st = Some (obj o))) as [|Hne'].
    * exact Hpid.
    * destruct (Htrans Hne') as (? & ? & ?). simpl in Hpid.
      split_and!; auto. lia.
Qed.

Lemma process_line_comment_Ok (line : string) st :
  startswith "#" line = true → past_comments st = false →
  process_line fetch reverse_complement line st = (next_line st, Ok tt).
Proof.
  intros Hc Hp. unfold process_line, mbind, M_bind, modify, gets, when.
  rewrite Hc. simpl. by rewrite Hp.
Qed.

Lemma process_line_valid_Ok (line : string) st o text :
  valid_line fetch reverse_complement line o text → state_allows st o →
  process_line fetch reverse_complement line st
  = (after_record o text st, Ok tt).
Proof.
  intros Hvalid Hadm.
  destruct Hvalid as (Hc & Hlen & Hne & Hlo & Hcoord & Hct & Hrest).
  set (st0 := set_past_comments true (next_line st)).
  set (st1 := if decide (curr_obj st = Some (obj o)) then st0
              else entered (obj o) st0).
  assert (enter_object line (next_line st) = (st1, Ok (line_fields line, o)))
    as Henter.
  { rewrite (enter_object_forward _ _ _ Hlen Hne Hlo Hcoord).
    unfold state_allows in Hadm. unfold st1.
    destruct (decide (curr_obj st = Some (obj o))) as [Hcur|Hcur].
    - by rewrite (bind_eq_Ok _ _ _ _ _ (object_transition_same o st0 Hcur)).
    - destruct Hadm as (Hbeg & Hnew & Hcov & _).
      by rewrite (bind_eq_Ok _ _ _ _ _
                    (object_transition_enter o st0 Hcur Hbeg Hnew Hcov)). }
  assert (pid o - prev_pid st1 = 1) as Hpid.
  { unfold state_allows in Hadm. unfold st1.
    destruct (decide (curr_obj st = Some (obj o))); [done |].
    destruct Hadm as (_ & _ & _ & ->). done. }
  rewrite (process_line_body _ _ _ _ _ _ _ Hc Henter).
  rewrite (bind_eq_Ok _ _ _ _ _ (part_check_Ok o st1 Hpid)).
  rewrite (bind_eq_Ok _ _ _ _ _ (check_comp_type_Ok _ _ Hct)).
  rewrite is_gap_false. unfold after_record. fold st0 st1.
  destruct (is_gap (line_fields line !!! 4%nat)) eqn:Hg; simpl.
  + destruct Hrest as (Hn & Hgt & Hlk & HU & Hev & ->).
    rewrite (bind_eq_Ok _ _ _ _ _
               (gap_Ok _ _ _ _ Hn ltac:(unfold obj_len; lia) Hgt Hlk HU Hev)).
    apply length_check_Ok.
  + destruct Hrest as (cb & ce & s & Hcb & Hce & Hcc & Hlen' & Hs & Ho).
    unfold mbind at 1, M_bind at 1.
    rewrite (component_eval _ _ _ _ _ _ Hcb Hce Hcc), Hlen'.
    destruct (write_component_forward fetch reverse_complement
                (line_fields line !!! 5%nat) s
                (record_part (pid o) (obj_beg o - 1, obj_end o) st1) Hs)
      as [Hminus Hplus].
    destruct Ho as [[Ho ->]|[Ho ->]].
    * rewrite (bind_eq_Ok _ _ _ _ _ (Hplus _ Ho)). simpl.
      apply length_check_Ok.
    * rewrite Ho, (bind_eq_Ok _ _ _ _ _ Hminus). simpl.
      apply length_check_Ok.
Qed.

(** X4. A line is accepted exactly in two cases: it is a comment and no
    body line was read yet, which only advances the line counter; or it is
    a body line that satisfies every rule of lines 84-100 and 138-190 (nine
    non-empty fields, integer object coordinates with
    [1 <= object_beg <= object_end], a known component type, valid component
    or gap fields, equal object and component lengths, a sequence that the
    collaborator returns) in a state that allows its object part, and
    then the state after it is the state before it with the header, if
    the object is new, the part number, the interval and the text of the
    record. *)
Theorem X4_accepted_lines (line : string) st st' :
  process_line fetch reverse_complement line st = (st', Ok tt) ↔
  (startswith "#" line = true ∧ past_comments st = false ∧
   st' = next_line st) ∨
  (∃ o text,
     valid_line fetch reverse_complement line o text ∧
     state_allows st o ∧ st' = after_record o text st).
Proof.
  split.
  - apply process_line_Ok_cases.
  - intros [(Hc & Hp & ->)|(o & text & Hvalid & Hadm & ->)].
    + by apply process_line_comment_Ok.
    + by apply process_line_valid_Ok.
Qed.

(** *** Objects of accepted inputs *)

(** X5. In every accepted input the records of each object have
    coordinates with [1 <= object_beg <= object_end], the first record of
    each object starts at position 1, and the intervals of every object
    that is followed by another object tile [0, L) with no gap and no
    overlap, L being the largest [object_end] of the object. *)
Theorem X5_objects_of_accepted_inputs (lines : list string) st :
  run fetch reverse_complement lines = (st, Ok tt) →
  ∀ o, let rs := records_of o (records lines) in
    Forall (λ r, 1 ≤ obj_beg r ≤ obj_end r) rs ∧
    (∀ r rest, rs = r :: rest → obj_beg r = 1) ∧
    (rs ≠ [] → last (obj <$> records lines) ≠ Some o →
       tiles (interval <$> rs) (largest_object_end rs)).
Proof.
  intros (st0 & Hacc & _)%run_Ok o rs.
  destruct (accepts_invariant _ _ _ _ Hacc) as [Hinv _].
  split_and!.
  - apply records_of_Forall, Hinv.
  - intros r rest Hrs. exact (inv_start _ _ Hinv o r rest Hrs).
  - intros Hne Hlast. unfold largest_object_end.
    destruct rs as [|r rest] eqn:Hrs; [done |].
    pose proof (inv_start _ _ Hinv o r rest Hrs) as Hbeg.
    apply (is_covered_tiles _ (obj_end r)).
    + rewrite <- Hrs. apply records_accumulated, records_of_Forall, Hinv.
    + rewrite fmap_cons. unfold interval at 1. rewrite Hbeg. left.
    + rewrite <- Hrs. apply Hinv. by rewrite (inv_curr _ _ Hinv).
Qed.

Lemma object_transition_uncovered o st :
  curr_obj st ≠ Some (obj o) → obj_beg o = 1 → obj o ∉ seen_objs st →
  is_first st = false → is_covered (curr_obj_intervals st) = false →
  object_transition o st
  = (st, Raise (RuntimeError
                  (message (line_number st)
                     ("some positions in " +:+ default "None" (curr_obj st) +:+
                      " are not accounted for or overlap")))).
Proof.
  intros Hcur Hbeg Hnew Hfirst Hcov.
  unfold object_transition, mbind, M_bind, gets, when, mret, M_ret, modify.
  rewrite bool_decide_true by congruence.
  rewrite (proj2 (Z.eqb_eq _ _) Hbeg). simpl.
  rewrite bool_decide_false by done.
  rewrite Hfirst. simpl. by rewrite Hcov.
Qed.

(** X6. The coverage check at a transition. When a well-formed body line
    starts a new object (at position 1, with an identifier that was not
    seen) while the intervals accumulated for the previous object do not
    pass [is_covered], the run ends at that line with "some positions in
    <previous object> are not accounted for or overlap", and nothing is
    written for the line: the header of the new object does not appear. So
    an input in which an object that is followed by another one leaves a
    gap or an overlap fails at the first line of the next object. *)
Theorem X6_uncovered_object_fails_at_the_next_object (line : string) st o :
  startswith "#" line = false →
  length (line_fields line) = 9%nat →
  Forall (λ f, f ≠ EmptyString) (line_fields line) →
  line_object line = Some o → 1 ≤ obj_beg o ≤ obj_end o →
  curr_obj st ≠ Some (obj o) → obj_beg o = 1 → obj o ∉ seen_objs st →
  is_first st = false → is_covered (curr_obj_intervals st) = false →
  let failure :=
    Raise (RuntimeError
             (message (S (line_number st))
                ("some positions in " +:+ default "None" (curr_obj st) +:+
                 " are not accounted for or overlap"))) in
  process_line fetch reverse_complement line st
  = (set_past_comments true (next_line st), failure) ∧
  ∀ pre post,
    accepts fetch reverse_complement pre st →
    run fetch reverse_complement (pre ++ line :: post)
    = (set_past_comments true (next_line st), failure).
Proof.
  intros Hc Hlen Hne Hlo Hcoord Hcur Hbeg Hnew Hfirst Hcov failure.
  assert (process_line fetch reverse_complement line st
          = (set_past_comments true (next_line st), failure)) as Hline.
  { unfold process_line. unfold mbind at 1, M_bind at 1, modify. rewrite Hc.
    unfold process_body.
    apply bind_eq_Raise.
    rewrite (enter_object_forward _ _ _ Hlen Hne Hlo Hcoord).
    apply bind_eq_Raise.
    exact (object_transition_uncovered o
             (set_past_comments true (next_line st))
             Hcur Hbeg Hnew Hfirst Hcov). }
  split; [exact Hline |].
  intros pre post Hacc. apply run_Raise. rewrite for_each_app.
  rewrite (bind_eq_Ok _ _ _ _ _ Hacc). simpl.
  by rewrite (bind_eq_Raise _ _ _ _ _ Hline).
Qed.

(** *** The output only grows *)

Lemma process_line_extends line st :
  let result := process_line fetch reverse_complement line st in
  stdout st `prefix_of` stdout result.1 ∧ seen_objs st ⊆ seen_objs result.1.
Proof.
  simpl.
  destruct (wp_elim _ _ _ _
              (process_line_spec fetch reverse_complement line st))
    as [(st' & [] & -> & Hstep)|(st' & e & -> & (_ & Hseen & Hout) & _)];
    simpl; [| done].
  unfold accepted_step in Hstep. destruct (line_object line) as [o|].
  - destruct Hstep as (_ & _ & _ & _ & text & _ & ->).
    destruct (decide _); simpl; split;
      try done; try apply union_subseteq_r;
      rewrite <- ?(assoc_L (++)); by apply prefix_app_r.
  - by destruct Hstep as (_ & _ & ->).
Qed.

Lemma for_each_extends lines st :
  let result := for_each (process_line fetch reverse_complement) lines st in
  stdout st `prefix_of` stdout result.1 ∧ seen_objs st ⊆ seen_objs result.1.
Proof.
  revert st; induction lines as [|line lines IH]; intros st; simpl; [done |].
  pose proof (process_line_extends line st) as [Hout Hseen]. simpl in *.
  unfold mbind, M_bind.
  destruct (process_line _ _ line st) as [st1 [[]|e]]; simpl in *; [| done].
  destruct (IH st1) as [Hout' Hseen']. split; by etrans.
Qed.

(** X7. The run is one forward pass that stops at the first failing line
    and never takes back what it wrote: if an input fails, the same failure
    with the same state is the result on any longer input; and what was
    written, and the identifiers that were seen, after a prefix of accepted
    lines remain, as a prefix of the output and a subset of the seen set,
    whatever follows and however the run ends. *)
Theorem X7_output_only_grows :
  (∀ pre post st e,
     run fetch reverse_complement pre = (st, Raise e) →
     run fetch reverse_complement (pre ++ post) = (st, Raise e)) ∧
  (∀ pre post st st' r,
     accepts fetch reverse_complement pre st →
     run fetch reverse_complement (pre ++ post) = (st', r) →
     stdout st `prefix_of` stdout st' ∧ seen_objs st ⊆ seen_objs st').
Proof.
  split.
  - intros pre post st e Hrun%run_Raise. apply run_Raise.
    rewrite for_each_app. by apply bind_eq_Raise.
  - intros pre post st st' r Hacc.
    unfold run, main, mbind, M_bind. rewrite for_each_app.
    unfold accepts in Hacc. unfold mbind, M_bind. rewrite Hacc.
    pose proof (for_each_extends post st) as [Hout Hseen]. simpl in *.
    destruct (for_each _ post st) as [st1 [[]|e]]; simpl in *.
    + unfold modify. intros [= <- _]. simpl. split; [| done].
      by apply prefix_app_r.
    + by intros [= <- _].
Qed.

(** *** The output is the FASTA file of the input *)

Lemma object_ids_snoc rs r :
  object_ids (rs ++ [r]) =
  if decide (obj r ∈ object_ids rs) then object_ids rs
  else object_ids rs ++ [obj r].
Proof. unfold object_ids. by rewrite foldl_app. Qed.

Lemma object_ids_elem rs o : o ∈ object_ids rs ↔ o ∈ obj <$> rs.
Proof.
  induction rs as [|r rs IH] using rev_ind; [done |].
  rewrite object_ids_snoc, fmap_app, elem_of_app. simpl.
  rewrite list_elem_of_singleton, <- IH.
  destruct (decide (obj r ∈ object_ids rs)) as [Hin|Hin].
  - split; [by left | intros [H| ->]; done].
  - by rewrite elem_of_app, list_elem_of_singleton.
Qed.

Lemma object_ids_NoDup rs : NoDup (object_ids rs).
Proof.
  induction rs as [|r rs IH] using rev_ind; [constructor |].
  rewrite object_ids_snoc. destruct (decide _) as [Hin|Hin]; [done |].
  apply NoDup_app. split_and!; [done | | apply NoDup_singleton].
  intros o Ho ->%list_elem_of_singleton. done.
Qed.

Lemma object_ids_nil rs : object_ids rs = [] ↔ rs = [].
Proof.
  split; [| by intros ->].
  destruct rs as [|r rs]; [done |]. intros Hnil.
  assert (obj r ∈ object_ids (r :: rs)) as Hin
    by (apply object_ids_elem; left).
  rewrite Hnil in Hin. by apply elem_of_nil in Hin.
Qed.

Lemma object_sequence_acc o lines acc :
  foldr
    (λ line acc,
       match line_object line with
       | Some r =>
           if decide (obj r = o)
           then record_sequence fetch reverse_complement line +:+ acc
           else acc
       | None => acc
       end)
    acc lines
  = object_sequence fetch reverse_complement o lines +:+ acc.
Proof.
  unfold object_sequence.
  induction lines as [|line lines IH]; simpl; [done |].
  destruct (line_object line) as [r|]; [| done].
  destruct (decide _); [| done]. by rewrite IH, string_app_assoc.
Qed.

Lemma object_sequence_snoc o lines line :
  object_sequence fetch reverse_complement o (lines ++ [line]) =
  object_sequence fetch reverse_complement o lines +:+
  match line_object line with
  | Some r =>
      if decide (obj r = o) then record_sequence fetch reverse_complement line
      else EmptyString
  | None => EmptyString
  end.
Proof.
  unfold object_sequence at 1. rewrite foldr_app, object_sequence_acc. simpl.
  destruct (line_object line) as [r|]; [| done].
  destruct (decide _); by rewrite ?string_app_nil_r.
Qed.

Lemma object_sequence_absent o lines :
  o ∉ obj <$> records lines →
  object_sequence fetch reverse_complement o lines = EmptyString.
Proof.
  induction lines as [|line lines IH] using rev_ind; [done |].
  rewrite records_snoc, fmap_app, object_sequence_snoc.
  intros Hnot. rewrite IH.
  2: { intros Hin. apply Hnot, elem_of_app. by left. }
  destruct (line_object line) as [r|]; [| done].
  destruct (decide _) as [<-|]; [| done].
  destruct Hnot. apply elem_of_app. right. left.
Qed.

Lemma fasta_blocks_ext first f g ids :
  (∀ o, o ∈ ids → f o = g o) →
  fasta_blocks first f ids = fasta_blocks first g ids.
Proof.
  revert first; induction ids as [|o ids IH]; intros first Hfg; [done |].
  simpl. rewrite (Hfg o) by left. rewrite (IH false); [done |].
  intros o' Ho'. apply Hfg. by right.
Qed.

Lemma fasta_blocks_snoc first f ids c :
  fasta_blocks first f (ids ++ [c]) =
  fasta_blocks first f ids +:+
  (header_text (first && bool_decide (ids = [])) c +:+ f c).
Proof.
  revert first; induction ids as [|o ids IH]; intros first; simpl.
  - by rewrite andb_true_r, string_app_nil_r.
  - rewrite IH, andb_false_r. simpl. by rewrite !string_app_assoc.
Qed.

Lemma fasta_blocks_last first f g ids c t :
  NoDup ids → last ids = Some c →
  (∀ o, g o = f o +:+ if decide (c = o) then t else EmptyString) →
  fasta_blocks first g ids = fasta_blocks first f ids +:+ t.
Proof.
  intros Hnd Hlast Hg. destruct ids as [|o ids _] using rev_ind; [done |].
  rewrite last_snoc in Hlast. simplify_eq.
  apply NoDup_app in Hnd as (_ & Hnot & _).
  rewrite !fasta_blocks_snoc, Hg. rewrite decide_True by done.
  rewrite (fasta_blocks_ext first g f).
  - by rewrite !string_app_assoc.
  - intros o Ho. rewrite Hg. rewrite decide_False, string_app_nil_r; [done |].
    intros <-. apply (Hnot c); [done | left].
Qed.

Lemma printed_write w st :
  printed (stdout_write w st) = printed st +:+ written w.
Proof.
  unfold printed. simpl. generalize (stdout st) as ws.
  induction ws as [|w' ws IH]; simpl.
  - by rewrite string_app_nil_r.
  - by rewrite IH, string_app_assoc.
Qed.

Lemma printed_stdout st st' : stdout st = stdout st' → printed st = printed st'.
Proof. unfold printed. by intros ->. Qed.

Lemma record_text_sequence line o text :
  record_text fetch reverse_complement line o text →
  text = record_sequence fetch reverse_complement line.
Proof.
  unfold record_text, record_sequence.
  destruct (is_gap _).
  - by intros [-> ->].
  - intros (s & _ & -> & [[Hor ->]| [-> ->]]); simpl.
    + rewrite decide_False; [done |]. intros Heq. rewrite Heq in Hor.
      repeat (apply elem_of_cons in Hor as [Hor|Hor]; [discriminate |]).
      by apply elem_of_nil in Hor.
    + done.
Qed.

(** While the lines are read, the output is the FASTA text of the objects
    met so far, without the last line end, and the current object is the
    last of them. *)
Lemma accepts_layout lines st :
  accepts fetch reverse_complement lines st →
  printed st =
    fasta_blocks true (λ o, object_sequence fetch reverse_complement o lines)
      (object_ids (records lines)) ∧
  last (object_ids (records lines)) = curr_obj st.
Proof.
  revert st. induction lines as [|line lines IH] using rev_ind; intros st'.
  { by intros ->%accepts_nil. }
  intros (st & Hacc & Hstep)%accepts_snoc.
  destruct (IH _ Hacc) as [Hout Hlast].
  destruct (accepts_invariant fetch reverse_complement _ _ Hacc) as [Hinv _].
  rewrite records_snoc. unfold accepted_step in Hstep.
  destruct (line_object line) as [r|] eqn:Hline.
  2: { destruct Hstep as (_ & _ & ->). rewrite app_nil_r. split; [| done].
       rewrite (fasta_blocks_ext _ _
                  (λ o, object_sequence fetch reverse_complement o lines)).
       - done.
       - intros o _. by rewrite object_sequence_snoc, Hline, string_app_nil_r. }
  destruct Hstep as (_ & _ & Htrans & _ & text & Htext & ->).
  apply record_text_sequence in Htext.
  rewrite object_ids_snoc, printed_write. simpl.
  destruct (decide (curr_obj st = Some (obj r))) as [Hcur|Hcur].
  - rewrite decide_True by (apply last_elem_of; congruence).
    split; [| by rewrite Hlast].
    rewrite (fasta_blocks_last true
               (λ o, object_sequence fetch reverse_complement o lines) _ _
               (obj r) text); [| apply object_ids_NoDup | congruence |].
    + f_equal. exact Hout.
    + intros o. rewrite object_sequence_snoc, Hline, <- Htext.
      by destruct (decide (obj r = o)).
  - destruct (Htrans Hcur) as (_ & Hnew & _).
    assert (obj r ∉ object_ids (records lines)) as Hnot.
    { rewrite object_ids_elem. intros Hin. apply Hnew.
      rewrite (inv_seen _ _ Hinv). by apply elem_of_list_to_set. }
    rewrite decide_False by done. split; [| by rewrite last_snoc].
    rewrite fasta_blocks_snoc.
    rewrite (fasta_blocks_ext true _
               (λ o, object_sequence fetch reverse_complement o lines)).
    2: { intros o Ho. rewrite object_sequence_snoc, Hline.
         rewrite decide_False, string_app_nil_r; [done |].
         by intros <-. }
    rewrite object_sequence_snoc, Hline, decide_True, <- Htext by done.
    rewrite object_sequence_absent by (by rewrite <- object_ids_elem).
    rewrite (printed_stdout _
               (stdout_write
                  (Header (obj r) (header_text (is_first st) (obj r))) st))
      by done.
    rewrite printed_write, Hout, string_app_assoc. simpl.
    do 3 f_equal.
    destruct (is_first st) eqn:Hfirst.
    + apply (inv_first _ _ Hinv) in Hfirst.
      by rewrite bool_decide_eq_true_2 by (by apply object_ids_nil).
    + rewrite bool_decide_eq_false_2; [done |].
      intros Hnil%object_ids_nil. apply (inv_first _ _ Hinv) in Hnil.
      congruence.
Qed.

(** X8. The output of an accepted input is the FASTA file that the input
    describes: for each object, in the order of first appearance, the line
    > identifier, then on one line the sequences of the object's records in
    the order of the input (N repeated for a gap, the component or its
    reverse complement otherwise); nothing else is printed. *)
Theorem X8_output_is_the_fasta_of_the_input (lines : list string) st :
  run fetch reverse_complement lines = (st, Ok tt) →
  printed st = fasta fetch reverse_complement lines.
Proof.
  intros (st0 & Hacc & ->)%run_Ok.
  rewrite printed_write. unfold fasta.
  by destruct (accepts_layout _ _ Hacc) as [-> _].
Qed.

(** *** The inputs that are accepted *)

Lemma snoc_split {A} (l : list A) x c b :
  l ++ [x] = c ++ b →
  (b = [] ∧ c = l ++ [x]) ∨ ∃ b', b = b' ++ [x] ∧ l = c ++ b'.
Proof.
  destruct b as [|y b _] using rev_ind.
  - rewrite app_nil_r. intros <-. by left.
  - rewrite (assoc_L (++)). intros [-> ->]%app_inj_tail. right. by exists b.
Qed.

Lemma never_reappears_prefix objs x :
  never_reappears (objs ++ [x]) → never_reappears objs.
Proof.
  intros Hnr l1 o l2 o' l3 -> Hne.
  assert (o ∉ l3 ++ [x]) as Hnot.
  { apply (Hnr l1 o l2 o'); [| done].
    by repeat (rewrite <- (assoc_L (++)); simpl). }
  intros Hin. apply Hnot, elem_of_app. by left.
Qed.

Lemma never_reappears_last objs x :
  never_reappears (objs ++ [x]) → last objs ≠ Some x → x ∉ objs.
Proof.
  intros Hnr Hlast (l1 & l2 & ->)%list_elem_of_split.
  destruct l2 as [|o' l2 _] using rev_ind.
  { apply Hlast. by rewrite last_snoc. }
  assert (last (l1 ++ x :: l2 ++ [o']) = Some o') as Hlast'.
  { by rewrite app_comm_cons, (assoc_L (++)), last_snoc. }
  apply (Hnr l1 x l2 o' [x]).
  - by repeat (rewrite <- (assoc_L (++)); simpl).
  - intros ->. by apply Hlast.
  - left.
Qed.

Lemma well_formed_prefix lines line :
  well_formed_input fetch reverse_complement (lines ++ [line]) →
  well_formed_input fetch reverse_complement lines.
Proof.
  intros ((comments & body & Heq & Hcs & Hbs) & Hnr & Hobj).
  rewrite records_snoc in Hnr, Hobj. split_and!.
  - apply snoc_split in Heq as [[-> ->]|(b' & -> & ->)].
    + exists lines, []. rewrite app_nil_r.
      split_and!; [done | by apply Forall_app in Hcs as [? _] | done].
    + exists comments, b'.
      split_and!; [done | done | by apply Forall_app in Hbs as [? _]].
  - destruct (line_object line) as [r|]; [| by rewrite app_nil_r in Hnr].
    rewrite fmap_app in Hnr. by apply never_reappears_prefix in Hnr.
  - intros o. destruct (line_object line) as [r|];
      [| rewrite app_nil_r in Hobj; apply Hobj].
    destruct (Hobj o) as (Hstart & Hpids & Hcov).
    rewrite records_of_snoc in Hstart, Hpids, Hcov.
    rewrite fmap_app in Hnr. split_and!.
    + intros r0 rest Hro.
      apply (Hstart r0 (rest ++ if decide (obj r = o) then [r] else [])).
      by rewrite Hro.
    + destruct (decide (obj r = o)); [| by rewrite app_nil_r in Hpids].
      rewrite fmap_app, length_app in Hpids. simpl in Hpids.
      rewrite Nat.add_1_r, part_numbers_snoc in Hpids.
      by apply app_inj_tail in Hpids as [? _].
    + intros Hlast. destruct (decide (obj r = o)) as [<-|Hne].
      * pose proof (never_reappears_last _ _ Hnr Hlast) as Hnot.
        rewrite records_of_unseen; [done |].
        by rewrite elem_of_list_to_set.
      * rewrite app_nil_r in Hcov. apply Hcov.
        rewrite fmap_app. simpl. rewrite last_snoc. congruence.
Qed.

Lemma well_formed_step lines line st :
  well_formed_input fetch reverse_complement (lines ++ [line]) →
  accepts fetch reverse_complement lines st →
  ∃ st', process_line fetch reverse_complement line st = (st', Ok tt).
Proof.
  intros ((comments & body & Heq & Hcs & Hbs) & Hnr & Hobj) Hacc.
  destruct (accepts_invariant _ _ _ _ Hacc) as [Hinv _].
  destruct (startswith "#" line) eqn:Hc.
  - exists (next_line st). apply process_line_comment_Ok; [done |].
    apply snoc_split in Heq as [[-> ->]|(b' & -> & ->)].
    + apply Forall_app in Hcs as [Hcs _].
      destruct (accepts_comments_first _ _ Hacc)
        as (c' & b' & -> & _ & Hb' & ->).
      destruct b' as [|y b']; [done |].
      apply Forall_app in Hcs as [_ Hcs].
      apply Forall_cons in Hcs as [Hy _]. apply Forall_cons in Hb' as [Hy' _].
      congruence.
    + apply Forall_app in Hbs as [_ Hbs].
      apply (proj1 (Forall_singleton _ _)) in Hbs as (o & text & Hf & _). congruence.
  - assert (∃ o text, valid_line fetch reverse_complement line o text)
      as (o & text & Hv).
    { apply snoc_split in Heq as [[-> ->]|(b' & -> & ->)].
      - apply Forall_app in Hcs as [_ Hcs]. apply (proj1 (Forall_singleton _ _)) in Hcs.
        congruence.
      - apply Forall_app in Hbs as [_ Hbs]. by apply (proj1 (Forall_singleton _ _)) in Hbs. }
    exists (after_record o text st). apply process_line_valid_Ok; [done |].
    pose proof Hv as (_ & _ & _ & Hlo & _).
    rewrite records_snoc, Hlo in Hnr, Hobj. rewrite fmap_app in Hnr.
    simpl in Hnr.
    unfold state_allows.
    destruct (decide (curr_obj st = Some (obj o))) as [Hcur|Hcur].
    + destruct (Hobj (obj o)) as (_ & Hpids & _).
      rewrite records_of_snoc, decide_True in Hpids by done.
      rewrite fmap_app, length_app in Hpids. simpl in Hpids.
      rewrite Nat.add_1_r, part_numbers_snoc in Hpids.
      apply app_inj_tail in Hpids as [_ Hpid].
      rewrite (inv_prev_pid _ _ Hinv _ Hcur). lia.
    + assert (obj o ∉ obj <$> records lines) as Hnot.
      { apply never_reappears_last; [done |].
        by rewrite <- (inv_curr _ _ Hinv). }
      assert (records_of (obj o) (records lines) = []) as Hnil.
      { apply records_of_unseen. by rewrite elem_of_list_to_set. }
      destruct (Hobj (obj o)) as (Hstart & Hpids & _).
      rewrite records_of_snoc, decide_True, Hnil in Hstart, Hpids by done.
      simpl in Hstart, Hpids.
      split_and!.
      * by apply (Hstart o []).
      * rewrite (inv_seen _ _ Hinv). by rewrite elem_of_list_to_set.
      * intros Hfirst. destruct (curr_obj st) as [c|] eqn:Hc'.
        -- rewrite (inv_intervals _ _ Hinv c Hc').
           destruct (Hobj c) as (_ & _ & Hcov).
           rewrite records_of_snoc, decide_False, app_nil_r in Hcov
             by congruence.
           apply Hcov. rewrite fmap_app. simpl. rewrite last_snoc. congruence.
        -- by rewrite (inv_no_object _ _ Hinv Hc').
      * by injection Hpids.
Qed.

Lemma well_formed_accepts lines :
  well_formed_input fetch reverse_complement lines →
  ∃ st, accepts fetch reverse_complement lines st.
Proof.
  induction lines as [|line lines IH] using rev_ind; intros Hwf.
  { exists initial_state. by apply accepts_nil. }
  destruct (IH (well_formed_prefix _ _ Hwf)) as [st Hacc].
  destruct (well_formed_step _ _ _ Hwf Hacc) as [st' Hstep].
  exists st'. unfold accepts. apply for_each_snoc_Ok. eauto.
Qed.

Lemma accepts_valid lines st :
  accepts fetch reverse_complement lines st →
  Forall
    (λ line, startswith "#" line = true ∨
             ∃ o text, valid_line fetch reverse_complement line o text)
    lines.
Proof.
  revert st. induction lines as [|line lines IH] using rev_ind; intros st'.
  { constructor. }
  unfold accepts. intros (st & Hacc & Hstep)%for_each_snoc_Ok.
  apply Forall_app. split; [by eapply IH |]. apply Forall_singleton.
  apply process_line_Ok_cases in Hstep
    as [(? & _)|(o & text & Hv & _)]; eauto.
Qed.

Lemma accepts_well_formed lines st :
  accepts fetch reverse_complement lines st →
  well_formed_input fetch reverse_complement lines.
Proof.
  intros Hacc. destruct (accepts_invariant _ _ _ _ Hacc) as [Hinv _].
  split_and!.
  - destruct (accepts_comments_first _ _ Hacc)
      as (c & b & -> & Hcs & Hbs & _).
    exists c, b. split_and!; [done | done |].
    pose proof (accepts_valid _ _ Hacc) as Hall.
    apply Forall_app in Hall as [_ Hall].
    apply Forall_forall. intros line Hin.
    rewrite Forall_forall in Hall. rewrite Forall_forall in Hbs.
    destruct (Hall _ Hin) as [Hc|?]; [| done].
    rewrite (Hbs _ Hin) in Hc. done.
  - apply Hinv.
  - intros o. split_and!.
    + apply (inv_start _ _ Hinv).
    + apply (inv_pids _ _ Hinv).
    + intros Hlast. apply (inv_covered _ _ Hinv).
      by rewrite (inv_curr _ _ Hinv).
Qed.

(** X9. The inputs that the program accepts are exactly the well-formed
    ones: comment lines first, then body lines each of which satisfies the
    rules of one line; the records of an object next to each other, the
    first of them starting at position 1, their part numbers counting
    1, 2, 3, ...; and the intervals of every object except the last one of
    the input passing the coverage check. Every other input ends in an
    exception. *)
Theorem X9_accepted_inputs_are_the_well_formed_ones (lines : list string) :
  (∃ st, run fetch reverse_complement lines = (st, Ok tt)) ↔
  well_formed_input fetch reverse_complement lines.
Proof.
  split.
  - intros (st & (st0 & Hacc & _)%run_Ok). by eapply accepts_well_formed.
  - intros (st & Hacc)%well_formed_accepts.
    exists (stdout_write (Final nl) st). apply run_Ok. eauto.
Qed.

End MoreProperties.

(** ** Sanity checks of the primitives *)

Example int_examples :
  int "12" = Some 12 /\ int " -7 " = Some (-7) /\ int "1_000" = Some 1000 /\
  int "007" = Some 7 /\ int EmptyString = None /\ int "1__0" = None /\
  int "_1" = None /\ int "1_" = None /\ int "+-5" = None /\ int "x" = None.
Proof. repeat split; reflexivity. Qed.

Example split_examples :
  split tab (rstrip ("a" +:+ String tab "b" +:+ String tab (String tab nl)))
    = ["a"; "b"] /\
  split ";"%char EmptyString = [EmptyString] /\ split ";"%char "a;;b" = ["a"; EmptyString; "b"] /\
  str 12 = "12".
Proof. repeat split; reflexivity. Qed.

Example is_covered_examples :
  is_covered [] = true /\ is_covered [(0, 10)] = true /\
  is_covered [(20, 30); (0, 10); (10, 20)] = true /\
  is_covered [(0, 10); (20, 30)] = false /\
  is_covered [(0, 10); (5, 20)] = false.
Proof. repeat split; reflexivity. Qed.

(** * The main properties on concrete inputs *)

Ltac sample_collaborator_ok :=
  let Hin := fresh "Hin" in
  let Hcomp := fresh "Hcomp" in
  let Hs := fresh "Hs" in
  intros ? ? ? ? Hin Hcomp Hs;
  repeat (apply elem_of_cons in Hin as [->|Hin]);
  try (by apply elem_of_nil in Hin);
  vm_compute in Hcomp; try discriminate Hcomp;
  injection Hcomp as <- <-;
  vm_compute in Hs; injection Hs as <-;
  split; reflexivity.

Lemma C3_witness :
  let s := [(0, 10); (20, 30); (10, 20)] in
  Forall accumulated_interval s ∧
  is_covered s = true ∧
  contiguous [(0, 10); (10, 20); (20, 30)] ∧
  tiles s 30.
Proof.
  intros s.
  assert (Forall accumulated_interval s) as Hwf.
  { unfold s, accumulated_interval. repeat constructor; simpl; lia. }
  destruct (C3_is_covered_sorted_adjacent_and_tiling s Hwf) as [H1 H2].
  assert (is_covered s = true) as Hc by reflexivity.
  split; [exact Hwf |]. split; [exact Hc |]. split.
  - apply (H1 [(0, 10); (10, 20); (20, 30)]); [| | exact Hc].
    + unfold s. apply perm_skip, perm_swap.
    + unfold sorted_by_start, start_le. repeat constructor; simpl; lia.
  - apply (H2 10 [(20, 30); (10, 20)] eq_refl). exact Hc.
Defined.

(** [unordered_input] is accepted and the collaborator returns sequences of
    the declared lengths, yet object A is written 30 characters while the
    [object_end] of its final record is 20. On [gapped_input], whose only
    object is the last one, 20 characters are written while every reading
    of the final [object_end] gives 30. *)
Lemma C1_counterexample :
  let result := sample_run unordered_input in
  let result' := sample_run gapped_input in
  (result.2 = Ok tt ∧
   collaborator_ok sample_fetch sample_reverse_complement unordered_input ∧
   Z.of_nat (String.length (object_text "A" result.1)) = 30 ∧
   final_object_end (records_of "A" (records unordered_input)) = Some 20 ∧
   Some (Z.of_nat (String.length (object_text "A" result.1)))
   ≠ final_object_end (records_of "A" (records unordered_input))) ∧
  (result'.2 = Ok tt ∧
   collaborator_ok sample_fetch sample_reverse_complement gapped_input ∧
   Z.of_nat (String.length (object_text "A" result'.1)) = 20 ∧
   final_object_end (records_of "A" (records gapped_input)) = Some 30 ∧
   largest_object_end (records_of "A" (records gapped_input)) = 30).
Proof.
  split.
  - split; [vm_compute; reflexivity |].
    split; [unfold unordered_input; sample_collaborator_ok |].
    split; [vm_compute; reflexivity |]. split; [vm_compute; reflexivity |].
    vm_compute. discriminate.
  - split; [vm_compute; reflexivity |].
    split; [unfold gapped_input; sample_collaborator_ok |].
    split; [vm_compute; reflexivity |]. split; vm_compute; reflexivity.
Qed.

Lemma C1_witness :
  let st := (sample_run ordered_input).1 in
  sample_run ordered_input = (st, Ok tt) ∧
  collaborator_ok sample_fetch sample_reverse_complement ordered_input ∧
  ∀ o, let rs := records_of o (records ordered_input) in
    Z.of_nat (String.length (object_text o st)) = span_sum rs ∧
    (rs ≠ [] → last (obj <$> records ordered_input) ≠ Some o →
       Z.of_nat (String.length (object_text o st)) = largest_object_end rs ∧
       (sorted_by_start (interval <$> rs) →
          final_object_end rs = Some (largest_object_end rs))).
Proof.
  intros st.
  assert (sample_run ordered_input = (st, Ok tt)) as Hrun
    by (vm_compute; reflexivity).
  assert (collaborator_ok sample_fetch sample_reverse_complement ordered_input)
    as Hok by (unfold ordered_input; sample_collaborator_ok).
  split; [exact Hrun |]. split; [exact Hok |].
  exact (C1_emitted_length_per_object sample_fetch sample_reverse_complement
           ordered_input st Hrun Hok).
Defined.

Lemma C4_witness :
  let st1 := entered "scaf1" (set_past_comments true (next_line initial_state)) in
  let fields := line_fields part2_line in
  let o := ObjectPart "scaf1" 1 10 2 in
  startswith "#" part2_line = false ∧
  enter_object part2_line (next_line initial_state) = (st1, Ok (fields, o)) ∧
  prev_pid st1 = 0 ∧ pid o - prev_pid st1 ≠ 1 ∧
  process_line sample_fetch sample_reverse_complement part2_line initial_state
  = (st1, Raise (RuntimeError (message 1 "non-sequential part_numbers"))) ∧
  (sample_run ordered_input).2 = Ok tt ∧
  pid <$> records_of "A" (records ordered_input) = [1; 2; 3].
Proof.
  intros st1 fields o.
  destruct (C4_part_numbers_count_from_one sample_fetch sample_reverse_complement)
    as (Hstart & Hcheck & Hparts).
  assert (startswith "#" part2_line = false) as Hc by reflexivity.
  assert (enter_object part2_line (next_line initial_state)
          = (st1, Ok (fields, o))) as Henter by (vm_compute; reflexivity).
  assert (pid o - prev_pid st1 ≠ 1) as Hpid by (simpl; lia).
  assert (sample_run ordered_input = ((sample_run ordered_input).1, Ok tt))
    as Hrun by (vm_compute; reflexivity).
  split; [exact Hc |]. split; [exact Henter |].
  split; [exact (Hstart part2_line _ st1 fields o Hc Henter) |].
  split; [exact Hpid |].
  split; [exact (Hcheck part2_line initial_state st1 fields o Hc Henter Hpid) |].
  split; [exact (f_equal snd Hrun) |].
  exact (proj1 (Hparts ordered_input _ Hrun "A")).
Defined.

(** On [reappearing_input] the record that brings A back (its identifier is
    in the seen set and the current object is B) ends the run, but with the
    error of the check that comes first. *)
Lemma C5_counterexample :
  let result := sample_run reappearing_input in
  obj <$> records reappearing_input = ["A"; "A"; "B"; "A"] ∧
  result.2
  = Raise (RuntimeError (message 4 "all objects should start with '1'")) ∧
  "A" ∈ seen_objs result.1 ∧ curr_obj result.1 = Some "B" ∧
  result.2 ≠ Raise (RuntimeError (message 4 "object identifier out of order")).
Proof.
  split; [vm_compute; reflexivity |]. split; [vm_compute; reflexivity |].
  split; [refine (bool_decide_unpack _ _); vm_compute; exact I |].
  split; [vm_compute; reflexivity |]. vm_compute. discriminate.
Qed.

Lemma C5_witness :
  let pre := take 3 restarting_input in
  let line := agp_line ["A"; "1"; "10"; "1"; "W"; "ctg1"; "1"; "10"; "+"] in
  let st0 :=
    (for_each (process_line sample_fetch sample_reverse_complement) pre
       initial_state).1 in
  accepts sample_fetch sample_reverse_complement pre st0 ∧
  startswith "#" line = false ∧
  line_fields line !!! 0%nat ∈ seen_objs st0 ∧
  curr_obj st0 ≠ Some (line_fields line !!! 0%nat) ∧
  process_line sample_fetch sample_reverse_complement line st0
  = (set_past_comments true (next_line st0),
     Raise (RuntimeError (message 4 "object identifier out of order"))) ∧
  ∃ st e, sample_run (pre ++ [line]) = (st, Raise e) ∧ line_number st = 4%nat.
Proof.
  intros pre line st0.
  destruct (C5_object_identifiers_do_not_come_back
              sample_fetch sample_reverse_complement)
    as (_ & _ & Hseen & Hrun).
  assert (accepts sample_fetch sample_reverse_complement pre st0) as Hacc
    by (vm_compute; reflexivity).
  assert (startswith "#" line = false) as Hc by reflexivity.
  assert (line_fields line !!! 0%nat ∈ seen_objs st0) as Hin
    by (refine (bool_decide_unpack _ _); vm_compute; exact I).
  assert (curr_obj st0 ≠ Some (line_fields line !!! 0%nat)) as Hcur
    by (vm_compute; discriminate).
  split; [exact Hacc |]. split; [exact Hc |]. split; [exact Hin |].
  split; [exact Hcur |]. split.
  - destruct (Hseen line st0 Hc Hin Hcur) as [_ Hmsg].
    refine (Hmsg (ObjectPart "A" 1 10 1) eq_refl _ eq_refl _).
    + vm_compute. repeat constructor; discriminate.
    + simpl. lia.
  - refine (Hrun pre line [] st0 Hacc Hc _ _).
    + refine (bool_decide_unpack _ _); vm_compute; exact I.
    + vm_compute. discriminate.
Defined.

(** The example line does not fail with the error of the U check: its gap
    length is 100, and the run ends with the span-length error. *)
Lemma C6_counterexample :
  let result := sample_run [scaf1_U_gap] in
  int (line_fields scaf1_U_gap !!! 5%nat) = Some 100 ∧
  result.2 = Raise (RuntimeError (message 1 inconsistent_lengths)) ∧
  result.2
  ≠ Raise (RuntimeError (message 1 "gaps of type 'U' must be 100 bp")).
Proof.
  split; [vm_compute; reflexivity |]. split; [vm_compute; reflexivity |].
  vm_compute. discriminate.
Qed.

Lemma C6_witness :
  let st1 := entered "scaf1" (set_past_comments true (next_line initial_state)) in
  let fields := line_fields U_gap_50 in
  let o := ObjectPart "scaf1" 1 60 1 in
  startswith "#" U_gap_50 = false ∧
  enter_object U_gap_50 (next_line initial_state) = (st1, Ok (fields, o)) ∧
  pid o - prev_pid st1 = 1 ∧ fields !!! 4%nat = "U" ∧
  int (fields !!! 5%nat) = Some 50 ∧
  (fields !!! 8%nat ∉ allowed_evidence_types) ∧
  process_line sample_fetch sample_reverse_complement U_gap_50 initial_state
  = (record_part (pid o) (interval o) st1,
     Raise (RuntimeError (message 1 "gaps of type 'U' must be 100 bp"))).
Proof.
  intros st1 fields o.
  destruct (C6_U_gap_check_comes_before_the_span_check
              sample_fetch sample_reverse_complement) as [HU _].
  assert (enter_object U_gap_50 (next_line initial_state)
          = (st1, Ok (fields, o))) as Henter by (vm_compute; reflexivity).
  split; [reflexivity |]. split; [exact Henter |]. split; [reflexivity |].
  split; [reflexivity |]. split; [reflexivity |]. split.
  - refine (bool_decide_unpack _ _); vm_compute; exact I.
  - refine (HU U_gap_50 initial_state st1 fields o 50 eq_refl Henter
              eq_refl eq_refl eq_refl _ _ _ _).
    + refine (bool_decide_unpack _ _); vm_compute; exact I.
    + refine (bool_decide_unpack _ _); vm_compute; exact I.
    + lia.
    + lia.
Defined.

(** A field that is not an integer ends the run with the [ValueError] of
    [int], which carries no line number. *)
Lemma C7_counterexample :
  let result := sample_run [scaf1_part1; bad_integer_line] in
  result.2 = Raise (ValueError "x") ∧
  ∀ n, ¬ line_tagged n (ValueError "x").
Proof.
  split; [vm_compute; reflexivity |]. by intros n [reason ?].
Qed.

(** A repeated part number is reported with its line number; a field that
    is not an integer (the object begin of [bad_integer_line], the length of
    a gap, the end of a component) and a component that the collaborator
    does not know end the run with an exception without line number. *)
Lemma C7_witness :
  let gap_line :=
    agp_line ["scaf1"; "1"; "10"; "1"; "N"; "ten"; "scaffold"; "yes"; "na"] in
  let comp_line :=
    agp_line ["scaf1"; "1"; "10"; "1"; "W"; "ctg1"; "1"; "1o"; "+"] in
  let unknown_line :=
    agp_line ["scaf1"; "1"; "10"; "1"; "W"; "ctg9"; "1"; "10"; "+"] in
  (let lines := [scaf1_part1; scaf1_part1] in
   let st := (sample_run lines).1 in
   let e := RuntimeError (message 2 "non-sequential part_numbers") in
   sample_run lines = (st, Raise e) ∧
   ∃ pre line post,
     lines = pre ++ line :: post ∧
     (∃ st0, accepts sample_fetch sample_reverse_complement pre st0) ∧
     line_number st = S (length pre) ∧
     reported sample_fetch (S (length pre)) (line_fields line) e) ∧
  (sample_run ([scaf1_part1] ++ bad_integer_line :: [scaf1_part1])).2
  = Raise (ValueError "x") ∧
  (sample_run ([] ++ gap_line :: [scaf1_part1])).2
  = Raise (ValueError "ten") ∧
  (sample_run ([] ++ comp_line :: [scaf1_part1])).2
  = Raise (ValueError "1o") ∧
  (sample_run ([] ++ unknown_line :: [scaf1_part1])).2
  = Raise (KeyError "ctg9") ∧
  ¬ line_tagged 2 (ValueError "x").
Proof.
  intros gap_line comp_line unknown_line.
  destruct (C7_failures_and_their_line_number
              sample_fetch sample_reverse_complement)
    as (Hall & Hends & Hobject & Hrecord & Huntagged).
  assert (accepts sample_fetch sample_reverse_complement [] initial_state)
    as Hnil by reflexivity.
  set (o := ObjectPart "scaf1" 1 10 1).
  set (st1 := entered "scaf1"
                (set_past_comments true (next_line initial_state))).
  assert (pid o - prev_pid st1 = 1) as Hpid by reflexivity.
  split_and!.
  - intros lines st e.
    assert (sample_run lines = (st, Raise e)) as Hrun
      by (vm_compute; reflexivity).
    split; [exact Hrun |]. exact (Hall lines st e Hrun).
  - set (st := (for_each
                  (process_line sample_fetch sample_reverse_complement)
                  [scaf1_part1] initial_state).1).
    assert (accepts sample_fetch sample_reverse_complement [scaf1_part1] st)
      as Hacc by (vm_compute; reflexivity).
    assert (startswith "#" bad_integer_line = false) as Hc by reflexivity.
    assert (length (line_fields bad_integer_line) = 9%nat) as Hlen
      by (vm_compute; reflexivity).
    assert (Forall (λ f, f ≠ EmptyString) (line_fields bad_integer_line))
      as Hne by (vm_compute; repeat constructor; discriminate).
    assert (int (line_fields bad_integer_line !!! 1%nat) = None) as Hint
      by (vm_compute; reflexivity).
    destruct (Hobject bad_integer_line st Hc Hlen Hne) as (Hbeg & _ & _).
    unfold sample_run.
    rewrite (Hends [scaf1_part1] bad_integer_line [scaf1_part1] st _ _
               Hacc (Hbeg Hint)).
    vm_compute. reflexivity.
  - assert (startswith "#" gap_line = false) as Hc by reflexivity.
    assert (enter_object gap_line (next_line initial_state)
            = (st1, Ok (line_fields gap_line, o))) as Henter
      by (vm_compute; reflexivity).
    assert (line_fields gap_line !!! 4%nat ∈ allowed_comp_types) as Hct
      by (refine (bool_decide_unpack _ _); vm_compute; exact I).
    destruct (Hrecord gap_line initial_state st1 o Hc Henter Hpid Hct)
      as (Hgap & _ & _ & _).
    unfold sample_run.
    rewrite (Hends [] gap_line [scaf1_part1] initial_state _ _ Hnil
               (Hgap eq_refl eq_refl)).
    vm_compute. reflexivity.
  - assert (startswith "#" comp_line = false) as Hc by reflexivity.
    assert (enter_object comp_line (next_line initial_state)
            = (st1, Ok (line_fields comp_line, o))) as Henter
      by (vm_compute; reflexivity).
    assert (line_fields comp_line !!! 4%nat ∈ allowed_comp_types) as Hct
      by (refine (bool_decide_unpack _ _); vm_compute; exact I).
    assert (is_Some (int (line_fields comp_line !!! 6%nat))) as Hbeg
      by (exists 1; vm_compute; reflexivity).
    destruct (Hrecord comp_line initial_state st1 o Hc Henter Hpid Hct)
      as (_ & _ & Hend & _).
    unfold sample_run.
    rewrite (Hends [] comp_line [scaf1_part1] initial_state _ _ Hnil
               (Hend eq_refl Hbeg eq_refl)).
    vm_compute. reflexivity.
  - assert (startswith "#" unknown_line = false) as Hc by reflexivity.
    assert (enter_object unknown_line (next_line initial_state)
            = (st1, Ok (line_fields unknown_line, o))) as Henter
      by (vm_compute; reflexivity).
    assert (line_fields unknown_line !!! 4%nat ∈ allowed_comp_types) as Hct
      by (refine (bool_decide_unpack _ _); vm_compute; exact I).
    assert (line_fields unknown_line !!! 8%nat ∈ ["+"; "?"; "0"; "na"; "-"])
      as Ho by (refine (bool_decide_unpack _ _); vm_compute; exact I).
    destruct (Hrecord unknown_line initial_state st1 o Hc Henter Hpid Hct)
      as (_ & _ & _ & Hkey).
    unfold sample_run.
    rewrite (Hends [] unknown_line [scaf1_part1] initial_state _ _ Hnil
               (Hkey eq_refl 1 10 eq_refl eq_refl ltac:(lia) Ho eq_refl)).
    vm_compute. reflexivity.
  - exact (proj1 (Huntagged 2%nat "x")).
Defined.

Lemma C8_witness :
  let st1 := entered "scaf1" (set_past_comments true (next_line initial_state)) in
  let fields := line_fields short_span_line in
  let o := ObjectPart "scaf1" 1 5 1 in
  let st2 := record_part (pid o) (interval o) st1 in
  let result :=
    process_line sample_fetch sample_reverse_complement short_span_line
      initial_state in
  enter_object short_span_line (next_line initial_state) = (st1, Ok (fields, o)) ∧
  fields !!! 5%nat = "ctg1" ∧ fields !!! 8%nat = "-" ∧
  sample_fetch "ctg1" = Some "ACGTACGTAC" ∧
  stdout result.1 = stdout st2 ++ [Sequence "GTACGTACGT"].
Proof.
  intros st1 fields o st2 result.
  assert (enter_object short_span_line (next_line initial_state)
          = (st1, Ok (fields, o))) as Henter by (vm_compute; reflexivity).
  split; [exact Henter |]. split; [reflexivity |]. split; [reflexivity |].
  split; [reflexivity |].
  assert (fields !!! 4%nat ∈ allowed_comp_types) as Hct
    by (refine (bool_decide_unpack _ _); vm_compute; exact I).
  assert (1 ≤ 1 ≤ 10) as Hcoord by lia.
  destruct (C8_component_text_by_orientation
              sample_fetch sample_reverse_complement
              short_span_line initial_state st1 fields o 1 10
              eq_refl Henter eq_refl Hct eq_refl eq_refl eq_refl Hcoord)
    as (_ & Hminus & _).
  exact (Hminus "ACGTACGTAC" eq_refl eq_refl).
Defined.

Lemma C9_witness :
  let lines := ["# AGP version 2.1" +:+ nl; "# no body" +:+ nl] in
  Forall (λ line, startswith "#" line = true) lines ∧
  ∃ st, sample_run lines = (st, Ok tt) ∧
        stdout st = [Final nl] ∧ printed st = nl.
Proof.
  intros lines.
  assert (Forall (λ line, startswith "#" line = true) lines) as Hall
    by (repeat constructor).
  split; [exact Hall |].
  exact (C9_no_body_lines_print_one_newline
           sample_fetch sample_reverse_complement lines Hall).
Defined.

Lemma C10_witness :
  let st1 := entered "scaf1" (set_past_comments true (next_line initial_state)) in
  let fields := line_fields short_span_line in
  let o := ObjectPart "scaf1" 1 5 1 in
  let result :=
    process_line sample_fetch sample_reverse_complement short_span_line
      initial_state in
  enter_object short_span_line (next_line initial_state) = (st1, Ok (fields, o)) ∧
  curr_obj initial_state ≠ Some (obj o) ∧
  result.2 = Raise (RuntimeError (message 1 inconsistent_lengths)) ∧
  (∃ later,
     stdout result.1
     = stdout initial_state ++ Header "scaf1" (">scaf1" +:+ nl) :: later) ∧
  "scaf1" ∈ seen_objs result.1 ∧
  ∃ s before,
    sample_fetch "ctg1" = Some s ∧
    stdout result.1 = before ++ [Sequence (sample_reverse_complement s)].
Proof.
  intros st1 fields o result.
  destruct (C10_no_rollback_on_error sample_fetch sample_reverse_complement)
    as [Hheader Hsequence].
  assert (enter_object short_span_line (next_line initial_state)
          = (st1, Ok (fields, o))) as Henter by (vm_compute; reflexivity).
  assert (result
          = (result.1, Raise (RuntimeError (message 1 inconsistent_lengths))))
    as Hrun by (vm_compute; reflexivity).
  assert (curr_obj initial_state ≠ Some (obj o)) as Hcur by discriminate.
  split; [exact Henter |]. split; [exact Hcur |].
  split; [exact (f_equal snd Hrun) |]. split_and!.
  - exact (proj1 (Hheader short_span_line initial_state st1 fields o _ _
                    eq_refl Henter Hcur Hrun)).
  - exact (proj2 (Hheader short_span_line initial_state st1 fields o _ _
                    eq_refl Henter Hcur Hrun)).
  - destruct (Hsequence short_span_line initial_state _ eq_refl Hrun)
      as (s & before & Hs & _ & Hout).
    exists s, before. split; [exact Hs | exact Hout].
Defined.

(** * The further properties on concrete inputs *)

Lemma X1_witness :
  [(10, 20); (0, 10); (20, 30)] ≡ₚ [(0, 10); (20, 30); (10, 20)] ∧
  is_covered [(10, 20); (0, 10); (20, 30)]
  = is_covered [(0, 10); (20, 30); (10, 20)].
Proof.
  assert ([(10, 20); (0, 10); (20, 30)] ≡ₚ [(0, 10); (20, 30); (10, 20)])
    as Hp.
  { etrans; [apply perm_swap |]. apply perm_skip, perm_swap. }
  split; [exact Hp |].
  exact (X1_is_covered_any_order _ _ Hp).
Defined.

Lemma X2_witness :
  let lines := ["# AGP version 2.1" +:+ nl; "# two objects" +:+ nl]
               ++ ordered_input in
  let st := (sample_run lines).1 in
  sample_run lines = (st, Ok tt) ∧
  ∃ comments body,
    lines = comments ++ body ∧
    Forall (λ line, startswith "#" line = true) comments ∧
    Forall (λ line, startswith "#" line = false) body.
Proof.
  intros lines st.
  assert (sample_run lines = (st, Ok tt)) as Hrun by (vm_compute; reflexivity).
  split; [exact Hrun |].
  exact (proj2 (X2_comments_come_first sample_fetch sample_reverse_complement)
           lines st Hrun).
Defined.

(** A line whose last two fields are empty and which ends in a space: the
    fields that are left end in + and are eight. *)
Lemma X3_witness :
  let line :=
    agp_line ["scaf1"; "1"; "10"; "1"; "W"; "ctg1"; "1"; "+"; " "; EmptyString] in
  last (line_fields line) = Some "+" ∧
  length (line_fields line) = 8%nat ∧
  (∀ c, last_char "+" = Some c → isspace c = false) ∧
  ("+" = EmptyString → line_fields line = [EmptyString]) ∧
  (length (line_fields line) = 9%nat →
   line_fields line !!! 8%nat ≠ EmptyString).
Proof.
  intros line.
  assert (last (line_fields line) = Some "+") as Hlast
    by (vm_compute; reflexivity).
  split; [exact Hlast |]. split; [vm_compute; reflexivity |].
  exact (X3_last_field_has_no_trailing_space line "+" Hlast).
Defined.

Lemma X4_witness :
  let st' :=
    (process_line sample_fetch sample_reverse_complement scaf1_part1
       initial_state).1 in
  process_line sample_fetch sample_reverse_complement scaf1_part1 initial_state
  = (st', Ok tt) ∧
  ((startswith "#" scaf1_part1 = true ∧ past_comments initial_state = false ∧
    st' = next_line initial_state) ∨
   ∃ o text,
     valid_line sample_fetch sample_reverse_complement scaf1_part1 o text ∧
     state_allows initial_state o ∧ st' = after_record o text initial_state).
Proof.
  intros st'.
  assert (process_line sample_fetch sample_reverse_complement scaf1_part1
            initial_state = (st', Ok tt)) as Hstep
    by (vm_compute; reflexivity).
  split; [exact Hstep |].
  exact (proj1 (X4_accepted_lines sample_fetch sample_reverse_complement
                  scaf1_part1 initial_state st') Hstep).
Defined.

Lemma X5_witness :
  let st := (sample_run unordered_input).1 in
  sample_run unordered_input = (st, Ok tt) ∧
  ∀ o, let rs := records_of o (records unordered_input) in
    Forall (λ r, 1 ≤ obj_beg r ≤ obj_end r) rs ∧
    (∀ r rest, rs = r :: rest → obj_beg r = 1) ∧
    (rs ≠ [] → last (obj <$> records unordered_input) ≠ Some o →
     tiles (interval <$> rs) (largest_object_end rs)).
Proof.
  intros st.
  assert (sample_run unordered_input = (st, Ok tt)) as Hrun
    by (vm_compute; reflexivity).
  split; [exact Hrun |].
  exact (X5_objects_of_accepted_inputs sample_fetch sample_reverse_complement
           unordered_input st Hrun).
Defined.

(** After [gapped_input], whose object A leaves positions 11 to 20 out, a
    line of object B fails at line 3, whatever follows it. *)
Lemma X6_witness :
  let st :=
    (for_each (process_line sample_fetch sample_reverse_complement)
       gapped_input initial_state).1 in
  let line := agp_line ["B"; "1"; "5"; "1"; "W"; "ctg4"; "1"; "5"; "+"] in
  let o := ObjectPart "B" 1 5 1 in
  accepts sample_fetch sample_reverse_complement gapped_input st ∧
  line_object line = Some o ∧
  curr_obj st = Some "A" ∧
  is_first st = false ∧
  is_covered (curr_obj_intervals st) = false ∧
  ∀ post,
    (sample_run (gapped_input ++ line :: post)).2
    = Raise (RuntimeError
               (message 3 "some positions in A are not accounted for or overlap")).
Proof.
  intros st line o.
  assert (accepts sample_fetch sample_reverse_complement gapped_input st)
    as Hacc by (vm_compute; reflexivity).
  assert (startswith "#" line = false) as Hbody by reflexivity.
  assert (length (line_fields line) = 9%nat) as Hnine
    by (vm_compute; reflexivity).
  assert (Forall (λ f, f ≠ EmptyString) (line_fields line)) as Hfull
    by (vm_compute; repeat constructor; discriminate).
  assert (line_object line = Some o) as Hline by (vm_compute; reflexivity).
  assert (1 ≤ obj_beg o ≤ obj_end o) as Hcoords by (simpl; lia).
  assert (curr_obj st = Some "A") as HA by (vm_compute; reflexivity).
  assert (curr_obj st ≠ Some (obj o)) as Hcur
    by (rewrite HA; discriminate).
  assert (obj_beg o = 1) as Hbeg by reflexivity.
  assert (obj o ∉ seen_objs st) as Hnew
    by (refine (bool_decide_unpack _ _); vm_compute; exact I).
  assert (is_first st = false) as Hfirst by (vm_compute; reflexivity).
  assert (is_covered (curr_obj_intervals st) = false) as Hcov
    by (vm_compute; reflexivity).
  split; [exact Hacc |]. split; [exact Hline |]. split; [exact HA |].
  split; [exact Hfirst |]. split; [exact Hcov |].
  intros post.
  destruct (X6_uncovered_object_fails_at_the_next_object
              sample_fetch sample_reverse_complement line st o
              Hbody Hnine Hfull Hline Hcoords Hcur Hbeg Hnew Hfirst Hcov)
    as [_ Hrun].
  unfold sample_run. rewrite (Hrun gapped_input post Hacc).
  vm_compute. reflexivity.
Defined.

(** What [scaf1_part1] wrote stays when the next line fails. *)
Lemma X7_witness :
  let pre := [scaf1_part1] in
  let post := [bad_orientation_line; scaf1_part1] in
  let st :=
    (for_each (process_line sample_fetch sample_reverse_complement)
       pre initial_state).1 in
  let result := sample_run (pre ++ post) in
  accepts sample_fetch sample_reverse_complement pre st ∧
  stdout st `prefix_of` stdout result.1 ∧ seen_objs st ⊆ seen_objs result.1.
Proof.
  intros pre post st result.
  assert (accepts sample_fetch sample_reverse_complement pre st) as Hacc
    by (vm_compute; reflexivity).
  split; [exact Hacc |].
  exact (proj2 (X7_output_only_grows sample_fetch sample_reverse_complement)
           pre post st result.1 result.2 Hacc (surjective_pairing result)).
Defined.

(** The FASTA file of [ordered_input]: two records and a gap of object A on
    one line, then object B. *)
Lemma X8_witness :
  let st := (sample_run ordered_input).1 in
  sample_run ordered_input = (st, Ok tt) ∧
  printed st = fasta sample_fetch sample_reverse_complement ordered_input ∧
  fasta sample_fetch sample_reverse_complement ordered_input
  = ">A" +:+ nl +:+ "ACGTACGTACTTAACCGGTTNNNNN" +:+ nl +:+
    ">B" +:+ nl +:+ "TTTTT" +:+ nl.
Proof.
  intros st.
  assert (sample_run ordered_input = (st, Ok tt)) as Hrun
    by (vm_compute; reflexivity).
  split; [exact Hrun |]. split; [| vm_compute; reflexivity].
  exact (X8_output_is_the_fasta_of_the_input
           sample_fetch sample_reverse_complement ordered_input st Hrun).
Defined.

(** [gapped_input], whose only object leaves positions 11 to 20 out, is
    well formed, the object being the last one; with a line of a second
    object after it, it is not. *)
Lemma X9_witness :
  let line := agp_line ["B"; "1"; "5"; "1"; "W"; "ctg4"; "1"; "5"; "+"] in
  (∃ st, sample_run gapped_input = (st, Ok tt)) ∧
  well_formed_input sample_fetch sample_reverse_complement gapped_input ∧
  ¬ well_formed_input sample_fetch sample_reverse_complement
      (gapped_input ++ [line]).
Proof.
  intros line.
  assert (∃ st, sample_run gapped_input = (st, Ok tt)) as Hrun.
  { exists (sample_run gapped_input).1. vm_compute. reflexivity. }
  split; [exact Hrun |]. split.
  - exact (proj1 (X9_accepted_inputs_are_the_well_formed_ones
                    sample_fetch sample_reverse_complement gapped_input) Hrun).
  - intros Hwf.
    destruct (proj2 (X9_accepted_inputs_are_the_well_formed_ones
                       sample_fetch sample_reverse_complement
                       (gapped_input ++ [line])) Hwf) as [st Hfail].
    apply (f_equal snd) in Hfail. vm_compute in Hfail. discriminate Hfail.
Defined.
